(** * dag2dot: the in-memory workflow graph, the job filter, the
    simplifier (level assignment and redundant-edge elimination) and
    the DOT emitter of [bin/dag2dot.py], embedded as Rocq functions.

    Python objects are references: a [Job] lives in a heap and is
    named by a handle, so that the [parents] and [children] lists of
    different jobs alias the same objects exactly as in the source.
    The [dag] dictionary maps job identifiers to handles.  Loops that
    may run forever on a cyclic graph take a fuel argument. *)

From stdpp Require Import base list relations strings.
From Stdlib Require Import ZArith Lia.

Local Open Scope string_scope.
Local Open Scope list_scope.

(** ** Outcomes of running Python code *)

(** The exceptions the modelled code can raise.  [DanglingRef] has no
    Python counterpart: it is what the model answers when a handle is
    not in the heap, which object references never do. *)
Inductive exn : Type :=
  | ValueError
  | KeyError
  | IndexError
  | AttributeError
  | InvalidInput (msg : string)
  | DanglingRef.

Inductive result (A : Type) : Type :=
  | Ok (a : A)
  | Raise (e : exn)
  | OutOfFuel.
Arguments Ok {A} a.
Arguments Raise {A} e.
Arguments OutOfFuel {A}.

Definition bind {A B : Type} (m : result A) (k : A -> result B) : result B :=
  match m with
  | Ok a => k a
  | Raise e => Raise e
  | OutOfFuel => OutOfFuel
  end.

Notation "x <- m ;; k" := (bind m (fun x => k))
  (at level 100, m at next level, right associativity).

(** [for x in l: s = body(s, x)] with exceptions propagating. *)
Fixpoint for_each {S A : Type} (body : S -> A -> result S) (l : list A) (s : S)
  : result S :=
  match l with
  | [] => Ok s
  | x :: l' => s' <- body s x ;; for_each body l' s'
  end.

(** ** The data model *)

(** A handle names an object of the heap (its identity). *)
Abbreviation handle := nat.

(** [class Job]: [job_id] and [job_name] are the fields [id] and [name]. *)
Record Job : Type := mkJob {
  job_id : string;
  job_name : string;
  level : Z;
  parents : list handle;
  children : list handle
}.

(** [Job()] followed by the assignments to [id] and [name]. *)
Definition new_Job (i n : string) : Job :=
  {| job_id := i; job_name := n; level := 0%Z; parents := []; children := [] |}.

Definition set_id (j : Job) (i : string) : Job :=
  {| job_id := i; job_name := job_name j; level := level j;
     parents := parents j; children := children j |}.
Definition set_level (j : Job) (v : Z) : Job :=
  {| job_id := job_id j; job_name := job_name j; level := v;
     parents := parents j; children := children j |}.
Definition set_parents (j : Job) (ps : list handle) : Job :=
  {| job_id := job_id j; job_name := job_name j; level := level j;
     parents := ps; children := children j |}.
Definition set_children (j : Job) (cs : list handle) : Job :=
  {| job_id := job_id j; job_name := job_name j; level := level j;
     parents := parents j; children := cs |}.

Abbreviation heap := (list Job).
Abbreviation dict := (list (string * handle)).

(** The program state: the objects and the [dag] dictionary.  The
    order of [dag] is the iteration order of the dictionary. *)
Record graph : Type := mkGraph {
  objs : heap;
  dag : dict
}.

Definition deref (h : heap) (n : handle) : result Job :=
  match h !! n with
  | Some j => Ok j
  | None => Raise DanglingRef
  end.

(** Allocation of a new object: its handle is the next free index. *)
Definition alloc (h : heap) (j : Job) : heap * handle := (h ++ [j], length h).

(** *** Dictionary operations *)

Fixpoint dict_lookup {V : Type} (d : list (string * V)) (k : string)
  : option V :=
  match d with
  | [] => None
  | (k', v) :: d' => if decide (k' = k) then Some v else dict_lookup d' k
  end.

(** [d[k]] *)
Definition dict_get {V : Type} (d : list (string * V)) (k : string)
  : result V :=
  match dict_lookup d k with
  | Some v => Ok v
  | None => Raise KeyError
  end.

(** [d[k] = v]: an existing binding is replaced, otherwise one is added. *)
Fixpoint dict_set {V : Type} (d : list (string * V)) (k : string) (v : V)
  : list (string * V) :=
  match d with
  | [] => [(k, v)]
  | (k', v') :: d' =>
      if decide (k' = k) then (k, v) :: d' else (k', v') :: dict_set d' k v
  end.

(** [del d[k]] *)
Fixpoint dict_del (d : dict) (k : string) : result dict :=
  match d with
  | [] => Raise KeyError
  | (k', v') :: d' =>
      if decide (k' = k) then Ok d'
      else d'' <- dict_del d' k ;; Ok ((k', v') :: d'')
  end.

(** [d.keys()] (a list, in Python 2) *)
Definition dict_keys (d : dict) : list string := d.*1.

(** The handles of the jobs in the mapping. *)
Definition nodes (g : graph) : list handle := (dag g).*2.

(** *** List operations *)

(** [l.remove(x)]: drops the first element equal to [x]. *)
Fixpoint py_remove (x : handle) (l : list handle) : result (list handle) :=
  match l with
  | [] => Raise ValueError
  | y :: l' =>
      if decide (y = x) then Ok l'
      else l'' <- py_remove x l' ;; Ok (y :: l'')
  end.

(** [l.pop()]: the last element and the list without it. *)
Fixpoint pop (l : list handle) : option (list handle * handle) :=
  match l with
  | [] => None
  | [x] => Some ([], x)
  | x :: l' =>
      match pop l' with
      | Some (r, y) => Some (x :: r, y)
      | None => None
      end
  end.

(** ** [remove_xforms] *)

(** [p.children.remove(job)] *)
Definition children_remove (h : heap) (p job : handle) : result heap :=
  pj <- deref h p ;;
  cs <- py_remove job (children pj) ;;
  Ok (<[p := set_children pj cs]> h).

(** [c.parents.remove(job)] *)
Definition parents_remove (h : heap) (c job : handle) : result heap :=
  cj <- deref h c ;;
  ps <- py_remove job (parents cj) ;;
  Ok (<[c := set_parents cj ps]> h).

(** [c.parents.append(n)] *)
Definition parents_append (h : heap) (c n : handle) : result heap :=
  cj <- deref h c ;;
  Ok (<[c := set_parents cj (parents cj ++ [n])]> h).

(** The body of the loop over [dag.keys()].  The first inner loop
    walks [job.parents] and writes only [children] fields, the second
    walks [job.children] (read after the first loop) and writes only
    [parents] fields, so neither list changes while it is walked.
    The [print] of the removed identifier is not modelled. *)
Definition remove_xforms_body (xforms : list string) (g : graph) (k : string)
  : result graph :=
  jh <- dict_get (dag g) k ;;
  job <- deref (objs g) jh ;;
  if bool_decide (job_name job ∈ xforms) then
    h1 <- for_each (fun h p => children_remove h p jh) (parents job) (objs g) ;;
    job1 <- deref h1 jh ;;
    h2 <- for_each (fun h c => parents_remove h c jh) (children job1) h1 ;;
    d <- dict_del (dag g) k ;;
    Ok {| objs := h2; dag := d |}
  else Ok g.

Definition remove_xforms (g : graph) (xforms : list string) : result graph :=
  if decide (length xforms = 0) then Ok g
  else for_each (remove_xforms_body xforms) (dict_keys (dag g)) g.

(** ** [inv_reachable] *)

(** The inner loop [for p in n.parents: if p == b: return True;
    fifo.append(p)].  [None] stands for the early [return True]. *)
Fixpoint scan_parents (b : handle) (ps fifo : list handle)
  : option (list handle) :=
  match ps with
  | [] => Some fifo
  | p :: ps' =>
      if decide (p = b) then None else scan_parents b ps' (fifo ++ [p])
  end.

Fixpoint inv_reachable_loop (fuel : nat) (h : heap) (b : handle)
    (fifo : list handle) : result bool :=
  match fuel with
  | O => OutOfFuel
  | S fuel' =>
      match pop fifo with
      | None => Ok false
      | Some (fifo', n) =>
          nj <- deref h n ;;
          match scan_parents b (parents nj) fifo' with
          | None => Ok true
          | Some fifo'' => inv_reachable_loop fuel' h b fifo''
          end
      end
  end.

Definition inv_reachable (fuel : nat) (h : heap) (a b : handle) : result bool :=
  inv_reachable_loop fuel h b [a].

(** ** [simplify] *)

(** The first loop: the jobs without parents, in iteration order. *)
Definition find_roots (g : graph) : result (list handle) :=
  for_each (fun roots k =>
              jh <- dict_get (dag g) k ;;
              j <- deref (objs g) jh ;;
              if decide (length (parents j) = 0) then Ok (roots ++ [jh])
              else Ok roots)
           (dict_keys (dag g)) [].

(** [root.children.append(j)] *)
Definition children_append (h : heap) (p c : handle) : result heap :=
  pj <- deref h p ;;
  Ok (<[p := set_children pj (children pj ++ [c])]> h).

(** The surrogate root: a new object that is not entered in [dag]. *)
Definition surrogate_root (h : heap) (roots : list handle)
  : result (heap * handle) :=
  let (h0, root) := alloc h (set_level (new_Job "root" "root") 0%Z) in
  h1 <- for_each (fun h j => children_append h root j) roots h0 ;;
  Ok (h1, root).

(** [fifo.append(c); c.level = max(c.level, n.level + 1)] *)
Definition relax (n : handle) (st : list handle * heap) (c : handle)
  : result (list handle * heap) :=
  let (fifo, h) := st in
  cj <- deref h c ;;
  nj <- deref h n ;;
  Ok (fifo ++ [c], <[c := set_level cj (Z.max (level cj) (level nj + 1)%Z)]> h).

(** The labelling loop, started with [fifo = [root]]. *)
Fixpoint level_loop (fuel : nat) (fifo : list handle) (h : heap) : result heap :=
  match fuel with
  | O => OutOfFuel
  | S fuel' =>
      match pop fifo with
      | None => Ok h
      | Some (fifo', n) =>
          nj <- deref h n ;;
          st <- for_each (relax n) (children nj) (fifo', h) ;;
          level_loop fuel' st.1 st.2
      end
  end.

(** The body of [for c in children] of the elimination loop.  [F] is
    the fuel handed to each call of [inv_reachable].  The message
    written to [stderr] is not modelled. *)
Definition examine (F : nat) (n : handle) (st : list handle * heap) (c : handle)
  : result (list handle * heap) :=
  let (fifo, h) := st in
  let fifo' := fifo ++ [c] in
  cj <- deref h c ;;
  nj <- deref h n ;;
  let dist := (level cj - level nj)%Z in
  if decide (dist > 1)%Z then
    h1 <- parents_remove h c n ;;
    r <- inv_reachable F h1 c n ;;
    if (r : bool) then
      h2 <- children_remove h1 n c ;; Ok (fifo', h2)
    else
      h2 <- parents_append h1 c n ;; Ok (fifo', h2)
  else Ok (fifo', h).

(** The elimination loop, started with [fifo = [root]]. *)
Fixpoint eliminate_loop (F fuel : nat) (fifo : list handle) (h : heap)
  : result heap :=
  match fuel with
  | O => OutOfFuel
  | S fuel' =>
      match pop fifo with
      | None => Ok h
      | Some (fifo', n) =>
          nj <- deref h n ;;
          st <- for_each (examine F n) (children nj) (fifo', h) ;;
          eliminate_loop F fuel' st.1 st.2
      end
  end.

(** [simplify] up to the end of the labelling loop: the heap and the
    surrogate root. *)
Definition assign_levels (fuel : nat) (g : graph) : result (heap * handle) :=
  roots <- find_roots g ;;
  hr <- surrogate_root (objs g) roots ;;
  h1 <- level_loop fuel [hr.2] hr.1 ;;
  Ok (h1, hr.2).

Definition eliminate (fuel : nat) (root : handle) (h : heap) : result heap :=
  eliminate_loop fuel fuel [root] h.

Definition simplify (fuel : nat) (g : graph) : result graph :=
  hr <- assign_levels fuel g ;;
  h2 <- eliminate fuel hr.2 hr.1 ;;
  Ok {| objs := h2; dag := dag g |}.

(** ** [emit_dot] *)

Definition COLORS : list string := [
  "#1b9e77"; "#d95f02"; "#7570b3"; "#e7298a"; "#66a61e";
  "#e6ab02"; "#a6761d"; "#666666"; "#8dd3c7"; "#bebada";
  "#fb8072"; "#80b1d3"; "#fdb462"; "#b3de69"; "#fccde5";
  "#d9d9d9"; "#bc80bd"; "#ccebc5"; "#ffed6f"; "#ffffb3"
].

Definition tab : string := String (Ascii.ascii_of_nat 9) EmptyString.
Definition nl : string := String (Ascii.ascii_of_nat 10) EmptyString.
Definition dq : string := String (Ascii.ascii_of_nat 34) EmptyString.

(** The pieces of a formatted string, put together. *)
Definition fmt (l : list string) : string := String.concat EmptyString l.

(** [s.replace("-", "_")]: 45 is the code of the dash, 95 that of the
    underscore. *)
Fixpoint replace_dash (s : string) : string :=
  match s with
  | EmptyString => EmptyString
  | String a s' =>
      String (if Ascii.eqb a (Ascii.ascii_of_nat 45)
              then Ascii.ascii_of_nat 95 else a) (replace_dash s')
  end.

Definition header : string :=
  fmt ["digraph dag {"; nl;
       tab; "size="; dq; "8.0,10.0"; dq; nl;
       tab; "ratio=fill"; nl;
       tab; "node [shape=ellipse, style=filled]"; nl;
       tab; "edge [arrowhead=normal, arrowsize=1.0]"; nl;
       tab; nl].

Definition node_stmt (i color label : string) : string :=
  fmt [tab; i; " [color="; dq; color; dq; ",label="; dq; label; dq; "]"; nl].

Definition edge_stmt (a b : string) : string :=
  fmt [tab; dq; a; dq; " -> "; dq; b; dq; nl].

Definition footer : string := fmt ["}"; nl].

(** The state of the first loop: the heap (the loop rewrites [j.id]),
    the [xforms] dictionary, [next_color] and what was written. *)
Record emitter : Type := mkEmitter {
  e_objs : heap;
  xforms : list (string * nat);
  next_color : nat;
  out : list string
}.

(** The body of the first loop of [emit_dot] over the dictionary [d]. *)
Definition emit_node (d : dict) (use_xforms : bool) (st : emitter) (k : string)
  : result emitter :=
  jh <- dict_get d k ;;
  j <- deref (e_objs st) jh ;;
  let j' := set_id j (replace_dash (job_id j)) in
  let label := if use_xforms then job_name j' else job_id j' in
  let xn := match dict_lookup (xforms st) (job_name j') with
            | None => (dict_set (xforms st) (job_name j') (next_color st),
                       S (next_color st))
            | Some _ => (xforms st, next_color st)
            end in
  color <- dict_get xn.1 (job_name j') ;;
  c <- match COLORS !! color with
       | Some c => Ok c
       | None => Raise IndexError
       end ;;
  Ok {| e_objs := <[jh := j']> (e_objs st);
        xforms := xn.1;
        next_color := xn.2;
        out := out st ++ [node_stmt (job_id j') c label] |}.

(** The body of the second loop. *)
Definition emit_edges (d : dict) (h : heap) (o : list string) (k : string)
  : result (list string) :=
  jh <- dict_get d k ;;
  j <- deref h jh ;;
  for_each (fun o c => cj <- deref h c ;;
                       Ok (o ++ [edge_stmt (job_id j) (job_id cj)]))
           (children j) o.

(** [emit_dot]: the heap it leaves and the strings it has written to
    the output file, in order.  What is written before an exception is
    not kept. *)
Definition emit_dot (use_xforms : bool) (g : graph)
  : result (heap * list string) :=
  st <- for_each (emit_node (dag g) use_xforms) (dict_keys (dag g))
          {| e_objs := objs g; xforms := []; next_color := 0;
             out := [header] |} ;;
  o <- for_each (emit_edges (dag g) (e_objs st)) (dict_keys (dag g))
         (out st ++ [nl]) ;;
  Ok (e_objs st, o ++ [footer]).

(** ** The loaders *)

(** [s[0:8]] *)
Definition first8 (s : string) : string := String.substring 0 8 s.

(** *** The DAX handler *)

(** The handler object: the objects, [self.dag] and [self.lastchild],
    an attribute that does not exist before the first [child] element
    ([None]) and can hold Python's [None] ([Some None]). *)
Record DAXHandler : Type := mkDAXHandler {
  dh_objs : heap;
  dh_dag : dict;
  lastchild : option (option string)
}.

(** SAX events, with the attributes of an element as a dictionary. *)
Inductive event : Type :=
  | StartElement (name : string) (attrs : list (string * string))
  | EndElement (name : string).

Definition startElement (st : DAXHandler) (name : string)
    (attrs : list (string * string)) : result DAXHandler :=
  if decide (name = "job") then
    match dict_lookup attrs "id" with
    | None => Raise (InvalidInput "Invalid DAX: attribute 'id' missing")
    | Some i =>
        let n := match dict_lookup attrs "name" with
                 | Some n => n
                 | None => first8 i
                 end in
        let (h, jh) := alloc (dh_objs st) (new_Job i n) in
        Ok {| dh_objs := h; dh_dag := dict_set (dh_dag st) i jh;
              lastchild := lastchild st |}
    end
  else if decide (name = "child") then
    Ok {| dh_objs := dh_objs st; dh_dag := dh_dag st;
          lastchild := Some (dict_lookup attrs "ref") |}
  else if decide (name = "parent") then
    match lastchild st with
    | None => Raise AttributeError
    | Some None => Raise (InvalidInput "Invalid DAX: <parent> outside <child>")
    | Some (Some lc) =>
        child <- dict_get (dh_dag st) lc ;;
        parent <- match dict_lookup attrs "ref" with
                  | Some pid => dict_get (dh_dag st) pid
                  | None => Raise KeyError
                  end ;;
        h1 <- parents_append (dh_objs st) child parent ;;
        h2 <- children_append h1 parent child ;;
        Ok {| dh_objs := h2; dh_dag := dh_dag st; lastchild := lastchild st |}
    end
  else Ok st.

Definition endElement (st : DAXHandler) (name : string) : DAXHandler :=
  if decide (name = "child") then
    {| dh_objs := dh_objs st; dh_dag := dh_dag st; lastchild := Some None |}
  else st.

(** [parse_daxfile] on the events the SAX parser reads from the file. *)
Definition parse_daxfile (events : list event) : result graph :=
  st <- for_each (fun st e =>
                    match e with
                    | StartElement name attrs => startElement st name attrs
                    | EndElement name => Ok (endElement st name)
                    end)
          events {| dh_objs := []; dh_dag := []; lastchild := None |} ;;
  Ok {| objs := dh_objs st; dag := dh_dag st |}.

(** *** Transformation names *)

(** [s.split(sep)] for a separator of one character: the pieces
    between the separators, empty pieces included; at least one
    piece. *)
Fixpoint split_on (sep : Ascii.ascii) (s : string) : list string :=
  match s with
  | EmptyString => [EmptyString]
  | String a s' =>
      if Ascii.eqb a sep then EmptyString :: split_on sep s'
      else match split_on sep s' with
           | w :: ws => String a w :: ws
           | [] => [String a EmptyString]
           end
  end.

(** The colon, the slash and the double quote. *)
Definition colon : Ascii.ascii := Ascii.ascii_of_nat 58.
Definition slash : Ascii.ascii := Ascii.ascii_of_nat 47.
Definition quote : Ascii.ascii := Ascii.ascii_of_nat 34.

(** [xform_name]: [rec[0]] when [rec] has two pieces, [rec[2]] when
    it has more, the whole string otherwise. *)
Definition xform_name (xform : string) : string :=
  let rec := split_on colon xform in
  if decide (length rec = 2) then default xform (rec !! 0)
  else if decide (2 < length rec) then default xform (rec !! 2)
  else xform.

(** [os.path.basename]: what follows the last slash. *)
Definition basename (path : string) : string :=
  default EmptyString (last (split_on slash path)).

(** [pat in s] *)
Fixpoint contains (pat s : string) : bool :=
  String.prefix pat s ||
  match s with
  | EmptyString => false
  | String _ s' => contains pat s'
  end.

(** The loop of [parse_xform_name] over the lines of the submit
    script; [None] is Python's [None]. *)
Fixpoint scan_submit (lines : list string) : result (option string) :=
  match lines with
  | [] => Ok None
  | line :: rest =>
      if contains "+pegasus_wf_xformation" line then
        match split_on quote line !! 1 with
        | Some full => Ok (Some (xform_name full))
        | None => Raise IndexError
        end
      else scan_submit rest
  end.

(** [parse_xform_name] on the path of a readable file and the lines
    [readlines] gives for it. *)
Definition parse_xform_name (path : string) (lines : list string)
  : result (option string) :=
  let fname := basename path in
  if String.prefix "create_dir_" fname then Ok (Some "create_dir")
  else if String.prefix "stage_in_" fname then Ok (Some "stage_in")
  else if String.prefix "stage_out_" fname then Ok (Some "stage_out")
  else if String.prefix "stage_inter_" fname then Ok (Some "stage_inter")
  else if String.prefix "stage_worker_" fname then Ok (Some "stage_worker")
  else if String.prefix "register_" fname then Ok (Some "register")
  else if String.prefix "clean_up_" fname then Ok (Some "clean_up")
  else scan_submit lines.

(** *** The DAG file reader *)

(** Python's white space: blank, tab, newline, vertical tab, form
    feed and carriage return. *)
Definition is_space (a : Ascii.ascii) : bool :=
  let n := Ascii.nat_of_ascii a in
  Nat.eqb n 32 || (Nat.leb 9 n && Nat.leb n 13).

Fixpoint lstrip (s : string) : string :=
  match s with
  | EmptyString => EmptyString
  | String a s' => if is_space a then lstrip s' else s
  end.

Fixpoint string_rev (s : string) : string :=
  match s with
  | EmptyString => EmptyString
  | String a s' => String.append (string_rev s') (String a EmptyString)
  end.

(** [s.strip()] *)
Definition strip (s : string) : string :=
  string_rev (lstrip (string_rev (lstrip s))).

(** [s.split()]: the maximal runs without white space; [cur] is the
    run being read. *)
Fixpoint split_from (cur : string) (s : string) : list string :=
  match s with
  | EmptyString => if decide (cur = EmptyString) then [] else [cur]
  | String a s' =>
      if is_space a then
        if decide (cur = EmptyString) then split_from EmptyString s'
        else cur :: split_from EmptyString s'
      else split_from (String.append cur (String a EmptyString)) s'
  end.

Definition split (s : string) : list string := split_from EmptyString s.

(** The submit scripts: the lines of each path that is a file. *)
Definition submit_files : Type := string -> option (list string).

(** What the reader does with the submit script of a JOB line when
    the DAG file was named without a directory, or the script by an
    absolute path, so that [os.path.join(dagdir, subfile)] is
    [subfile]: [parse_xform_name] if it is a file, with what that
    raises, and no name otherwise. *)
Definition lookup_submit (files : submit_files) (subfile : string)
  : result (option string) :=
  match files subfile with
  | Some lines => parse_xform_name subfile lines
  | None => Ok None
  end.

(** The body of the loop over the lines.  [xform_of] stands for the
    file system: for the third word of a JOB line, what
    [parse_xform_name] returns or raises when the submit script is a
    file, and [Ok None] when it is not. *)
Definition dag_line (xform_of : string -> result (option string))
    (st : heap * dict) (line : string) : result (heap * dict) :=
  let (h, d) := st in
  let line := strip line in
  if String.prefix "JOB" line then
    let rec := split line in
    if decide (length rec < 3) then Raise (InvalidInput "Invalid line:")
    else
      match rec !! 1, rec !! 2 with
      | Some i, Some subfile =>
          name <- xform_of subfile ;;
          let n := match name with
                   | Some n => n
                   | None => first8 i
                   end in
          let (h', jh) := alloc h (new_Job i n) in
          Ok (h', dict_set d i jh)
      | _, _ => Raise IndexError
      end
  else if String.prefix "PARENT" line then
    let rec := split line in
    if decide (length rec < 4) then Raise (InvalidInput "Invalid line:")
    else
      match rec !! 1, rec !! 3 with
      | Some pi, Some ci =>
          p <- dict_get d pi ;;
          c <- dict_get d ci ;;
          h1 <- children_append h p c ;;
          h2 <- parents_append h1 c p ;;
          Ok (h2, d)
      | _, _ => Raise IndexError
      end
  else Ok st.

Definition parse_dagfile (xform_of : string -> result (option string))
    (lines : list string) : result graph :=
  st <- for_each (dag_line xform_of) lines ([], []) ;;
  Ok {| objs := st.1; dag := st.2 |}.

(** ** [main] *)

(** The options [main] reads from the command line. *)
Record options : Type := mkOptions {
  opt_simplify : bool;
  opt_xforms : bool;
  opt_remove : list string
}.

(** [main] from the loaded graph on: filter, simplify unless told
    not to, and emit. *)
Definition main (fuel : nat) (o : options) (g : graph)
  : result (heap * list string) :=
  g1 <- remove_xforms g (opt_remove o) ;;
  g2 <- (if opt_simplify o then simplify fuel g1 else Ok g1) ;;
  emit_dot (opt_xforms o) g2.

(** ** Reading the heap *)

(** A field of the object at a handle, with a default for handles
    outside the heap. *)
Definition fld {A : Type} (f : Job -> A) (d : A) (h : heap) (n : handle) : A :=
  from_option f d (h !! n).

Definition chs : heap -> handle -> list handle := fld children [].
Definition pars : heap -> handle -> list handle := fld parents [].
Definition lvl : heap -> handle -> Z := fld level 0%Z.
Definition nm : heap -> handle -> string := fld job_name EmptyString.
Definition ident : heap -> handle -> string := fld job_id EmptyString.

(** The child-direction edge relation of a heap. *)
Definition edge (h : heap) (p c : handle) : Prop := c ∈ chs h p.

(** The parent-direction link relation of a heap. *)
Definition plink (h : heap) (c p : handle) : Prop := p ∈ pars h c.

(** ** Basic facts *)

Lemma bind_Ok {A B : Type} (m : result A) (k : A -> result B) (b : B) :
  bind m k = Ok b -> exists a, m = Ok a /\ k a = Ok b.
Proof. destruct m; simpl; intros; eauto; discriminate. Qed.

Lemma deref_Ok (h : heap) (n : handle) (j : Job) :
  deref h n = Ok j <-> h !! n = Some j.
Proof.
  unfold deref. destruct (h !! n); split; intros H; inversion H; auto.
Qed.

Lemma deref_lt (h : heap) (n : handle) :
  n < length h -> exists j, deref h n = Ok j /\ h !! n = Some j.
Proof.
  intros Hn. destruct (lookup_lt_is_Some_2 h n Hn) as [j Hj].
  exists j. split; [by apply deref_Ok | done].
Qed.

Lemma fld_lookup {A : Type} (f : Job -> A) (d : A) (h : heap) n j :
  h !! n = Some j -> fld f d h n = f j.
Proof. unfold fld. by intros ->. Qed.

Lemma fld_insert {A : Type} (f : Job -> A) (d : A) (h : heap) p j q :
  p < length h ->
  fld f d (<[p := j]> h) q = if decide (q = p) then f j else fld f d h q.
Proof.
  intros Hp. unfold fld. destruct (decide (q = p)) as [->|Hne].
  - by rewrite list_lookup_insert_eq.
  - by rewrite list_lookup_insert_ne.
Qed.

Lemma fld_app_l {A : Type} (f : Job -> A) (d : A) (h h' : heap) q :
  q < length h -> fld f d (h ++ h') q = fld f d h q.
Proof. intros Hq. unfold fld. by rewrite lookup_app_l. Qed.

Lemma pop_snoc (l : list handle) (x : handle) : pop (l ++ [x]) = Some (l, x).
Proof.
  induction l as [|y l IH]; [done|].
  simpl. rewrite IH. destruct (l ++ [x]) eqn:E; [|done].
  by destruct l.
Qed.

Lemma pop_nil : pop [] = None.
Proof. done. Qed.

Lemma py_remove_perm (x : handle) (l : list handle) :
  x ∈ l -> exists l', py_remove x l = Ok l' /\ l ≡ₚ x :: l' /\ sublist l' l.
Proof.
  induction l as [|y l IH]; intros Hx.
  - by apply elem_of_nil in Hx.
  - simpl. destruct (decide (y = x)) as [->|Hne].
    + exists l. split_and!; [done..|]. by apply sublist_cons.
    + apply elem_of_cons in Hx as [->|Hx]; [done|].
      destruct (IH Hx) as (l' & -> & Hp & Hs). simpl.
      exists (y :: l'). split_and!; [done| |by apply sublist_skip].
      rewrite Hp. apply Permutation_swap.
Qed.

Lemma py_remove_Ok (x : handle) (l l' : list handle) :
  py_remove x l = Ok l' -> x ∈ l /\ l ≡ₚ x :: l' /\ sublist l' l.
Proof.
  intros H. assert (Hx : x ∈ l).
  { revert l' H. induction l as [|y l IH]; intros l' H; [discriminate|].
    simpl in H. destruct (decide (y = x)) as [->|Hne]; [left|].
    apply bind_Ok in H as (l'' & H & _). right. eauto. }
  destruct (py_remove_perm x l Hx) as (l'' & E & Hp & Hs).
  rewrite E in H. by inversion H; subst.
Qed.

Lemma py_remove_absent (x : handle) (l : list handle) :
  x ∉ l -> py_remove x l = Raise ValueError.
Proof.
  induction l as [|y l IH]; intros Hx; [done|].
  simpl. apply not_elem_of_cons in Hx as [Hne Hx].
  destruct (decide (y = x)); [congruence|]. by rewrite IH.
Qed.

(** With no duplicates, [remove] deletes the element altogether. *)
Lemma py_remove_NoDup (x : handle) (l l' : list handle) :
  NoDup l -> py_remove x l = Ok l' ->
  NoDup l' /\ (x ∉ l') /\ (forall y, y ∈ l' <-> y ∈ l /\ y <> x).
Proof.
  intros Hnd H. apply py_remove_Ok in H as (Hx & Hp & Hs).
  rewrite Hp in Hnd. apply NoDup_cons in Hnd as [Hx' Hnd].
  split_and!; [done..|]. intros y. rewrite Hp, elem_of_cons.
  split; [intros Hy; split; [by right|by intros ->]|tauto].
Qed.

(** The list after [l.remove(x)], and [l] itself when that raises. *)
Definition remove1 (x : handle) (l : list handle) : list handle :=
  match py_remove x l with
  | Ok l' => l'
  | _ => l
  end.

Lemma remove1_absent (x : handle) (l : list handle) :
  x ∉ l -> remove1 x l = l.
Proof. intros Hx. unfold remove1. by rewrite py_remove_absent. Qed.

Lemma remove1_elem (x : handle) (l : list handle) (y : handle) :
  NoDup l -> y ∈ remove1 x l <-> y ∈ l /\ y <> x.
Proof.
  intros Hnd. destruct (decide (x ∈ l)) as [Hx|Hx].
  - destruct (py_remove_perm x l Hx) as (l' & E & _).
    unfold remove1. rewrite E. by apply (py_remove_NoDup x l l').
  - rewrite remove1_absent by done. split; [|tauto].
    intros Hy. split; [done|]. by intros ->.
Qed.

Lemma remove1_NoDup (x : handle) (l : list handle) :
  NoDup l -> NoDup (remove1 x l).
Proof.
  intros Hnd. destruct (decide (x ∈ l)) as [Hx|Hx].
  - destruct (py_remove_perm x l Hx) as (l' & E & _).
    unfold remove1. rewrite E. by apply (py_remove_NoDup x l l').
  - by rewrite remove1_absent.
Qed.

Lemma py_remove_remove1 (x : handle) (l : list handle) :
  x ∈ l -> py_remove x l = Ok (remove1 x l).
Proof.
  intros Hx. destruct (py_remove_perm x l Hx) as (l' & E & _).
  unfold remove1. by rewrite E.
Qed.

Lemma for_each_app {S A : Type} (body : S -> A -> result S) (l1 l2 : list A) s :
  for_each body (l1 ++ l2) s = (s' <- for_each body l1 s ;; for_each body l2 s').
Proof.
  revert s. induction l1 as [|x l1 IH]; intros s; [done|].
  simpl. destruct (body s x); simpl; auto.
Qed.

Lemma filter_all {A : Type} (P : A -> Prop) `{!forall x, Decision (P x)}
    (l : list A) :
  Forall P l -> filter P l = l.
Proof.
  induction 1 as [|x l Hx Hl IH]; [done|].
  rewrite filter_cons_True by done. by rewrite IH.
Qed.

Lemma filter_iff_elem {A : Type} (P Q : A -> Prop)
    `{!forall x, Decision (P x), !forall x, Decision (Q x)} (l : list A) :
  (forall x, x ∈ l -> (P x <-> Q x)) -> filter P l = filter Q l.
Proof.
  induction l as [|a l IH]; intros HPQ; [done|].
  assert (Ha : P a <-> Q a) by (apply HPQ; left).
  assert (El : filter P l = filter Q l).
  { apply IH. intros x Hx. apply HPQ. by right. }
  destruct (decide (P a)).
  - rewrite !filter_cons_True by tauto. by rewrite El.
  - rewrite !filter_cons_False by tauto. done.
Qed.

Lemma remove1_filter (x : handle) (l : list handle) :
  NoDup l -> remove1 x l = filter (fun y => y <> x) l.
Proof.
  induction l as [|y l IH]; intros Hnd; [done|].
  apply NoDup_cons in Hnd as [Hy Hnd]. unfold remove1. simpl.
  destruct (decide (y = x)) as [->|Hne].
  - rewrite filter_cons_False by (intros H; by apply H).
    symmetry. apply filter_all, Forall_forall. by intros z Hz ->.
  - rewrite filter_cons_True by done. rewrite <- IH by done.
    unfold remove1. by destruct (py_remove x l).
Qed.

(** ** Well-formed graphs *)

(** Bidirectional consistency of the adjacency of the jobs in the
    mapping: [p] is a parent of [c] iff [c] is a child of [p]. *)
Definition consistent (g : graph) : Prop :=
  forall p c, p ∈ nodes g -> c ∈ nodes g ->
    (c ∈ chs (objs g) p <-> p ∈ pars (objs g) c).

(** What every graph built by the loaders satisfies but for a
    defective input: identifiers and objects are unique, adjacency
    stays within the mapping, is bidirectionally consistent and holds
    no entry twice. *)
Record wf_graph (g : graph) : Prop := {
  wf_keys : NoDup (dict_keys (dag g));
  wf_handles : NoDup (nodes g);
  wf_alloc : forall n, n ∈ nodes g -> n < length (objs g);
  wf_closed_c : forall n c, n ∈ nodes g -> c ∈ chs (objs g) n -> c ∈ nodes g;
  wf_closed_p : forall n p, n ∈ nodes g -> p ∈ pars (objs g) n -> p ∈ nodes g;
  wf_consistent : consistent g;
  wf_nodup_c : forall n, n ∈ nodes g -> NoDup (chs (objs g) n);
  wf_nodup_p : forall n, n ∈ nodes g -> NoDup (pars (objs g) n)
}.

(** ** The job filter *)

Section Filter.

Lemma dict_get_elem (d : dict) (k : string) :
  k ∈ dict_keys d -> exists v, dict_get d k = Ok v /\ (k, v) ∈ d.
Proof.
  unfold dict_get. induction d as [|[k' v'] d IH]; simpl; intros Hk.
  - by apply elem_of_nil in Hk.
  - destruct (decide (k' = k)) as [->|Hne].
    + exists v'. split; [done|left].
    + apply elem_of_cons in Hk as [->|Hk]; [done|].
      destruct (IH Hk) as (v & E & Hin). exists v. split; [done|by right].
Qed.

Lemma dict_del_filter (d : dict) (k : string) :
  NoDup (dict_keys d) -> k ∈ dict_keys d ->
  dict_del d k = Ok (filter (fun kv => kv.1 <> k) d).
Proof.
  induction d as [|[k' v'] d IH]; simpl; intros Hnd Hk.
  - by apply elem_of_nil in Hk.
  - apply NoDup_cons in Hnd as [Hk' Hnd].
    destruct (decide (k' = k)) as [->|Hne].
    + rewrite filter_cons_False by (simpl; tauto).
      f_equal. symmetry. apply filter_all.
      apply Forall_forall. intros [k2 v2] Hin. simpl. intros ->.
      apply Hk'. apply list_elem_of_fmap. by exists (k, v2).
    + apply elem_of_cons in Hk as [->|Hk]; [done|].
      rewrite IH by done. simpl. by rewrite filter_cons_True.
Qed.

(** [for p in ps: p.children.remove(x)] *)
Lemma children_remove_all (x : handle) (ps : list handle) (h : heap) :
  NoDup ps ->
  (forall p, p ∈ ps -> p < length h /\ x ∈ chs h p) ->
  exists h',
    for_each (fun h p => children_remove h p x) ps h = Ok h' /\
    length h' = length h /\
    forall q, h' !! q =
      (fun j => if decide (q ∈ ps)
                then set_children j (remove1 x (children j)) else j) <$> h !! q.
Proof.
  revert h. induction ps as [|p ps IH]; intros h Hnd Hps.
  - exists h. split_and!; [done..|]. intros q.
    by destruct (h !! q).
  - apply NoDup_cons in Hnd as [Hp Hnd].
    destruct (Hps p) as [Hlt Hx]; [left|].
    destruct (deref_lt h p Hlt) as (pj & Ed & El).
    simpl. unfold children_remove at 1. rewrite Ed. simpl.
    unfold chs in Hx. rewrite (fld_lookup _ _ _ _ _ El) in Hx.
    rewrite (py_remove_remove1 _ _ Hx). simpl.
    set (h1 := <[p:=set_children pj (remove1 x (children pj))]> h).
    destruct (IH h1) as (h' & E & Hlen & Hl); [done| |].
    { intros q Hq. destruct (Hps q) as [Hq1 Hq2]; [by right|].
      subst h1. rewrite length_insert. split; [done|].
      unfold chs. rewrite fld_insert by done.
      rewrite decide_False; [done|]. by intros ->. }
    exists h'. split_and!; [done| |].
    { rewrite Hlen. subst h1. by rewrite length_insert. }
    intros q. rewrite Hl. subst h1.
    destruct (decide (q = p)) as [->|Hne].
    + rewrite list_lookup_insert_eq by done. rewrite El. simpl.
      rewrite decide_False by done. rewrite decide_True by left. done.
    + rewrite list_lookup_insert_ne by done.
      destruct (h !! q); simpl; [|done]. f_equal.
      destruct (decide (q ∈ ps)).
      * by rewrite decide_True by by right.
      * rewrite decide_False; [done|]. by intros [->|?]%elem_of_cons.
Qed.

(** [for c in cs: c.parents.remove(x)] *)
Lemma parents_remove_all (x : handle) (cs : list handle) (h : heap) :
  NoDup cs ->
  (forall c, c ∈ cs -> c < length h /\ x ∈ pars h c) ->
  exists h',
    for_each (fun h c => parents_remove h c x) cs h = Ok h' /\
    length h' = length h /\
    forall q, h' !! q =
      (fun j => if decide (q ∈ cs)
                then set_parents j (remove1 x (parents j)) else j) <$> h !! q.
Proof.
  revert h. induction cs as [|c cs IH]; intros h Hnd Hcs.
  - exists h. split_and!; [done..|]. intros q.
    by destruct (h !! q).
  - apply NoDup_cons in Hnd as [Hc Hnd].
    destruct (Hcs c) as [Hlt Hx]; [left|].
    destruct (deref_lt h c Hlt) as (cj & Ed & El).
    simpl. unfold parents_remove at 1. rewrite Ed. simpl.
    unfold pars in Hx. rewrite (fld_lookup _ _ _ _ _ El) in Hx.
    rewrite (py_remove_remove1 _ _ Hx). simpl.
    set (h1 := <[c:=set_parents cj (remove1 x (parents cj))]> h).
    destruct (IH h1) as (h' & E & Hlen & Hl); [done| |].
    { intros q Hq. destruct (Hcs q) as [Hq1 Hq2]; [by right|].
      subst h1. rewrite length_insert. split; [done|].
      unfold pars. rewrite fld_insert by done.
      rewrite decide_False; [done|]. by intros ->. }
    exists h'. split_and!; [done| |].
    { rewrite Hlen. subst h1. by rewrite length_insert. }
    intros q. rewrite Hl. subst h1.
    destruct (decide (q = c)) as [->|Hne].
    + rewrite list_lookup_insert_eq by done. rewrite El. simpl.
      rewrite decide_False by done. rewrite decide_True by left. done.
    + rewrite list_lookup_insert_ne by done.
      destruct (h !! q); simpl; [|done]. f_equal.
      destruct (decide (q ∈ cs)).
      * by rewrite decide_True by by right.
      * rewrite decide_False; [done|]. by intros [->|?]%elem_of_cons.
Qed.

Lemma dict_fst_inj (d : dict) k v1 v2 :
  NoDup (dict_keys d) -> (k, v1) ∈ d -> (k, v2) ∈ d -> v1 = v2.
Proof.
  unfold dict_keys. induction d as [|[k' v'] d IH]; simpl; intros Hnd H1 H2.
  - by apply elem_of_nil in H1.
  - apply NoDup_cons in Hnd as [Hk Hnd].
    apply elem_of_cons in H1 as [H1|H1]; apply elem_of_cons in H2 as [H2|H2].
    + congruence.
    + inversion H1; subst. destruct Hk. apply list_elem_of_fmap. by exists (k', v2).
    + inversion H2; subst. destruct Hk. apply list_elem_of_fmap. by exists (k', v1).
    + eauto.
Qed.

Lemma dict_snd_inj (d : dict) k1 k2 v :
  NoDup (d.*2) -> (k1, v) ∈ d -> (k2, v) ∈ d -> k1 = k2.
Proof.
  induction d as [|[k' v'] d IH]; simpl; intros Hnd H1 H2.
  - by apply elem_of_nil in H1.
  - apply NoDup_cons in Hnd as [Hk Hnd].
    apply elem_of_cons in H1 as [H1|H1]; apply elem_of_cons in H2 as [H2|H2].
    + congruence.
    + inversion H1; subst. destruct Hk. apply list_elem_of_fmap. by exists (k2, v').
    + inversion H2; subst. destruct Hk. apply list_elem_of_fmap. by exists (k1, v').
    + eauto.
Qed.

Lemma nodes_elem (g : graph) (n : handle) :
  n ∈ nodes g <-> exists k, (k, n) ∈ dag g.
Proof.
  unfold nodes. rewrite list_elem_of_fmap. split.
  - intros ([k v] & -> & Hin). by exists k.
  - intros (k & Hin). by exists (k, n).
Qed.

Lemma NoDup_fmap_filter {A B : Type} (f : A -> B) (P : A -> Prop)
    `{!forall x, Decision (P x)} (l : list A) :
  NoDup (f <$> l) -> NoDup (f <$> filter P l).
Proof.
  intros Hnd. eapply sublist_NoDup; [exact Hnd|].
  apply fmap_sublist. by apply sublist_filter.
Qed.

(** One iteration of the loop of [remove_xforms] on a well-formed
    graph: it does not raise, the graph stays well formed, the job is
    dropped from the mapping exactly when its name is listed, and the
    lists of the jobs that stay lose the dropped job and nothing
    else. *)
Lemma remove_xforms_body_full (xs : list string) (g : graph) (k : string) :
  wf_graph g -> k ∈ dict_keys (dag g) ->
  exists g',
    remove_xforms_body xs g k = Ok g' /\
    wf_graph g' /\
    length (objs g') = length (objs g) /\
    (forall q, nm (objs g') q = nm (objs g) q) /\
    (forall q, lvl (objs g') q = lvl (objs g) q) /\
    (forall q, q ∈ nodes g' -> chs (objs g') q ⊆ chs (objs g) q) /\
    dag g' = filter (fun kv => ~ (kv.1 = k /\ nm (objs g) kv.2 ∈ xs)) (dag g) /\
    (forall q, ident (objs g') q = ident (objs g) q) /\
    (forall q, q ∈ nodes g' ->
       chs (objs g') q = filter (fun c => c ∈ nodes g') (chs (objs g) q)) /\
    (forall q, q ∈ nodes g' ->
       pars (objs g') q = filter (fun p => p ∈ nodes g') (pars (objs g) q)).
Proof.
  intros Hwf Hk. destruct g as [h d]. simpl in *.
  destruct (dict_get_elem d k Hk) as (jh & Eg & Hin).
  assert (Hjh : jh ∈ nodes (mkGraph h d)) by (apply nodes_elem; eauto).
  pose proof (wf_alloc _ Hwf jh Hjh) as Hlt. simpl in Hlt.
  destruct (deref_lt h jh Hlt) as (job & Ed & El).
  unfold remove_xforms_body. simpl. rewrite Eg. simpl. rewrite Ed. simpl.
  assert (Enm : nm h jh = job_name job) by (by apply fld_lookup).
  destruct (decide (job_name job ∈ xs)) as [Hx|Hx].
  2:{ rewrite bool_decide_eq_false_2 by done.
      exists (mkGraph h d). split_and!; try done; simpl.
      - symmetry. apply filter_all, Forall_forall. intros [k' v'] Hin'. simpl.
        intros [-> Hn]. apply Hx. rewrite <- Enm.
        by rewrite (dict_fst_inj d k jh v' (wf_keys _ Hwf) Hin Hin').
      - intros q Hq. symmetry. apply filter_all, Forall_forall.
        intros c Hc. by eapply (wf_closed_c _ Hwf).
      - intros q Hq. symmetry. apply filter_all, Forall_forall.
        intros c Hc. by eapply (wf_closed_p _ Hwf). }
  rewrite bool_decide_eq_true_2 by done.
  assert (Epars : pars h jh = parents job) by (by apply fld_lookup).
  assert (Echs : chs h jh = children job) by (by apply fld_lookup).
  (* first loop *)
  destruct (children_remove_all jh (parents job) h) as (h1 & E1 & Hlen1 & Hl1).
  { rewrite <- Epars. by apply (wf_nodup_p _ Hwf). }
  { intros p Hp. rewrite <- Epars in Hp.
    assert (Hpn : p ∈ nodes (mkGraph h d)) by (by eapply (wf_closed_p _ Hwf)).
    split; [by apply (wf_alloc _ Hwf)|].
    by apply (wf_consistent _ Hwf p jh). }
  rewrite E1. simpl.
  assert (El1 := Hl1 jh). rewrite El in El1. simpl in El1.
  unfold deref. rewrite El1. simpl.
  set (cs1 := children (if decide (jh ∈ parents job)
                        then set_children job (remove1 jh (children job))
                        else job)).
  assert (Hcs1 : forall c, c ∈ cs1 <-> c ∈ children job /\ c <> jh).
  { intros c. subst cs1. destruct (decide (jh ∈ parents job)) as [Hs|Hs]; simpl.
    - apply remove1_elem. rewrite <- Echs. by apply (wf_nodup_c _ Hwf).
    - split; [|tauto]. intros Hc. split; [done|]. intros ->.
      apply Hs. rewrite <- Epars. apply (wf_consistent _ Hwf jh jh); [done..|].
      simpl. by rewrite Echs. }
  assert (Hpars1 : forall q, pars h1 q = pars h q).
  { intros q. unfold pars, fld. rewrite Hl1. destruct (h !! q); [|done].
    simpl. by destruct (decide (q ∈ parents job)). }
  (* second loop *)
  destruct (parents_remove_all jh cs1 h1) as (h2 & E2 & Hlen2 & Hl2).
  { subst cs1. destruct (decide (jh ∈ parents job)); simpl.
    - apply remove1_NoDup. rewrite <- Echs. by apply (wf_nodup_c _ Hwf).
    - rewrite <- Echs. by apply (wf_nodup_c _ Hwf). }
  { intros c [Hc Hne]%Hcs1. rewrite <- Echs in Hc.
    assert (Hcn : c ∈ nodes (mkGraph h d)) by (by eapply (wf_closed_c _ Hwf)).
    split; [rewrite Hlen1; by apply (wf_alloc _ Hwf)|].
    rewrite Hpars1. by apply (wf_consistent _ Hwf jh c). }
  rewrite E2. simpl.
  rewrite (dict_del_filter d k (wf_keys _ Hwf) Hk). simpl.
  eexists. split; [reflexivity|]. simpl.
  (* the fields of the resulting heap *)
  assert (Hnm2 : forall q, nm h2 q = nm h q).
  { intros q. unfold nm, fld. rewrite Hl2, Hl1. destruct (h !! q); [|done].
    simpl. by destruct (decide (q ∈ cs1)), (decide (q ∈ parents job)). }
  assert (Hlvl2 : forall q, lvl h2 q = lvl h q).
  { intros q. unfold lvl, fld. rewrite Hl2, Hl1. destruct (h !! q); [|done].
    simpl. by destruct (decide (q ∈ cs1)), (decide (q ∈ parents job)). }
  assert (Hchs2 : forall q, q ∈ nodes (mkGraph h d) -> 
             forall c, c ∈ chs h2 q <-> c ∈ chs h q /\ (c <> jh \/ q ∉ pars h jh)).
  { intros q Hq c. unfold chs, fld. rewrite Hl2, Hl1.
    pose proof (wf_nodup_c _ Hwf q Hq) as Hnd. unfold chs, fld in Hnd. simpl in Hnd.
    rewrite Epars.
    destruct (h !! q) as [j|]; simpl; [|split; [by intros ?%elem_of_nil|tauto]].
    destruct (decide (q ∈ cs1)), (decide (q ∈ parents job)); simpl;
      rewrite ?remove1_elem by done; tauto. }
  assert (Hpars2 : forall q, q ∈ nodes (mkGraph h d) -> 
             forall p, p ∈ pars h2 q <-> p ∈ pars h q /\ (p <> jh \/ q ∉ cs1)).
  { intros q Hq c. unfold pars, fld. rewrite Hl2, Hl1.
    pose proof (wf_nodup_p _ Hwf q Hq) as Hnd. unfold pars, fld in Hnd. simpl in Hnd.
    destruct (h !! q) as [j|]; simpl; [|split; [by intros ?%elem_of_nil|tauto]].
    destruct (decide (q ∈ cs1)), (decide (q ∈ parents job)); simpl;
      rewrite ?remove1_elem by done; tauto. }
  assert (Hnodes : forall n, n ∈ nodes (mkGraph h (filter (fun kv => kv.1 <> k) d))
                     <-> n ∈ nodes (mkGraph h d) /\ n <> jh).
  { intros n. rewrite !nodes_elem. simpl. split.
    - intros (k' & [Hk' Hin']%list_elem_of_filter). simpl in Hk'.
      split; [eauto|]. intros ->. apply Hk'.
      exact (dict_snd_inj d k' k jh (wf_handles _ Hwf) Hin' Hin).
    - intros [(k' & Hin') Hne]. exists k'. apply list_elem_of_filter.
      split; [|done]. simpl. intros ->. apply Hne.
      exact (dict_fst_inj d k n jh (wf_keys _ Hwf) Hin' Hin). }
  assert (Hnodes' : forall n, n ∈ nodes (mkGraph h2 (filter (fun kv => kv.1 <> k) d))
                     <-> n ∈ nodes (mkGraph h d) /\ n <> jh) by exact Hnodes.
  assert (Hself_c : forall q, q ∈ nodes (mkGraph h d) -> q <> jh ->
             forall c, c ∈ chs h2 q <-> c ∈ chs h q /\ c <> jh).
  { intros q Hq Hne c. rewrite Hchs2 by done. split; [|tauto].
    intros [Hc [?|Hn]]; [tauto|]. split; [done|]. intros ->. apply Hn.
    by apply (wf_consistent _ Hwf q jh). }
  assert (Hself_p : forall q, q ∈ nodes (mkGraph h d) -> q <> jh ->
             forall p, p ∈ pars h2 q <-> p ∈ pars h q /\ p <> jh).
  { intros q Hq Hne p. rewrite Hpars2 by done. split; [|tauto].
    intros [Hp [?|Hn]]; [tauto|]. split; [done|]. intros ->. apply Hn.
    apply Hcs1. split; [|done]. rewrite <- Echs.
    by apply (wf_consistent _ Hwf jh q). }
  split_and!.
  - constructor; simpl.
    + unfold dict_keys. apply NoDup_fmap_filter. exact (wf_keys _ Hwf).
    + unfold nodes. simpl. apply NoDup_fmap_filter. exact (wf_handles _ Hwf).
    + intros n [Hn _]%Hnodes'. rewrite Hlen2, Hlen1. by apply (wf_alloc _ Hwf).
    + intros n c [Hn Hne]%Hnodes' [Hc Hcne]%Hself_c; [|done..].
      apply Hnodes'. split; [|done]. by eapply (wf_closed_c _ Hwf).
    + intros n p' [Hn Hne]%Hnodes' [Hp Hpne]%Hself_p; [|done..].
      apply Hnodes'. split; [|done]. by eapply (wf_closed_p _ Hwf).
    + intros p' c [Hp Hpne]%Hnodes' [Hc Hcne]%Hnodes'. simpl.
      rewrite Hself_c, Hself_p by done.
      pose proof (wf_consistent _ Hwf p' c Hp Hc) as Hcons. simpl in Hcons. tauto.
    + intros n [Hn Hne]%Hnodes'.
      pose proof (wf_nodup_c _ Hwf n Hn) as Hnd. revert Hnd.
      unfold chs, fld. simpl. rewrite Hl2, Hl1.
      destruct (h !! n) as [j|]; simpl; [|done].
      destruct (decide (n ∈ cs1)), (decide (n ∈ parents job)); simpl;
        auto using remove1_NoDup.
    + intros n [Hn Hne]%Hnodes'.
      pose proof (wf_nodup_p _ Hwf n Hn) as Hnd. revert Hnd.
      unfold pars, fld. simpl. rewrite Hl2, Hl1.
      destruct (h !! n) as [j|]; simpl; [|done].
      destruct (decide (n ∈ cs1)), (decide (n ∈ parents job)); simpl;
        auto using remove1_NoDup.
  - by rewrite Hlen2, Hlen1.
  - done.
  - done.
  - intros q [Hq Hne]%Hnodes' c [Hc _]%Hself_c; done.
  - apply filter_iff_elem. intros [k' v'] Hin'. simpl. split.
    + intros Hne [-> _]. done.
    + intros Hn ->. apply Hn. split; [done|].
      rewrite (dict_fst_inj d k v' jh (wf_keys _ Hwf)) by done.
      by rewrite Enm.
  - intros q. unfold ident, fld. rewrite Hl2, Hl1. destruct (h !! q); [|done].
    simpl. by destruct (decide (q ∈ cs1)), (decide (q ∈ parents job)).
  - intros q [Hq Hne]%Hnodes'.
    pose proof (wf_nodup_c _ Hwf q Hq) as Hnd. simpl in Hnd.
    trans (filter (fun c => c <> jh) (chs h q)).
    + assert (Hnot : q ∉ parents job -> jh ∉ chs h q).
      { intros Hn Hc. apply Hn. rewrite <- Epars.
        by apply (wf_consistent _ Hwf q jh). }
      revert Hnd Hnot. unfold chs, fld. rewrite Hl2, Hl1.
      destruct (h !! q) as [j|]; simpl; [|done]. intros Hnd Hnot.
      destruct (decide (q ∈ cs1)), (decide (q ∈ parents job)); simpl;
        first [by apply remove1_filter|idtac];
        symmetry; apply filter_all, Forall_forall; intros c Hc ->; by apply Hnot.
    + apply filter_iff_elem. intros c Hc. rewrite Hnodes'. split; [|tauto].
      intros Hcne. split; [|done]. by eapply (wf_closed_c _ Hwf).
  - intros q [Hq Hne]%Hnodes'.
    pose proof (wf_nodup_p _ Hwf q Hq) as Hnd. simpl in Hnd.
    trans (filter (fun p => p <> jh) (pars h q)).
    + assert (Hnot : q ∉ cs1 -> jh ∉ pars h q).
      { intros Hn Hp. apply Hn. apply Hcs1. split; [|done]. rewrite <- Echs.
        by apply (wf_consistent _ Hwf jh q). }
      revert Hnd Hnot. unfold pars, fld. rewrite Hl2, Hl1.
      destruct (h !! q) as [j|]; simpl; [|done]. intros Hnd Hnot.
      destruct (decide (q ∈ cs1)), (decide (q ∈ parents job)); simpl;
        first [by apply remove1_filter|idtac];
        symmetry; apply filter_all, Forall_forall; intros c Hc ->; by apply Hnot.
    + apply filter_iff_elem. intros c Hc. rewrite Hnodes'. split; [|tauto].
      intros Hcne. split; [|done]. by eapply (wf_closed_p _ Hwf).
Qed.

Lemma remove_xforms_body_spec (xs : list string) (g : graph) (k : string) :
  wf_graph g -> k ∈ dict_keys (dag g) ->
  exists g',
    remove_xforms_body xs g k = Ok g' /\
    wf_graph g' /\
    length (objs g') = length (objs g) /\
    (forall q, nm (objs g') q = nm (objs g) q) /\
    (forall q, lvl (objs g') q = lvl (objs g) q) /\
    (forall q, q ∈ nodes g' -> chs (objs g') q ⊆ chs (objs g) q) /\
    dag g' = filter (fun kv => ~ (kv.1 = k /\ nm (objs g) kv.2 ∈ xs)) (dag g).
Proof.
  intros Hwf Hk.
  destruct (remove_xforms_body_full xs g k Hwf Hk)
    as (g' & ? & ? & ? & ? & ? & ? & ? & _).
  exists g'. by split_and!.
Qed.

Lemma remove_xforms_loop_spec (xs : list string) (ks : list string) :
  forall g, wf_graph g -> NoDup ks ->
  (forall k, k ∈ ks -> k ∈ dict_keys (dag g)) ->
  exists g',
    for_each (remove_xforms_body xs) ks g = Ok g' /\
    wf_graph g' /\
    length (objs g') = length (objs g) /\
    (forall q, nm (objs g') q = nm (objs g) q) /\
    (forall q, lvl (objs g') q = lvl (objs g) q) /\
    (forall q, q ∈ nodes g' -> chs (objs g') q ⊆ chs (objs g) q) /\
    dag g' = filter (fun kv => ~ (kv.1 ∈ ks /\ nm (objs g) kv.2 ∈ xs)) (dag g).
Proof.
  induction ks as [|k ks IH]; intros g Hwf Hnd Hks.
  - exists g. split_and!; try done. symmetry. apply filter_all, Forall_forall.
    intros kv _ [H%elem_of_nil _]. done.
  - apply NoDup_cons in Hnd as [Hk Hnd].
    destruct (remove_xforms_body_spec xs g k Hwf) as
      (g1 & E1 & Hwf1 & Hlen1 & Hnm1 & Hlvl1 & Hsub1 & Hdag1); [apply Hks; left|].
    destruct (IH g1 Hwf1 Hnd) as (g' & E & Hwf' & Hlen & Hnm & Hlvl & Hsub & Hdag).
    { intros k' Hk'. assert (Hin : k' ∈ dict_keys (dag g)) by (apply Hks; by right).
      unfold dict_keys in *. apply list_elem_of_fmap in Hin as ([k2 v] & -> & Hin).
      apply list_elem_of_fmap. exists (k2, v). split; [done|]. rewrite Hdag1.
      apply list_elem_of_filter. split; [|done]. simpl. intros [-> _]. done. }
    exists g'. simpl. rewrite E1. simpl. split_and!; try done.
    + by rewrite Hlen.
    + intros q. by rewrite Hnm.
    + intros q. by rewrite Hlvl.
    + intros q Hq. etrans; [by apply Hsub|]. apply Hsub1.
      revert Hq. unfold nodes. rewrite Hdag. intros ([k2 v] & -> & Hin)%list_elem_of_fmap.
      apply list_elem_of_filter in Hin as [_ Hin].
      apply list_elem_of_fmap. by exists (k2, v).
    + rewrite Hdag, Hdag1, list_filter_filter. apply list_filter_iff.
      intros [k2 v]. simpl. rewrite Hnm1, elem_of_cons. 
      split; [intros [H1 H2] [[->|H3] H4]; tauto|tauto].
Qed.

(** [remove_xforms] on a well-formed graph: it returns, the graph is
    still well formed, and the mapping keeps the jobs whose name is
    not listed. *)
Lemma remove_xforms_spec (g : graph) (xs : list string) :
  wf_graph g ->
  exists g',
    remove_xforms g xs = Ok g' /\
    wf_graph g' /\
    length (objs g') = length (objs g) /\
    (forall q, nm (objs g') q = nm (objs g) q) /\
    (forall q, lvl (objs g') q = lvl (objs g) q) /\
    (forall q, q ∈ nodes g' -> chs (objs g') q ⊆ chs (objs g) q) /\
    dag g' = filter (fun kv => nm (objs g) kv.2 ∉ xs) (dag g).
Proof.
  intros Hwf. unfold remove_xforms. destruct (decide (length xs = 0)) as [E|E].
  - exists g. split_and!; try done. symmetry. apply filter_all, Forall_forall.
    intros kv _. destruct xs; [apply not_elem_of_nil|discriminate].
  - destruct (remove_xforms_loop_spec xs (dict_keys (dag g)) g Hwf (wf_keys _ Hwf))
      as (g' & E' & Hwf' & Hlen & Hnm & Hlvl & Hsub & Hdag); [done|].
    exists g'. split_and!; try done. rewrite Hdag.
    apply filter_iff_elem. intros [k v] Hin. simpl.
    assert (k ∈ dict_keys (dag g)) by (apply list_elem_of_fmap; by exists (k, v)).
    tauto.
Qed.

End Filter.

(** ** Heaps that differ in one kind of field only *)

Definition erase_level (j : Job) : Job := set_level j 0%Z.

(** [h'] is [h] but for the [level] fields. *)
Definition lvl_only (h h' : heap) : Prop :=
  erase_level <$> h' = erase_level <$> h.

Lemma lvl_only_refl (h : heap) : lvl_only h h.
Proof. done. Qed.

Lemma lvl_only_trans (h1 h2 h3 : heap) :
  lvl_only h1 h2 -> lvl_only h2 h3 -> lvl_only h1 h3.
Proof. unfold lvl_only. congruence. Qed.

Lemma lvl_only_length (h h' : heap) : lvl_only h h' -> length h' = length h.
Proof.
  intros H. by rewrite <- (length_fmap erase_level h'), H, length_fmap.
Qed.

Lemma lvl_only_fld {A : Type} (f : Job -> A) (d : A) (h h' : heap) q :
  (forall j, f (erase_level j) = f j) ->
  lvl_only h h' -> fld f d h' q = fld f d h q.
Proof.
  intros Hf H. assert (E := f_equal (fun l => l !! q) H). simpl in E.
  rewrite !list_lookup_fmap in E. unfold fld.
  destruct (h' !! q) as [j'|], (h !! q) as [j|]; simpl in *; try done.
  assert (E' : erase_level j' = erase_level j) by congruence.
  by rewrite <- (Hf j'), E', Hf.
Qed.

Lemma lvl_only_chs h h' q : lvl_only h h' -> chs h' q = chs h q.
Proof. by apply lvl_only_fld. Qed.
Lemma lvl_only_pars h h' q : lvl_only h h' -> pars h' q = pars h q.
Proof. by apply lvl_only_fld. Qed.
Lemma lvl_only_nm h h' q : lvl_only h h' -> nm h' q = nm h q.
Proof. by apply lvl_only_fld. Qed.
Lemma lvl_only_ident h h' q : lvl_only h h' -> ident h' q = ident h q.
Proof. by apply lvl_only_fld. Qed.

Lemma lvl_only_insert (h : heap) c cj v :
  h !! c = Some cj -> lvl_only h (<[c := set_level cj v]> h).
Proof.
  intros E. unfold lvl_only. rewrite list_fmap_insert.
  apply list_insert_id. rewrite list_lookup_fmap, E. done.
Qed.

Lemma nsteps_edge_ext (h h' : heap) k a b :
  (forall q, chs h' q = chs h q) ->
  nsteps (edge h) k a b -> nsteps (edge h') k a b.
Proof.
  intros E. induction 1 as [|k x y z Hxy _ IH]; [constructor|].
  econstructor; [|exact IH]. unfold edge in *. by rewrite E.
Qed.

(** ** The labelling loop *)

Section LevelPass.

(** The heap at loop entry and the handles the loop can meet. *)
Variable h0 : heap.
Variable live : handle -> Prop.
Hypothesis live_alloc : forall n, live n -> n < length h0.
Hypothesis live_closed : forall n c, live n -> c ∈ chs h0 n -> live c.

Abbreviation E0 := (edge h0).

(** The inner loop over the children of [n], none of which is [n]. *)
Lemma relax_all (n : handle) (cs : list handle) :
  forall fifo h, lvl_only h0 h -> live n -> (forall c, c ∈ cs -> live c) ->
  n ∉ cs ->
  exists h',
    for_each (relax n) cs (fifo, h) = Ok (fifo ++ cs, h') /\
    lvl_only h h' /\
    forall q, lvl h' q =
      if decide (q ∈ cs) then Z.max (lvl h q) (lvl h n + 1) else lvl h q.
Proof.
  induction cs as [|c cs IH]; intros fifo h Hh Hn Hcs Hncs.
  - exists h. rewrite app_nil_r. by split_and!.
  - apply not_elem_of_cons in Hncs as [Hnc Hncs].
    assert (Hlen := lvl_only_length _ _ Hh).
    destruct (deref_lt h c) as (cj & Ec & Elc);
      [rewrite Hlen; apply live_alloc, Hcs; left|].
    destruct (deref_lt h n) as (nj & En & Eln);
      [rewrite Hlen; by apply live_alloc|].
    simpl. rewrite Ec. simpl. rewrite En. simpl.
    set (h1 := <[c:=set_level cj (level cj `max` (level nj + 1))%Z]> h).
    assert (H1 : lvl_only h h1) by (by apply lvl_only_insert).
    assert (Hc : c < length h) by (by eapply lookup_lt_Some).
    assert (Hl1 : forall q, lvl h1 q =
              if decide (q = c) then Z.max (lvl h c) (lvl h n + 1) else lvl h q).
    { intros q. unfold lvl at 1. subst h1. rewrite fld_insert by done.
      destruct (decide (q = c)); [|done]. simpl. unfold lvl.
      by rewrite (fld_lookup _ _ _ _ _ Elc), (fld_lookup _ _ _ _ _ Eln). }
    destruct (IH (fifo ++ [c]) h1) as (h' & E & H' & Hl');
      [by eapply lvl_only_trans|done|by intros; apply Hcs; right|done|].
    exists h'. rewrite E. split_and!.
    + by rewrite <- app_assoc.
    + by eapply lvl_only_trans.
    + intros q. rewrite Hl', !Hl1. rewrite (decide_False (P := n = c)) by done.
      destruct (decide (q = c)) as [->|Hqc].
      * rewrite (decide_True (P := c ∈ c :: cs)) by left.
        destruct (decide (c ∈ cs)); lia.
      * destruct (decide (q ∈ cs)).
        -- by rewrite (decide_True (P := q ∈ c :: cs)) by by right.
        -- rewrite (decide_False (P := q ∈ c :: cs)); [done|].
           by intros [?|?]%elem_of_cons.
Qed.

(** What a completed visit of [n] has done to the levels: they only
    grow, every node [j] edges below [n] is at least [j] above the
    level [n] had, and every changed level is that of some node
    reachable from [n] plus the length of a path from it. *)
Definition grown (h h' : heap) : Prop :=
  lvl_only h h' /\ forall q, (lvl h q <= lvl h' q)%Z.

Definition lifted (n : handle) (h h' : heap) : Prop :=
  forall m j, nsteps E0 j n m -> (lvl h n + Z.of_nat j <= lvl h' m)%Z.

Definition justified (P : handle -> Prop) (h h' : heap) : Prop :=
  forall q, lvl h' q = lvl h q \/
    exists n m i j, P n /\ nsteps E0 i n m /\ nsteps E0 (S j) m q /\
      lvl h' q = (lvl h m + Z.of_nat (S j))%Z.

Definition visited (n : handle) : Prop :=
  forall s h, lvl_only h0 h ->
  exists k h',
    (forall fuel, level_loop (k + fuel) (s ++ [n]) h = level_loop fuel s h') /\
    grown h h' /\ lifted n h h' /\ justified (eq n) h h'.

Lemma justified_trans (P : handle -> Prop) (h1 h2 h3 : heap) :
  justified P h1 h2 -> justified P h2 h3 -> justified P h1 h3.
Proof.
  intros H12 H23 q. destruct (H23 q) as [E|(n & m & i & j & Hn & Hi & Hj & E)].
  - rewrite E. apply H12.
  - destruct (H12 m) as [E'|(n' & m' & i' & j' & Hn' & Hi' & Hj' & E')].
    + right. exists n, m, i, j. split_and!; try done. by rewrite <- E'.
    + right. exists n', m', i', (j' + S j). split_and!; try done.
      * change (S (j' + S j)) with (S j' + S j). by eapply nsteps_trans.
      * rewrite E, E'. lia.
Qed.

Lemma justified_mono (P Q : handle -> Prop) (h h' : heap) :
  (forall n, P n -> Q n) -> justified P h h' -> justified Q h h'.
Proof.
  intros HPQ H q. destruct (H q) as [E|(n & m & i & j & Hn & Hr)]; [by left|].
  right. exists n, m, i, j. split; [by apply HPQ|done].
Qed.

(** Visiting a whole list of pending nodes, last one first. *)
Lemma visited_list (l : list handle) :
  (forall c, c ∈ l -> visited c) ->
  forall s h, lvl_only h0 h ->
  exists k h',
    (forall fuel, level_loop (k + fuel) (s ++ l) h = level_loop fuel s h') /\
    grown h h' /\ (forall c, c ∈ l -> lifted c h h') /\
    justified (fun c => c ∈ l) h h'.
Proof.
  induction l as [|c l IH] using rev_ind; intros Hl s h Hh.
  - exists 0, h. rewrite app_nil_r.
    split; [done|]. split; [by split|].
    split; [intros c Hc; by apply elem_of_nil in Hc|]. intros q. by left.
  - assert (Hc : visited c) by (apply Hl, elem_of_app; right; left).
    destruct (Hc (s ++ l) h Hh) as (k1 & h1 & E1 & [Ho1 Hg1] & Hlift1 & Hj1).
    destruct (IH (fun c' Hc' => Hl c' (proj2 (elem_of_app _ _ _) (or_introl Hc')))
                 s h1) as (k2 & h2 & E2 & [Ho2 Hg2] & Hlift2 & Hj2).
    { by eapply lvl_only_trans. }
    exists (k1 + k2), h2. split; [|split; [|split]].
    + intros fuel. rewrite app_assoc, <- Nat.add_assoc, E1. apply E2.
    + split; [by eapply lvl_only_trans|]. intros q.
      specialize (Hg1 q). specialize (Hg2 q). lia.
    + intros c' [Hc'|Hc']%elem_of_app m j Hm.
      * specialize (Hlift2 c' Hc' m j Hm). specialize (Hg1 c'). lia.
      * apply list_elem_of_singleton in Hc' as ->.
        specialize (Hlift1 m j Hm). specialize (Hg2 m). lia.
    + eapply justified_trans.
      * eapply justified_mono; [|exact Hj1]. intros n <-.
        apply elem_of_app. right. left.
      * eapply justified_mono; [|exact Hj2]. intros n Hn.
        apply elem_of_app. by left.
Qed.

Lemma Acc_no_loop {A : Type} (R : relation A) (x : A) : Acc R x -> ~ R x x.
Proof. induction 1 as [x _ IH]. intros Hx. exact (IH x Hx Hx). Qed.

Lemma live_nsteps (n m : handle) (j : nat) :
  live n -> nsteps E0 j n m -> live m.
Proof. intros Hn. induction 1; eauto. Qed.

(** On a graph without cycles every visit completes. *)
Lemma visit_all (n : handle) : Acc (flip E0) n -> live n -> visited n.
Proof.
  induction 1 as [n Hacc IH]. intros Hn s h Hh.
  assert (Hlen := lvl_only_length _ _ Hh).
  destruct (deref_lt h n) as (nj & En & Eln); [rewrite Hlen; by apply live_alloc|].
  assert (Ecs : children nj = chs h0 n).
  { rewrite <- (lvl_only_chs _ _ n Hh). symmetry. by apply fld_lookup. }
  assert (Hself : n ∉ chs h0 n).
  { intros Hin. exact (Acc_no_loop _ _ (Acc_intro n Hacc) Hin). }
  destruct (relax_all n (chs h0 n) s h Hh Hn) as (h1 & E1 & Ho1 & Hl1);
    [by intros; eapply live_closed|done|].
  destruct (visited_list (chs h0 n)) with (s := s) (h := h1)
    as (k & h' & E & [Ho Hg] & Hlift & Hjust).
  { intros c Hc. apply IH; [exact Hc|by eapply live_closed]. }
  { by eapply lvl_only_trans. }
  assert (Hg1 : forall q, (lvl h q <= lvl h1 q)%Z).
  { intros q. rewrite Hl1. destruct (decide (q ∈ chs h0 n)); lia. }
  exists (S k), h'. split; [|split; [|split]].
  - intros fuel. simpl. rewrite pop_snoc, En. simpl. rewrite Ecs, E1. simpl.
    apply E.
  - split; [by eapply lvl_only_trans|]. intros q.
    specialize (Hg q). specialize (Hg1 q). lia.
  - intros m j Hm. inversion Hm as [|j' x c y Hxc Hcm]; subst.
    + specialize (Hg m). specialize (Hg1 m). lia.
    + specialize (Hlift c Hxc m j' Hcm). specialize (Hl1 c).
      rewrite decide_True in Hl1 by exact Hxc. lia.
  - intros q. destruct (Hjust q) as [E'|(c & m & i & j & Hc & Hi & Hj & E')].
    + rewrite E', Hl1. destruct (decide (q ∈ chs h0 n)) as [Hq|Hq]; [|by left].
      destruct (Z.max_spec (lvl h q) (lvl h n + 1)) as [[_ ->]|[_ ->]]; [|by left].
      right. exists n, n, 0, 0. split_and!; [done|constructor| |lia].
      by apply nsteps_once.
    + rewrite E', Hl1. destruct (decide (m ∈ chs h0 n)) as [Hmc|Hmc].
      * destruct (Z.max_spec (lvl h m) (lvl h n + 1)) as [[_ ->]|[_ ->]].
        -- right. exists n, n, 0, (S j). split_and!; [done|constructor| |lia].
           econstructor; [exact Hmc|exact Hj].
        -- right. exists n, m, (S i), j. split_and!; [done| |done..].
           econstructor; [exact Hc|exact Hi].
      * right. exists n, m, (S i), j. split_and!; [done| |done..].
        econstructor; [exact Hc|exact Hi].
Qed.

(** The whole loop, entered with [fifo = [root]], the root at level 0
    and no level above the length of some path from the root: it
    ends, changes levels only, and the level of a node reachable from
    [root] is the length of a longest path from [root] to it. *)
Lemma level_loop_spec (root : handle) :
  live root -> Acc (flip E0) root ->
  lvl h0 root = 0%Z ->
  (forall m, live m ->
     exists L, nsteps E0 L root m /\ (lvl h0 m <= Z.of_nat L)%Z) ->
  exists k h',
    (forall fuel, k <= fuel -> level_loop fuel [root] h0 = Ok h') /\
    lvl_only h0 h' /\
    (forall q j, nsteps E0 j root q -> (Z.of_nat j <= lvl h' q)%Z) /\
    (forall q j, nsteps E0 j root q ->
       exists L, nsteps E0 L root q /\ lvl h' q = Z.of_nat L).
Proof.
  intros Hroot Hacc Hzero Hmodest.
  destruct (visit_all root Hacc Hroot [] h0 (lvl_only_refl h0))
    as (k & h' & E & [Ho Hg] & Hlift & Hjust).
  assert (Hlow : forall q j, nsteps E0 j root q -> (Z.of_nat j <= lvl h' q)%Z).
  { intros q j Hj. specialize (Hlift q j Hj). rewrite Hzero in Hlift. lia. }
  exists (S k), h'. split_and!; try done.
  - intros fuel Hf. replace fuel with (k + S (fuel - S k)) by lia.
    change [root] with ([] ++ [root]). rewrite (E (S (fuel - S k))). done.
  - intros q j Hj. assert (Hq : live q) by (exact (live_nsteps _ _ _ Hroot Hj)).
    destruct (Hjust q) as [E'|(n & m & i & j' & <- & Hi & Hj' & E')].
    + destruct (Hmodest q Hq) as (L & HL & Hle).
      specialize (Hlow q L HL). exists L. split; [done|lia].
    + assert (Hm : live m) by (exact (live_nsteps _ _ _ Hroot Hi)).
      destruct (Hmodest m Hm) as (L & HL & Hle).
      assert (Hp : nsteps E0 (L + S j') root q) by (by eapply nsteps_trans).
      specialize (Hlow q _ Hp).
      exists (L + S j'). split; [exact Hp|lia].
Qed.

End LevelPass.

(** ** Acyclic graphs and their roots *)

(** No job reaches itself along child-direction edges. *)
Definition acyclic (g : graph) : Prop :=
  forall n, n ∈ nodes g -> ~ tc (edge (objs g)) n n.

(** The levels are those [Job()] gives. *)
Definition fresh_levels (g : graph) : Prop :=
  forall n, n ∈ nodes g -> lvl (objs g) n = 0%Z.

(** A zero in-degree job of the mapping. *)
Definition is_root (g : graph) (r : handle) : Prop :=
  r ∈ nodes g /\ pars (objs g) r = [].

(** No level is more than one above the length of some path to the
    job from a zero in-degree job: so are fresh levels, and so are the
    levels [simplify] leaves. *)
Definition modest_levels (g : graph) : Prop :=
  forall q, q ∈ nodes g ->
    exists r j, is_root g r /\ nsteps (edge (objs g)) j r q /\
      (lvl (objs g) q <= Z.of_nat j + 1)%Z.

Definition real_roots (g : graph) : list handle :=
  filter (fun n => pars (objs g) n = []) (nodes g).

Definition root_job (roots : list handle) : Job :=
  set_children (set_level (new_Job "root" "root") 0%Z) roots.

(** The heap of [simplify] once the surrogate root is linked. *)
Definition with_root (g : graph) : heap :=
  objs g ++ [root_job (real_roots g)].

Section Roots.

Variable g : graph.
Hypothesis Hwf : wf_graph g.

Lemma dict_get_wf (k : string) (v : handle) :
  (k, v) ∈ dag g -> dict_get (dag g) k = Ok v.
Proof.
  intros Hin. destruct (dict_get_elem (dag g) k) as (v' & E & Hin').
  { apply list_elem_of_fmap. by exists (k, v). }
  by rewrite (dict_fst_inj (dag g) k v v' (wf_keys _ Hwf) Hin Hin').
Qed.

Lemma find_roots_spec : find_roots g = Ok (real_roots g).
Proof.
  unfold find_roots, real_roots, nodes, dict_keys.
  assert (H : forall (d : dict) (acc : list handle),
    (forall kv, kv ∈ d -> kv ∈ dag g) ->
    for_each (fun roots k =>
                jh <- dict_get (dag g) k ;;
                j <- deref (objs g) jh ;;
                if decide (length (parents j) = 0) then Ok (roots ++ [jh])
                else Ok roots) d.*1 acc
    = Ok (acc ++ filter (fun n => pars (objs g) n = []) d.*2)).
  { induction d as [|[k v] d IH]; intros acc Hsub; simpl.
    - by rewrite app_nil_r.
    - rewrite (dict_get_wf k v) by (apply Hsub; left). simpl.
      assert (Hv : v ∈ nodes g).
      { apply nodes_elem. exists k. apply Hsub. left. }
      destruct (deref_lt (objs g) v (wf_alloc _ Hwf v Hv)) as (j & -> & El). simpl.
      assert (Ep : pars (objs g) v = parents j) by (by apply fld_lookup).
      destruct (decide (length (parents j) = 0)) as [E|E]; simpl.
      + rewrite IH by (intros; apply Hsub; by right).
        rewrite filter_cons_True; [by rewrite <- app_assoc|].
        rewrite Ep. by apply nil_length_inv.
      + rewrite IH by (intros; apply Hsub; by right).
        rewrite filter_cons_False; [done|]. rewrite Ep. intros E'. by rewrite E' in E. }
  by rewrite H.
Qed.

Lemma surrogate_root_spec (h : heap) (roots : list handle) :
  surrogate_root h roots = Ok (h ++ [root_job roots], length h).
Proof.
  unfold surrogate_root, alloc.
  assert (H : forall acc,
    for_each (fun h' j => children_append h' (length h) j) roots
      (h ++ [root_job acc]) = Ok (h ++ [root_job (acc ++ roots)])).
  { induction roots as [|r roots IH]; intros acc; simpl.
    - by rewrite app_nil_r.
    - unfold children_append at 1, deref. rewrite list_lookup_middle by done.
      simpl. replace (length h) with (length h + 0) at 1 by lia.
      rewrite insert_app_r. simpl.
      change (set_children (root_job acc) (acc ++ [r])) with (root_job (acc ++ [r])).
      rewrite IH. by rewrite <- app_assoc. }
  change (set_level (new_Job "root" "root") 0%Z) with (root_job []).
  by rewrite H.
Qed.

Abbreviation root := (length (objs g)).
Abbreviation h0 := (with_root g).

(** The handles the loops of [simplify] can meet. *)
Definition live (n : handle) : Prop := n = root \/ n ∈ nodes g.

Lemma node_lt (n : handle) : n ∈ nodes g -> n < root.
Proof. apply (wf_alloc _ Hwf). Qed.

Lemma root_not_node : root ∉ nodes g.
Proof. intros H%node_lt. lia. Qed.

Lemma fld_with_root {A : Type} (f : Job -> A) (d : A) (n : handle) :
  n ∈ nodes g -> fld f d h0 n = fld f d (objs g) n.
Proof. intros Hn%node_lt. by apply fld_app_l. Qed.

Lemma fld_root {A : Type} (f : Job -> A) (d : A) :
  fld f d h0 root = f (root_job (real_roots g)).
Proof. apply fld_lookup. unfold with_root. by rewrite list_lookup_middle. Qed.

Lemma live_alloc0 (n : handle) : live n -> n < length h0.
Proof.
  unfold with_root. rewrite length_app. simpl.
  intros [->|Hn%node_lt]; lia.
Qed.

Lemma real_roots_elem (r : handle) : r ∈ real_roots g <-> is_root g r.
Proof. unfold real_roots, is_root. rewrite list_elem_of_filter. tauto. Qed.

Lemma live_closed0 (n c : handle) : live n -> c ∈ chs h0 n -> live c.
Proof.
  intros [->|Hn] Hc; right.
  - unfold chs in Hc. rewrite fld_root in Hc. simpl in Hc.
    by apply real_roots_elem in Hc as [? _].
  - unfold chs in Hc. rewrite fld_with_root in Hc by done.
    by eapply (wf_closed_c _ Hwf).
Qed.

(** No edge leads to the surrogate root. *)
Lemma no_edge_to_root (n : handle) : live n -> ~ edge h0 n root.
Proof.
  intros Hn Hc. destruct (live_closed0 n root Hn Hc) as [_|H]; [|by apply root_not_node].
  destruct Hn as [->|Hn]; unfold edge, chs in Hc.
  - rewrite fld_root in Hc. simpl in Hc.
    apply real_roots_elem in Hc as [? _]. by apply root_not_node.
  - rewrite fld_with_root in Hc by done.
    apply root_not_node. by eapply (wf_closed_c _ Hwf).
Qed.

End Roots.

(** ** Level assignment on a well-formed acyclic graph *)

(** [k] is the length of a longest path to [q] from a zero in-degree
    job. *)
Definition longest_path (g : graph) (q : handle) (k : nat) : Prop :=
  (exists r, is_root g r /\ nsteps (edge (objs g)) k r q) /\
  (forall r j, is_root g r -> nsteps (edge (objs g)) j r q -> j <= k).

Lemma tc_inv_r {A : Type} (R : relation A) (x y : A) :
  tc R x y -> exists z, rtc R x z /\ R z y.
Proof.
  induction 1 as [x y H|x y z H _ (w & Hw & Hz)].
  - exists x. split; [constructor|done].
  - exists w. split; [by econstructor|done].
Qed.

Section Levels.

Variable g : graph.
Hypothesis Hwf : wf_graph g.
Hypothesis Hacyc : acyclic g.

Abbreviation root := (length (objs g)).
Abbreviation h0 := (with_root g).
Abbreviation Live := (live g).

(** The edges out of the handles [simplify] can meet. *)
Definition live_edge (p c : handle) : Prop := Live p /\ edge h0 p c.

Lemma edge_with_root (p c : handle) :
  p ∈ nodes g -> edge h0 p c <-> edge (objs g) p c.
Proof. intros Hp. unfold edge, chs. by rewrite (fld_with_root g Hwf). Qed.

Lemma nsteps_with_root (p c : handle) (j : nat) :
  p ∈ nodes g -> nsteps (edge h0) j p c <-> nsteps (edge (objs g)) j p c.
Proof.
  intros Hp. split.
  - induction 1 as [|k x y z Hxy _ IH]; [constructor|].
    apply edge_with_root in Hxy; [|done].
    econstructor; [exact Hxy|]. apply IH. by eapply (wf_closed_c _ Hwf).
  - induction 1 as [|k x y z Hxy _ IH]; [constructor|].
    econstructor; [by apply edge_with_root|]. apply IH.
    by eapply (wf_closed_c _ Hwf).
Qed.

Lemma nsteps_node (p c : handle) (j : nat) :
  p ∈ nodes g -> nsteps (edge (objs g)) j p c -> c ∈ nodes g.
Proof.
  intros Hp. induction 1 as [|k x y z Hxy _ IH]; [done|].
  apply IH. by eapply (wf_closed_c _ Hwf).
Qed.

Lemma live_edge_tc_node (x y : handle) :
  x ∈ nodes g -> tc live_edge x y -> tc (edge (objs g)) x y /\ y ∈ nodes g.
Proof.
  intros Hx Ht. induction Ht as [x y [_ H]|x y z [_ H] _ IH].
  - apply edge_with_root in H; [|done]. split; [by apply tc_once|].
    by eapply (wf_closed_c _ Hwf).
  - apply edge_with_root in H; [|done].
    destruct IH as [IH1 IH2]; [by eapply (wf_closed_c _ Hwf)|].
    split; [by eapply tc_l|done].
Qed.

Lemma live_edge_irreflexive : Irreflexive (tc live_edge).
Proof.
  intros x Ht. assert (Hx : Live x).
  { inversion Ht as [? ? [H1 _]|? ? ? [H1 _] _]; by subst. }
  destruct Hx as [->|Hx].
  - apply tc_inv_r in Ht as (z & _ & [Hz Hzr]).
    by apply (no_edge_to_root g Hwf z).
  - apply (Hacyc x Hx). by apply live_edge_tc_node.
Qed.

Lemma live_edge_finite (x : handle) : pred_finite (tc live_edge x).
Proof.
  exists (root :: nodes g). intros y Ht.
  assert (Hy : Live y).
  { apply tc_inv_r in Ht as (z & _ & [Hz Hzy]). by eapply (live_closed0 g Hwf). }
  destruct Hy as [->|Hy]; [left|by right].
Qed.

(** Without cycles, the walk down the children is well founded. *)
Lemma acc_children (n : handle) : Live n -> Acc (flip (edge h0)) n.
Proof.
  intros Hn.
  assert (Hsn : sn live_edge n)
    by (apply tc_finite_sn; [apply live_edge_irreflexive|apply live_edge_finite]).
  induction Hsn as [n _ IH]. constructor. intros c Hc. unfold flip in Hc.
  apply IH; [by split|]. by eapply (live_closed0 g Hwf).
Qed.

(** The parent links of the jobs of the mapping. *)
Definition node_plink (c p : handle) : Prop :=
  c ∈ nodes g /\ p ∈ pars (objs g) c.

Lemma node_plink_edge (c p : handle) :
  node_plink c p -> p ∈ nodes g /\ edge (objs g) p c.
Proof.
  intros [Hc Hp].
  assert (Hpn : p ∈ nodes g) by (by eapply (wf_closed_p _ Hwf)).
  split; [done|]. by apply (wf_consistent _ Hwf p c).
Qed.

Lemma node_plink_tc (x y : handle) :
  tc node_plink x y -> tc (edge (objs g)) y x /\ x ∈ nodes g.
Proof.
  induction 1 as [x y H|x y z H _ [IH _]].
  - split; [|by destruct H]. apply tc_once. by apply node_plink_edge.
  - split; [|by destruct H]. eapply tc_r; [exact IH|]. by apply node_plink_edge.
Qed.

Lemma acc_parents (n : handle) : Acc (flip node_plink) n.
Proof.
  apply (tc_finite_sn (R := node_plink)).
  - intros x Ht. apply node_plink_tc in Ht as [Ht Hx]. by apply (Hacyc x).
  - exists (nodes g). intros y Ht.
    apply tc_inv_r in Ht as (z & _ & Hz). by apply node_plink_edge in Hz as [? _].
Qed.

(** Every job is below some zero in-degree job. *)
Lemma below_a_root (q : handle) :
  q ∈ nodes g -> exists r j, is_root g r /\ nsteps (edge (objs g)) j r q.
Proof.
  induction (acc_parents q) as [q _ IH]. intros Hq.
  destruct (pars (objs g) q) as [|p ps] eqn:E.
  - exists q, 0. split; [by split|constructor].
  - assert (Hl : node_plink q p) by (split; [done|rewrite E; left]).
    destruct (node_plink_edge q p Hl) as [Hp He].
    destruct (IH p Hl Hp) as (r & j & Hr & Hpath).
    exists r, (S j). split; [done|]. by eapply nsteps_r.
Qed.

(** Paths from the surrogate root are paths from the real roots, one
    edge longer. *)
Lemma from_root_S (q : handle) (j : nat) :
  nsteps (edge h0) (S j) root q <->
  exists r, is_root g r /\ nsteps (edge (objs g)) j r q.
Proof.
  split.
  - intros H. inversion H as [|? ? r ? Hr Hp]; subst.
    unfold edge, chs in Hr. rewrite (fld_root g) in Hr. simpl in Hr.
    apply real_roots_elem in Hr. exists r. split; [done|].
    apply nsteps_with_root; [by destruct Hr|done].
  - intros (r & Hr & Hp). econstructor.
    + unfold edge, chs. rewrite (fld_root g). simpl. by apply real_roots_elem.
    + apply nsteps_with_root; [by destruct Hr|done].
Qed.

Lemma from_root_O (q : handle) : q ∈ nodes g -> ~ nsteps (edge h0) 0 root q.
Proof.
  intros Hq H. inversion H; subst. by apply (root_not_node g Hwf).
Qed.

Lemma fresh_modest : fresh_levels g -> modest_levels g.
Proof.
  intros Hfresh q Hq. destruct (below_a_root q Hq) as (r & j & Hr & Hp).
  exists r, j. split_and!; [done..|]. rewrite Hfresh by done. lia.
Qed.

Hypothesis Hmodest : modest_levels g.

Lemma modest_with_root (m : handle) :
  Live m -> exists L, nsteps (edge h0) L root m /\ (lvl h0 m <= Z.of_nat L)%Z.
Proof.
  intros [->|Hm].
  - exists 0. split; [constructor|]. unfold lvl. by rewrite (fld_root g).
  - destruct (Hmodest m Hm) as (r & j & Hr & Hp & Hle).
    exists (S j). split; [apply from_root_S; eauto|].
    unfold lvl in *. rewrite (fld_with_root g Hwf) by done. lia.
Qed.

(** [simplify] up to the end of the labelling loop: with enough fuel
    it returns the heap with the surrogate root, changed in its levels
    only, and the level of a job is one more than the length of a
    longest path to it from a zero in-degree job. *)
Lemma assign_levels_spec :
  exists k h1,
    (forall fuel, k <= fuel -> assign_levels fuel g = Ok (h1, root)) /\
    lvl_only h0 h1 /\
    lvl h1 root = 0%Z /\
    forall q, q ∈ nodes g ->
      exists L, longest_path g q L /\ lvl h1 q = (Z.of_nat L + 1)%Z.
Proof.
  destruct (level_loop_spec h0 Live (live_alloc0 g Hwf) (live_closed0 g Hwf) root)
    as (k & h1 & E & Ho & Hlow & Hex).
  { by left. }
  { apply acc_children. by left. }
  { unfold lvl. by rewrite (fld_root g). }
  { exact modest_with_root. }
  exists k, h1. split_and!; [|done| |].
  - intros fuel Hf. unfold assign_levels.
    rewrite find_roots_spec by done. simpl.
    rewrite surrogate_root_spec. simpl.
    pose proof (E fuel Hf) as E'. unfold with_root in E'. by rewrite E'.
  - destruct (Hex root 0) as (L & HL & EL); [constructor|].
    destruct L as [|L]; [done|].
    apply nsteps_inv_r in HL as (y & Hy & Hyr).
    destruct (no_edge_to_root g Hwf y); [|done].
    eapply (live_nsteps h0 Live (live_closed0 g Hwf)); [|exact Hy]. by left.
  - intros q Hq. destruct (below_a_root q Hq) as (r & j & Hr & Hp).
    destruct (Hex q (S j)) as (L & HL & EL); [apply from_root_S; eauto|].
    destruct L as [|L]; [by apply from_root_O in HL|].
    exists L. split; [split|].
    + by apply from_root_S.
    + intros r' j' Hr' Hp'.
      assert (H : nsteps (edge h0) (S j') root q) by (apply from_root_S; eauto).
      apply Hlow in H. lia.
    + rewrite EL. lia.
Qed.

End Levels.

(** ** Heaps that differ in adjacency only *)

Definition erase_adj (j : Job) : Job := set_children (set_parents j []) [].

(** [h'] is [h] but for the [parents] and [children] fields. *)
Definition adj_only (h h' : heap) : Prop :=
  erase_adj <$> h' = erase_adj <$> h.

Lemma adj_only_refl (h : heap) : adj_only h h.
Proof. done. Qed.

Lemma adj_only_trans (h1 h2 h3 : heap) :
  adj_only h1 h2 -> adj_only h2 h3 -> adj_only h1 h3.
Proof. unfold adj_only. congruence. Qed.

Lemma adj_only_length (h h' : heap) : adj_only h h' -> length h' = length h.
Proof.
  intros H. by rewrite <- (length_fmap erase_adj h'), H, length_fmap.
Qed.

Lemma adj_only_fld {A : Type} (f : Job -> A) (d : A) (h h' : heap) q :
  (forall j, f (erase_adj j) = f j) ->
  adj_only h h' -> fld f d h' q = fld f d h q.
Proof.
  intros Hf H. assert (E := f_equal (fun l => l !! q) H). simpl in E.
  rewrite !list_lookup_fmap in E. unfold fld.
  destruct (h' !! q) as [j'|], (h !! q) as [j|]; simpl in *; try done.
  assert (E' : erase_adj j' = erase_adj j) by congruence.
  by rewrite <- (Hf j'), E', Hf.
Qed.

Lemma adj_only_lvl h h' q : adj_only h h' -> lvl h' q = lvl h q.
Proof. by apply adj_only_fld. Qed.
Lemma adj_only_nm h h' q : adj_only h h' -> nm h' q = nm h q.
Proof. by apply adj_only_fld. Qed.
Lemma adj_only_ident h h' q : adj_only h h' -> ident h' q = ident h q.
Proof. by apply adj_only_fld. Qed.

Lemma adj_only_set_parents (h : heap) c cj ps :
  h !! c = Some cj -> adj_only h (<[c := set_parents cj ps]> h).
Proof.
  intros E. unfold adj_only. rewrite list_fmap_insert.
  apply list_insert_id. rewrite list_lookup_fmap, E. done.
Qed.

Lemma adj_only_set_children (h : heap) c cj cs :
  h !! c = Some cj -> adj_only h (<[c := set_children cj cs]> h).
Proof.
  intros E. unfold adj_only. rewrite list_fmap_insert.
  apply list_insert_id. rewrite list_lookup_fmap, E. done.
Qed.

(** ** [inv_reachable] on a heap whose parent links are well founded *)

Lemma scan_parents_spec (b : handle) (ps fifo : list handle) :
  scan_parents b ps fifo = if decide (b ∈ ps) then None else Some (fifo ++ ps).
Proof.
  revert fifo. induction ps as [|p ps IH]; intros fifo; simpl.
  - by rewrite app_nil_r.
  - destruct (decide (p = b)) as [->|Hne].
    + by rewrite decide_True by left.
    + rewrite IH. destruct (decide (b ∈ ps)).
      * by rewrite decide_True by by right.
      * rewrite decide_False; [by rewrite <- app_assoc|].
        intros [?|?]%elem_of_cons; congruence.
Qed.

Section InvReachable.

Variable h : heap.
Variable b : handle.
Variable live : handle -> Prop.
Hypothesis live_alloc : forall n, live n -> n < length h.
Hypothesis live_closed : forall n p, live n -> p ∈ pars h n -> live p.

Abbreviation loop := (fun fuel fifo => inv_reachable_loop fuel h b fifo).

(** A pending node is dealt with: either [b] is found above it, or it
    is dropped from the list with nothing found. *)
Definition searched (l : list handle) : Prop :=
  forall s, exists k,
    ((exists x, x ∈ l /\ tc (plink h) x b) /\
       forall fuel, loop (k + fuel) (s ++ l) = Ok true) \/
    ((forall x, x ∈ l -> ~ tc (plink h) x b) /\
       forall fuel, loop (k + fuel) (s ++ l) = loop fuel s).

Lemma searched_list (l : list handle) :
  (forall x, x ∈ l -> searched [x]) -> searched l.
Proof.
  induction l as [|c l IH] using rev_ind; intros Hl s.
  - exists 0. right. split; [by intros x ?%elem_of_nil|].
    intros fuel. by rewrite app_nil_r.
  - assert (Hc : searched [c]) by (apply Hl, elem_of_app; right; left).
    destruct (Hc (s ++ l)) as (k1 & [[(x & Hx & Ht) E1]|[Hno1 E1]]).
    + exists k1. left. apply list_elem_of_singleton in Hx as ->. split.
      * exists c. split; [apply elem_of_app; right; left|done].
      * intros fuel. rewrite app_assoc. apply E1.
    + destruct (IH (fun x Hx => Hl x (proj2 (elem_of_app _ _ _) (or_introl Hx))) s)
        as (k2 & [[(x & Hx & Ht) E2]|[Hno2 E2]]).
      * exists (k1 + k2). left. split.
        -- exists x. split; [apply elem_of_app; by left|done].
        -- intros fuel. rewrite app_assoc, <- Nat.add_assoc, E1. apply E2.
      * exists (k1 + k2). right. split.
        -- intros x [Hx|Hx]%elem_of_app; [by apply Hno2|by apply Hno1].
        -- intros fuel. rewrite app_assoc, <- Nat.add_assoc, E1. apply E2.
Qed.

Lemma searched_one (x : handle) : sn (plink h) x -> live x -> searched [x].
Proof.
  induction 1 as [x _ IH]. intros Hx s.
  destruct (deref_lt h x (live_alloc x Hx)) as (xj & Ed & El).
  assert (Ep : parents xj = pars h x) by (symmetry; by apply fld_lookup).
  destruct (decide (b ∈ pars h x)) as [Hb|Hb].
  - exists 1. left. split.
    + exists x. split; [left|]. by apply tc_once.
    + intros fuel. simpl. rewrite pop_snoc, Ed. simpl.
      rewrite scan_parents_spec, Ep. by rewrite decide_True.
  - destruct (searched_list (pars h x)) with (s := s)
      as (k & [[(p & Hp & Ht) E]|[Hno E]]).
    { intros p Hp. apply IH; [exact Hp|by eapply live_closed]. }
    + exists (S k). left. split.
      * exists x. split; [left|]. by eapply tc_l.
      * intros fuel. simpl. rewrite pop_snoc, Ed. simpl.
        rewrite scan_parents_spec, Ep. rewrite decide_False by done. apply E.
    + exists (S k). right. split.
      * intros y ->%list_elem_of_singleton Ht.
        inversion Ht as [? ? H1|? p ? H1 H2]; subst; [done|].
        by apply (Hno p).
      * intros fuel. simpl. rewrite pop_snoc, Ed. simpl.
        rewrite scan_parents_spec, Ep. rewrite decide_False by done. apply E.
Qed.

(** [inv_reachable(a, b)] returns, and says whether [b] is a proper
    ancestor of [a]. *)
Lemma inv_reachable_spec (a : handle) :
  sn (plink h) a -> live a ->
  exists K r,
    (r = true <-> tc (plink h) a b) /\
    forall F, K <= F -> inv_reachable F h a b = Ok r.
Proof.
  intros Hsn Ha. destruct (searched_one a Hsn Ha []) as (k & [[(x & Hx & Ht) E]|[Hno E]]).
  - apply list_elem_of_singleton in Hx as ->.
    exists k, true. split; [done|]. intros F HF. unfold inv_reachable.
    replace F with (k + (F - k)) by lia. apply E.
  - exists (S k), false. split.
    + split; [done|]. intros Ht. destruct (Hno a); [left|done].
    + intros F HF. unfold inv_reachable.
      replace F with (k + S (F - S k)) by lia.
      change [a] with ([] ++ [a]). by rewrite E.
Qed.

End InvReachable.

(** ** The three list updates of the elimination loop *)

Lemma parents_remove_spec (h : heap) (c x : handle) :
  c < length h -> x ∈ pars h c ->
  exists h',
    parents_remove h c x = Ok h' /\ adj_only h h' /\
    (forall q, q <> c -> h' !! q = h !! q) /\
    (forall q, chs h' q = chs h q) /\
    (forall q, pars h' q = if decide (q = c) then remove1 x (pars h c) else pars h q).
Proof.
  intros Hc Hx. destruct (deref_lt h c Hc) as (cj & Ed & El).
  assert (Ep : pars h c = parents cj) by (by apply fld_lookup).
  assert (Ec : chs h c = children cj) by (by apply fld_lookup).
  unfold parents_remove. rewrite Ed. simpl.
  rewrite py_remove_remove1 by (by rewrite <- Ep). simpl.
  eexists. split; [done|]. split_and!.
  - by apply adj_only_set_parents.
  - intros q Hq. by rewrite list_lookup_insert_ne.
  - intros q. unfold chs in *. rewrite fld_insert by done.
    destruct (decide (q = c)) as [->|]; [|done]. simpl. by rewrite Ec.
  - intros q. unfold pars in *. rewrite fld_insert by done.
    destruct (decide (q = c)) as [->|]; [|done]. simpl. by rewrite Ep.
Qed.

Lemma children_remove_spec (h : heap) (p x : handle) :
  p < length h -> x ∈ chs h p ->
  exists h',
    children_remove h p x = Ok h' /\ adj_only h h' /\
    (forall q, q <> p -> h' !! q = h !! q) /\
    (forall q, pars h' q = pars h q) /\
    (forall q, chs h' q = if decide (q = p) then remove1 x (chs h p) else chs h q).
Proof.
  intros Hp Hx. destruct (deref_lt h p Hp) as (pj & Ed & El).
  assert (Ep : pars h p = parents pj) by (by apply fld_lookup).
  assert (Ec : chs h p = children pj) by (by apply fld_lookup).
  unfold children_remove. rewrite Ed. simpl.
  rewrite py_remove_remove1 by (by rewrite <- Ec). simpl.
  eexists. split; [done|]. split_and!.
  - by apply adj_only_set_children.
  - intros q Hq. by rewrite list_lookup_insert_ne.
  - intros q. unfold pars in *. rewrite fld_insert by done.
    destruct (decide (q = p)) as [->|]; [|done]. simpl. by rewrite Ep.
  - intros q. unfold chs in *. rewrite fld_insert by done.
    destruct (decide (q = p)) as [->|]; [|done]. simpl. by rewrite Ec.
Qed.

Lemma parents_append_spec (h : heap) (c x : handle) :
  c < length h ->
  exists h',
    parents_append h c x = Ok h' /\ adj_only h h' /\
    (forall q, q <> c -> h' !! q = h !! q) /\
    (forall q, chs h' q = chs h q) /\
    (forall q, pars h' q = if decide (q = c) then pars h c ++ [x] else pars h q).
Proof.
  intros Hc. destruct (deref_lt h c Hc) as (cj & Ed & El).
  assert (Ep : pars h c = parents cj) by (by apply fld_lookup).
  assert (Ec : chs h c = children cj) by (by apply fld_lookup).
  unfold parents_append. rewrite Ed. simpl.
  eexists. split; [done|]. split_and!.
  - by apply adj_only_set_parents.
  - intros q Hq. by rewrite list_lookup_insert_ne.
  - intros q. unfold chs in *. rewrite fld_insert by done.
    destruct (decide (q = c)) as [->|]; [|done]. simpl. by rewrite Ec.
  - intros q. unfold pars in *. rewrite fld_insert by done.
    destruct (decide (q = c)) as [->|]; [|done]. simpl. by rewrite Ep.
Qed.

(** ** The elimination loop *)

Lemma sn_subrel {A : Type} (R1 R2 : relation A) (x : A) :
  (forall a b, R1 a b -> R2 a b) -> sn R2 x -> sn R1 x.
Proof.
  intros Hsub. induction 1 as [x _ IH]. constructor. intros y Hy.
  apply IH. unfold flip in *. by apply Hsub.
Qed.

Lemma tc_subrel {A : Type} (R1 R2 : relation A) (x y : A) :
  (forall a b, R1 a b -> R2 a b) -> tc R1 x y -> tc R2 x y.
Proof.
  intros Hsub. induction 1 as [x y H|x y z H _ IH].
  - apply tc_once. by apply Hsub.
  - eapply tc_l; [by apply Hsub|done].
Qed.

(** [c] reaches [n] over parent links other than the link from [c] to
    [n] itself: what [inv_reachable(c, n)] looks for once [n] is taken
    out of [c.parents]. *)
Definition alt (h : heap) (n c : handle) : Prop :=
  tc (fun x p => plink h x p /\ ~ (x = c /\ p = n)) c n.

(** The edge from [n] to [c] spans more than one level. *)
Definition far (h : heap) (n c : handle) : Prop :=
  (lvl h c - lvl h n > 1)%Z.

(** No edge out of [m] is one the loop would remove. *)
Definition settled (h : heap) (m : handle) : Prop :=
  forall c, c ∈ chs h m -> far h m c -> ~ alt h m c.

Lemma alt_mono (h h' : heap) (n c : handle) :
  (forall q, pars h' q ⊆ pars h q) -> alt h' n c -> alt h n c.
Proof.
  intros Hsub. apply tc_subrel. intros x p [Hl Hne]. split; [|done].
  by apply Hsub.
Qed.

Section Eliminate.

(** [live] are the handles the loop can meet, [root] the surrogate
    root, and [hb] a heap whose adjacency is well founded in both
    directions and contains that of every heap of the loop. *)
Variable hb : heap.
Variable live : handle -> Prop.
Variable root : handle.
Hypothesis acc_c : forall n, live n -> sn (edge hb) n.
Hypothesis acc_p : forall n, live n -> sn (plink hb) n.

Definition within (h : heap) : Prop :=
  forall q, chs h q ⊆ chs hb q /\ pars h q ⊆ pars hb q.

(** The invariant of the loop: among live handles adjacency is
    closed, duplicate free and bidirectionally consistent, but for the
    surrogate root, which is nobody's parent and whose children are
    one level below it. *)
Record wf_heap (h : heap) : Prop := {
  wh_alloc : forall n, live n -> n < length h;
  wh_closed_c : forall n c, live n -> c ∈ chs h n -> live c;
  wh_closed_p : forall n p, live n -> p ∈ pars h n -> live p;
  wh_cons : forall p c, live p -> live c ->
    (p ∈ pars h c <-> c ∈ chs h p /\ p <> root);
  wh_nodup_c : forall n, live n -> NoDup (chs h n);
  wh_nodup_p : forall n, live n -> NoDup (pars h n);
  wh_root_near : forall c, c ∈ chs h root -> ~ far h root c
}.

(** [h'] comes from [h] by removing edges, each of them spanning more
    than one level and doubled by another path. *)
Record shrunk (h h' : heap) : Prop := {
  sh_adj : adj_only h h';
  sh_frame : forall q, ~ live q -> h' !! q = h !! q;
  sh_chs : forall q, chs h' q ⊆ chs h q;
  sh_pars : forall q, pars h' q ⊆ pars h q;
  sh_reach : forall p c, edge h p c ->
    exists j, 0 < j /\ nsteps (edge h') j p c;
  sh_why : forall p c, c ∈ chs h p -> c ∉ chs h' p ->
    live p /\ far h p c /\ alt h p c;
  sh_why_p : forall c p, p ∈ pars h c -> p ∉ pars h' c ->
    c ∈ chs h p /\ c ∉ chs h' p
}.

Lemma far_adj_only (h h' : heap) (n c : handle) :
  adj_only h h' -> far h' n c <-> far h n c.
Proof. intros H. unfold far. by rewrite !(adj_only_lvl h h'). Qed.

Lemma shrunk_refl (h : heap) : shrunk h h.
Proof.
  constructor; try done.
  - intros p c H. exists 1. split; [lia|by apply nsteps_once].
Qed.

(** Paths do not get shorter when edges are replaced by paths. *)
Lemma nsteps_grow {A : Type} (R1 R2 : relation A) (k : nat) (x y : A) :
  (forall a b, R1 a b -> exists j, 0 < j /\ nsteps R2 j a b) ->
  nsteps R1 k x y -> exists k', k <= k' /\ nsteps R2 k' x y.
Proof.
  intros Hsub. induction 1 as [|k x y z Hxy _ (k' & Hk & IH)].
  - exists 0. split; [lia|constructor].
  - destruct (Hsub x y Hxy) as (j & Hj & Hp).
    exists (j + k'). split; [lia|]. by eapply nsteps_trans.
Qed.

Lemma shrunk_nsteps (h h' : heap) (k : nat) (x y : handle) :
  shrunk h h' -> nsteps (edge h) k x y ->
  exists k', k <= k' /\ nsteps (edge h') k' x y.
Proof. intros Hs. apply nsteps_grow, Hs. Qed.

Lemma shrunk_rtc (h h' : heap) (x y : handle) :
  shrunk h h' -> rtc (edge h) x y -> rtc (edge h') x y.
Proof.
  intros Hs [k Hk]%rtc_nsteps.
  destruct (shrunk_nsteps h h' k x y Hs Hk) as (k' & _ & Hk').
  by eapply rtc_nsteps_2.
Qed.

Lemma shrunk_trans (h1 h2 h3 : heap) :
  shrunk h1 h2 -> shrunk h2 h3 -> shrunk h1 h3.
Proof.
  intros H12 H23. constructor.
  - eapply adj_only_trans; [apply H12|apply H23].
  - intros q Hq. rewrite (sh_frame _ _ H23) by done. by apply H12.
  - intros q. etrans; [apply H23|apply H12].
  - intros q. etrans; [apply H23|apply H12].
  - intros p c H. destruct (sh_reach _ _ H12 p c H) as (j & Hj & Hp).
    destruct (nsteps_grow _ _ j p c (sh_reach _ _ H23) Hp) as (j' & Hj' & Hp').
    exists j'. split; [lia|done].
  - intros p c Hin Hout. destruct (decide (c ∈ chs h2 p)) as [H2|H2].
    + destruct (sh_why _ _ H23 p c H2 Hout) as (Hp & Hf & Ha). split_and!.
      * done.
      * by apply (far_adj_only h1 h2), Hf; apply H12.
      * eapply alt_mono; [|exact Ha]. apply H12.
    + by apply (sh_why _ _ H12).
  - intros c p Hin Hout. destruct (decide (p ∈ pars h2 c)) as [H2|H2].
    + destruct (sh_why_p _ _ H23 c p H2 Hout) as [Hc Hnc].
      split; [by apply (sh_chs _ _ H12)|done].
    + destruct (sh_why_p _ _ H12 c p Hin H2) as [Hc Hnc].
      split; [done|]. intros Hc'. by apply Hnc, (sh_chs _ _ H23).
Qed.

Lemma settled_shrunk (h h' : heap) (m : handle) :
  shrunk h h' -> settled h m -> settled h' m.
Proof.
  intros Hs Hm c Hc Hf Ha. apply (Hm c).
  - by apply (sh_chs _ _ Hs).
  - by apply (far_adj_only h h'); [apply Hs|].
  - eapply alt_mono; [|exact Ha]. apply Hs.
Qed.

Lemma within_shrunk (h h' : heap) : shrunk h h' -> within h -> within h'.
Proof.
  intros Hs Hw q. destruct (Hw q) as [Hc Hp]. split.
  - etrans; [apply Hs|done].
  - etrans; [apply Hs|done].
Qed.

(** Along parent links one walks child-direction edges backwards. *)
Lemma plink_tc_edge (h : heap) (x y : handle) :
  wf_heap h -> live x -> tc (plink h) x y -> tc (edge h) y x.
Proof.
  intros Hwf Hx Ht. induction Ht as [x y H|x y z H _ IH].
  - apply tc_once. 
    apply (wh_cons _ Hwf y x); [by eapply wh_closed_p|done..].
  - assert (Hy : live y) by (by eapply wh_closed_p).
    eapply tc_r; [by apply IH|]. by apply (wh_cons _ Hwf y x).
Qed.

(** The effect of examining the edge from [n] to [c], [rm] telling
    whether it was removed, keeps the invariant. *)
Lemma step_keeps (h h' : heap) (n c : handle) (rm : bool) :
  wf_heap h -> live n -> live c -> c ∈ chs h n ->
  adj_only h h' ->
  (forall q, ~ live q -> h' !! q = h !! q) ->
  (forall x y, y ∈ chs h' x <-> y ∈ chs h x /\ ~ (rm = true /\ x = n /\ y = c)) ->
  (forall x y, y ∈ pars h' x <-> y ∈ pars h x /\ ~ (rm = true /\ x = c /\ y = n)) ->
  (forall q, live q -> NoDup (chs h' q) /\ NoDup (pars h' q)) ->
  (rm = true -> far h n c /\ alt h n c) ->
  wf_heap h' /\ shrunk h h'.
Proof.
  intros Hwf Hn Hc Hcn Hadj Hframe Hchs Hpars Hnd Hrm.
  assert (Hwf' : wf_heap h').
  { constructor.
    - intros q Hq. rewrite (adj_only_length _ _ Hadj). by apply Hwf.
    - intros x y Hx [Hy _]%Hchs. by eapply wh_closed_c.
    - intros x y Hx [Hy _]%Hpars. by eapply wh_closed_p.
    - intros p c' Hp Hc'. rewrite Hchs, Hpars.
      pose proof (wh_cons _ Hwf p c' Hp Hc'). tauto.
    - intros q Hq. by apply Hnd.
    - intros q Hq. by apply Hnd.
    - intros c' [Hc' _]%Hchs Hf. apply (wh_root_near _ Hwf c' Hc').
      by apply (far_adj_only h h'). }
  split; [done|]. constructor; try done.
  - intros q y [Hy _]%Hchs. done.
  - intros q y [Hy _]%Hpars. done.
  - intros p x Hpx.
    destruct (decide (rm = true /\ p = n /\ x = c)) as [(Er & -> & ->)|Hno].
    + destruct (Hrm Er) as [_ Ha]. apply tc_nsteps.
      apply (plink_tc_edge h'); [done..|].
      eapply tc_subrel; [|exact Ha]. intros a b [Hl Hne].
      apply Hpars. split; [done|tauto].
    + exists 1. split; [lia|]. apply nsteps_once. apply Hchs. by split.
  - intros p x Hin Hout.
    destruct (decide (rm = true /\ p = n /\ x = c)) as [(Er & -> & ->)|Hno].
    + split; [done|]. by apply Hrm.
    + destruct Hout. apply Hchs. by split.
  - intros x p Hin Hout.
    destruct (decide (rm = true /\ x = c /\ p = n)) as [(Er & -> & ->)|Hno].
    + split; [done|]. intros [_ Hk]%Hchs. by apply Hk.
    + destruct Hout. apply Hpars. by split.
Qed.

(** One pass of the body of [for c in children]. *)
Lemma examine_spec (n c : handle) (fifo : list handle) (h : heap) :
  wf_heap h -> within h -> live n -> c ∈ chs h n ->
  exists K h' (rm : bool),
    (forall F, K <= F -> examine F n (fifo, h) c = Ok (fifo ++ [c], h')) /\
    adj_only h h' /\
    (forall q, ~ live q -> h' !! q = h !! q) /\
    (forall x y, y ∈ chs h' x <-> y ∈ chs h x /\ ~ (rm = true /\ x = n /\ y = c)) /\
    (forall x y, y ∈ pars h' x <-> y ∈ pars h x /\ ~ (rm = true /\ x = c /\ y = n)) /\
    (forall q, live q -> NoDup (chs h' q) /\ NoDup (pars h' q)) /\
    (rm = true -> far h n c /\ alt h n c) /\
    (rm = false -> far h n c -> ~ alt h n c).
Proof.
  intros Hwf Hin Hn Hcn.
  assert (Hc : live c) by (by eapply wh_closed_c).
  pose proof (wh_alloc _ Hwf c Hc) as Hclt.
  pose proof (wh_alloc _ Hwf n Hn) as Hnlt.
  destruct (deref_lt h c Hclt) as (cj & Edc & Elc).
  destruct (deref_lt h n Hnlt) as (nj & Edn & Eln).
  assert (Elvc : lvl h c = level cj) by (by apply fld_lookup).
  assert (Elvn : lvl h n = level nj) by (by apply fld_lookup).
  destruct (decide (level cj - level nj > 1)%Z) as [Hfar|Hnear].
  2:{ exists 0, h, false. split_and!; try done.
      - intros F _. unfold examine. rewrite Edc. simpl. rewrite Edn. simpl.
        by rewrite decide_False.
      - intros x y. split; [|tauto]. intros Hy. split; [done|]. by intros [? _].
      - intros x y. split; [|tauto]. intros Hy. split; [done|]. by intros [? _].
      - intros q Hq. split; by apply Hwf.
      - intros _ Hf. unfold far in Hf. rewrite Elvc, Elvn in Hf. done. }
  assert (Hfar' : far h n c) by (unfold far; by rewrite Elvc, Elvn).
  assert (Hnr : n <> root) by (intros ->; by apply (wh_root_near _ Hwf c)).
  assert (Hnc : n <> c) by (intros ->; lia).
  assert (Hnp : n ∈ pars h c) by (by apply (wh_cons _ Hwf n c)).
  destruct (parents_remove_spec h c n Hclt Hnp)
    as (h1 & E1 & Hadj1 & Hfr1 & Hchs1 & Hpars1).
  assert (Hlen1 := adj_only_length _ _ Hadj1).
  assert (Hlink1 : forall x p, plink h1 x p <-> plink h x p /\ ~ (x = c /\ p = n)).
  { intros x p. unfold plink. rewrite Hpars1.
    destruct (decide (x = c)) as [->|Hne].
    - rewrite remove1_elem by (by apply Hwf). tauto.
    - tauto. }
  destruct (inv_reachable_spec h1 n live) with (a := c) as (K & r & Hr & EK).
  { intros q Hq. rewrite Hlen1. by apply Hwf. }
  { intros x p Hx [Hp _]%Hlink1. by eapply wh_closed_p. }
  { eapply sn_subrel; [|by apply acc_p]. intros x p [Hp _]%Hlink1.
    by apply Hin. }
  { done. }
  assert (Halt : r = true <-> alt h n c).
  { rewrite Hr. unfold alt. split; apply tc_subrel; intros x p; apply Hlink1. }
  destruct r.
  - (* the edge is redundant *)
    destruct (children_remove_spec h1 n c) as (h2 & E2 & Hadj2 & Hfr2 & Hpars2 & Hchs2).
    { by rewrite Hlen1. }
    { by rewrite Hchs1. }
    exists K, h2, true. split_and!.
    + intros F HF. unfold examine. rewrite Edc. simpl. rewrite Edn. simpl.
      rewrite decide_True by done. rewrite E1. simpl.
      rewrite (EK F HF). simpl. by rewrite E2.
    + by eapply adj_only_trans.
    + intros q Hq. rewrite Hfr2, Hfr1; [done|by intros ->..].
    + intros x y. rewrite Hchs2, !Hchs1.
      destruct (decide (x = n)) as [->|Hne].
      * rewrite remove1_elem by (by apply Hwf).
        split; [intros [? ?]; split; [done|]; by intros (_ & _ & ?)|].
        intros [? Hno]. split; [done|]. intros ->. by apply Hno.
      * split; [|tauto]. intros ?. split; [done|]. by intros (_ & ? & _).
    + intros x y. rewrite Hpars2, Hpars1.
      destruct (decide (x = c)) as [->|Hne].
      * rewrite remove1_elem by (by apply Hwf).
        split; [intros [? ?]; split; [done|]; by intros (_ & _ & ?)|].
        intros [? Hno]. split; [done|]. intros ->. by apply Hno.
      * split; [|tauto]. intros ?. split; [done|]. by intros (_ & ? & _).
    + intros q Hq. rewrite Hchs2, Hpars2, Hpars1, !Hchs1.
      split; [destruct (decide (q = n))|destruct (decide (q = c)) as [->|]];
        try apply remove1_NoDup; by apply Hwf.
    + intros _. split; [done|by apply Halt].
    + done.
  - (* the edge is needed: it is put back *)
    destruct (parents_append_spec h1 c n) as (h2 & E2 & Hadj2 & Hfr2 & Hchs2 & Hpars2).
    { by rewrite Hlen1. }
    exists K, h2, false. split_and!.
    + intros F HF. unfold examine. rewrite Edc. simpl. rewrite Edn. simpl.
      rewrite decide_True by done. rewrite E1. simpl.
      rewrite (EK F HF). simpl. by rewrite E2.
    + by eapply adj_only_trans.
    + intros q Hq. rewrite Hfr2, Hfr1; [done|by intros ->..].
    + intros x y. rewrite Hchs2, Hchs1.
      split; [|tauto]. intros ?. split; [done|]. by intros (? & _).
    + intros x y. rewrite Hpars2, !Hpars1. rewrite (decide_True (P := c = c)) by done.
      destruct (decide (x = c)) as [->|Hne].
      * rewrite elem_of_app, list_elem_of_singleton.
        rewrite remove1_elem by (by apply Hwf).
        split; [|intros [? _]; destruct (decide (y = n)); tauto].
        intros [[? ?]| ->]; (split; [done|by intros (? & _)]).
      * split; [|tauto]. intros ?. split; [done|]. by intros (? & _).
    + intros q Hq. rewrite Hchs2, Hchs1, Hpars2, !Hpars1.
      rewrite (decide_True (P := c = c)) by done.
      split; [by apply Hwf|]. destruct (decide (q = c)) as [->|]; [|by apply Hwf].
      apply NoDup_app. split_and!.
      * apply remove1_NoDup. by apply Hwf.
      * intros y [_ Hy]%remove1_elem ->%list_elem_of_singleton; [done|by apply Hwf].
      * apply NoDup_singleton.
    + done.
    + intros _ _ Ha. by apply Halt in Ha.
Qed.

(** The inner loop over the copy of [n.children]. *)
Lemma examine_all (n : handle) (l : list handle) :
  forall fifo h, wf_heap h -> within h -> live n -> NoDup l ->
  (forall c, c ∈ l -> c ∈ chs h n) ->
  exists K h',
    (forall F, K <= F ->
       for_each (examine F n) l (fifo, h) = Ok (fifo ++ l, h')) /\
    wf_heap h' /\ shrunk h h' /\
    (forall c, c ∈ l -> c ∈ chs h' n -> far h' n c -> ~ alt h' n c) /\
    (forall x, x ∉ l -> (x ∈ chs h' n <-> x ∈ chs h n)).
Proof.
  induction l as [|c l IH]; intros fifo h Hwf Hin Hn Hnd Hl.
  - exists 0, h. rewrite app_nil_r. split_and!; try done.
    + apply shrunk_refl.
    + by intros c ?%elem_of_nil.
  - apply NoDup_cons in Hnd as [Hcl Hnd].
    assert (Hcn : c ∈ chs h n) by (apply Hl; left).
    destruct (examine_spec n c fifo h Hwf Hin Hn Hcn)
      as (K1 & h1 & rm & E1 & Hadj & Hfr & Hchs & Hpars & Hnd1 & Hrm & Hkeep).
    destruct (step_keeps h h1 n c rm) as [Hwf1 Hsh1]; try done.
    { by eapply wh_closed_c. }
    destruct (IH (fifo ++ [c]) h1 Hwf1 (within_shrunk _ _ Hsh1 Hin) Hn Hnd)
      as (K2 & h' & E2 & Hwf' & Hsh2 & Hex & Hoth).
    { intros c' Hc'. apply Hchs. split; [apply Hl; by right|].
      intros (_ & _ & ->). done. }
    assert (Hsh : shrunk h h') by (by eapply shrunk_trans).
    exists (K1 `max` K2), h'. split_and!; try done.
    + intros F HF. cbn [for_each]. rewrite E1 by lia. cbn [bind].
      rewrite E2 by lia. by rewrite <- app_assoc.
    + intros c' [->|Hc']%elem_of_cons Hin' Hf Ha; [|by apply (Hex c')].
      apply (sh_chs _ _ Hsh2) in Hin'. apply Hchs in Hin' as [_ Hno].
      destruct rm; [destruct Hno; done|].
      apply Hkeep; [done| |].
      * by apply (far_adj_only h h'); [apply Hsh|].
      * eapply alt_mono; [|exact Ha]. apply Hsh.
    + intros x [Hxc Hxl]%not_elem_of_cons. rewrite Hoth by done.
      rewrite Hchs. split; [tauto|]. intros ?. split; [done|].
      by intros (_ & _ & ->).
Qed.

(** Every job reachable from one of [l] is settled. *)
Definition done_below (h : heap) (l : list handle) : Prop :=
  forall c m, c ∈ l -> rtc (edge h) c m -> settled h m.

(** The pending nodes [l] are dealt with, whatever lies under them on
    the stack. *)
Definition eliminated (l : list handle) : Prop :=
  forall s h, wf_heap h -> within h -> (forall c, c ∈ l -> live c) ->
  exists k K h',
    (forall F fuel, K <= F ->
       eliminate_loop F (k + fuel) (s ++ l) h = eliminate_loop F fuel s h') /\
    wf_heap h' /\ shrunk h h' /\ done_below h' l.

Lemma rtc_edge_shrunk (h h' : heap) (x y : handle) :
  shrunk h h' -> rtc (edge h') x y -> rtc (edge h) x y.
Proof. intros Hs. apply rtc_subrel. intros a b. apply (sh_chs _ _ Hs). Qed.

Lemma eliminated_list (l : list handle) :
  (forall c, c ∈ l -> eliminated [c]) -> eliminated l.
Proof.
  induction l as [|c l IH] using rev_ind; intros Hl s h Hwf Hin Hlive.
  - exists 0, 0, h. rewrite app_nil_r. split_and!; try done.
    + apply shrunk_refl.
    + by intros c m ?%elem_of_nil.
  - assert (Hc : eliminated [c]) by (apply Hl, elem_of_app; right; left).
    destruct (Hc (s ++ l) h Hwf Hin) as (k1 & K1 & h1 & E1 & Hwf1 & Hsh1 & Hd1).
    { intros c' ->%list_elem_of_singleton. apply Hlive, elem_of_app. right. left. }
    destruct (IH (fun x Hx => Hl x (proj2 (elem_of_app _ _ _) (or_introl Hx)))
                 s h1 Hwf1 (within_shrunk _ _ Hsh1 Hin))
      as (k2 & K2 & h2 & E2 & Hwf2 & Hsh2 & Hd2).
    { intros c' Hc'. apply Hlive, elem_of_app. by left. }
    exists (k1 + k2), (K1 `max` K2), h2. split_and!; try done.
    + intros F fuel HF. rewrite app_assoc, <- Nat.add_assoc, E1 by lia.
      apply E2. lia.
    + by eapply shrunk_trans.
    + intros c' m [Hc'| ->%list_elem_of_singleton]%elem_of_app Hm.
      * by apply (Hd2 c').
      * apply (settled_shrunk h1 h2); [done|]. apply (Hd1 c); [left|].
        by eapply rtc_edge_shrunk.
Qed.

Lemma eliminated_one (n : handle) : sn (edge hb) n -> eliminated [n].
Proof.
  induction 1 as [n _ IH]. intros s h Hwf Hin Hlive.
  assert (Hn : live n) by (apply Hlive; left).
  destruct (deref_lt h n (wh_alloc _ Hwf n Hn)) as (nj & Edn & Eln).
  assert (Ecs : children nj = chs h n) by (symmetry; by apply fld_lookup).
  destruct (examine_all n (chs h n) s h Hwf Hin Hn)
    as (K1 & h1 & E1 & Hwf1 & Hsh1 & Hex & _); [by apply Hwf|done|].
  destruct (eliminated_list (chs h n)) with (s := s) (h := h1)
    as (k2 & K2 & h2 & E2 & Hwf2 & Hsh2 & Hd2); try done.
  { intros c Hc. apply IH. by apply Hin. }
  { by eapply within_shrunk. }
  { intros c Hc. by apply (wh_closed_c _ Hwf n). }
  assert (Hsh : shrunk h h2) by (by eapply shrunk_trans).
  exists (S k2), (K1 `max` K2), h2. split_and!; try done.
  - intros F fuel HF. simpl. rewrite pop_snoc, Edn. simpl.
    rewrite Ecs, E1 by lia. simpl. apply E2. lia.
  - intros c m ->%list_elem_of_singleton Hm.
    apply rtc_inv in Hm as [<-|(c & Hc & Hm)].
    + intros c Hc Hf Ha.
      assert (Hc1 : c ∈ chs h1 n) by (by apply (sh_chs _ _ Hsh2)).
      apply (Hex c); [by apply (sh_chs _ _ Hsh1)|done| |].
      * by apply (far_adj_only h1 h2); [apply Hsh2|].
      * eapply alt_mono; [|exact Ha]. apply Hsh2.
    + apply (Hd2 c); [|done]. by apply (sh_chs _ _ Hsh).
Qed.

(** The elimination loop on a heap that satisfies the invariant: it
    returns a heap that satisfies it, shrunk from the first, where
    every job below [root] is settled. *)
Lemma eliminate_spec (h : heap) :
  wf_heap h -> within h -> live root ->
  exists K h',
    (forall F, K <= F -> eliminate F root h = Ok h') /\
    wf_heap h' /\ shrunk h h' /\
    (forall m, rtc (edge h') root m -> settled h' m).
Proof.
  intros Hwf Hin Hroot.
  destruct (eliminated_one root (acc_c root Hroot) [] h Hwf Hin)
    as (k & K & h' & E & Hwf' & Hsh & Hd).
  { by intros c ->%list_elem_of_singleton. }
  exists (K `max` S k), h'. split_and!; try done.
  - intros F HF. unfold eliminate.
    replace F with (k + S (F - S k)) at 2 by lia.
    change [root] with ([] ++ [root]). rewrite E by lia. done.
  - intros m Hm. apply (Hd root); [left|done].
Qed.

(** Run on a heap where every live job is settled, the loop removes
    nothing. *)
Lemma eliminate_settled (h : heap) :
  wf_heap h -> within h -> live root ->
  (forall m, live m -> settled h m) ->
  exists K h',
    (forall F, K <= F -> eliminate F root h = Ok h') /\
    wf_heap h' /\ shrunk h h' /\
    (forall p c, c ∈ chs h' p <-> c ∈ chs h p) /\
    (forall c p, p ∈ pars h' c <-> p ∈ pars h c).
Proof.
  intros Hwf Hin Hroot Hset.
  destruct (eliminate_spec h Hwf Hin Hroot) as (K & h' & E & Hwf' & Hsh & _).
  assert (Hchs : forall p c, c ∈ chs h' p <-> c ∈ chs h p).
  { intros p c. split; [apply Hsh|]. intros Hc.
    destruct (decide (c ∈ chs h' p)) as [|Hout]; [done|].
    destruct (sh_why _ _ Hsh p c Hc Hout) as (Hp & Hf & Ha).
    by destruct (Hset p Hp c). }
  exists K, h'. split_and!; try done.
  intros c p. split; [apply Hsh|]. intros Hp.
  destruct (decide (p ∈ pars h' c)) as [|Hout]; [done|].
  destruct (sh_why_p _ _ Hsh c p Hp Hout) as [Hc Hnc].
  by apply Hchs in Hc.
Qed.

End Eliminate.

(** ** [simplify] on a well-formed acyclic graph *)

Section Simplify.

Variable g : graph.
Hypothesis Hwf : wf_graph g.
Hypothesis Hacyc : acyclic g.
Hypothesis Hmodest : modest_levels g.

Abbreviation root := (length (objs g)).
Abbreviation h0 := (with_root g).
Abbreviation Live := (live g).

Lemma acc_plink (n : handle) : Live n -> sn (plink h0) n.
Proof.
  intros Hn. induction (acc_parents g Hwf Hacyc n) as [n _ IH].
  constructor. intros p Hp. unfold flip, plink, pars in Hp.
  destruct Hn as [->|Hn].
  - rewrite (fld_root g) in Hp. by apply elem_of_nil in Hp.
  - rewrite (fld_with_root g Hwf) in Hp by done.
    apply IH; [by split|]. right. by eapply (wf_closed_p _ Hwf).
Qed.

(** A zero in-degree job is at the end of paths of length 0 only. *)
Lemma root_longest (r : handle) (L : nat) :
  is_root g r -> longest_path g r L -> L = 0.
Proof.
  intros [Hr Hp] [(r' & [Hr' _] & Hpath) _]. destruct L as [|L]; [done|].
  apply nsteps_inv_r in Hpath as (y & Hy & Hyr).
  assert (Hyn : y ∈ nodes g) by (by eapply (nsteps_node g Hwf)).
  apply (wf_consistent _ Hwf y r Hyn Hr) in Hyr.
  rewrite Hp in Hyr. by apply elem_of_nil in Hyr.
Qed.

(** The heap with the surrogate root satisfies the invariant of the
    elimination loop, in whatever way levels were set, provided the
    children of the root are one level below it. *)
Lemma with_root_wf (h1 : heap) :
  lvl_only h0 h1 ->
  (forall c, is_root g c -> ~ far h1 root c) ->
  wf_heap Live root h1.
Proof.
  intros Ho Hnear.
  assert (Ec : forall q, chs h1 q = chs h0 q) by (intros; by apply lvl_only_chs).
  assert (Ep : forall q, pars h1 q = pars h0 q) by (intros; by apply lvl_only_pars).
  assert (Epr : pars h0 root = []) by (unfold pars; by rewrite (fld_root g)).
  assert (Ecr : chs h0 root = real_roots g) by (unfold chs; by rewrite (fld_root g)).
  assert (Epn : forall n, n ∈ nodes g -> pars h0 n = pars (objs g) n)
    by (intros; by apply (fld_with_root g Hwf)).
  assert (Ecn : forall n, n ∈ nodes g -> chs h0 n = chs (objs g) n)
    by (intros; by apply (fld_with_root g Hwf)).
  constructor.
  - intros n Hn. rewrite (lvl_only_length _ _ Ho). by apply (live_alloc0 g Hwf).
  - intros n c Hn. rewrite Ec. by apply (live_closed0 g Hwf).
  - intros n p' [->|Hn]; rewrite Ep.
    + rewrite Epr. by intros ?%elem_of_nil.
    + rewrite Epn by done. intros Hp. right. by eapply (wf_closed_p _ Hwf).
  - intros p' c Hp Hc. rewrite Ep, Ec. destruct Hc as [->|Hc].
    + rewrite Epr. split; [by intros ?%elem_of_nil|].
      intros [He _]. by destruct (no_edge_to_root g Hwf p' Hp).
    + rewrite Epn by done. split.
      * intros Hpc.
        assert (Hpn : p' ∈ nodes g) by (by eapply (wf_closed_p _ Hwf)).
        split; [|intros ->; by apply (root_not_node g Hwf)].
        rewrite Ecn by done. by apply (wf_consistent _ Hwf p' c).
      * intros [Hcp Hne]. destruct Hp as [->|Hp]; [done|].
        rewrite Ecn in Hcp by done. by apply (wf_consistent _ Hwf p' c).
  - intros n [->|Hn]; rewrite Ec.
    + rewrite Ecr. apply NoDup_filter, (wf_handles _ Hwf).
    + rewrite Ecn by done. by apply (wf_nodup_c _ Hwf).
  - intros n [->|Hn]; rewrite Ep.
    + rewrite Epr. apply NoDup_nil_2.
    + rewrite Epn by done. by apply (wf_nodup_p _ Hwf).
  - intros c. rewrite Ec, Ecr. intros Hc%(real_roots_elem g). by apply Hnear.
Qed.

Lemma wf_heap_consistent (h : heap) :
  wf_heap Live root h -> consistent {| objs := h; dag := dag g |}.
Proof.
  intros Hh p c Hp Hc. simpl.
  assert (Hne : p <> root) by (intros ->; by apply (root_not_node g Hwf)).
  pose proof (wh_cons _ _ _ Hh p c (or_intror Hp) (or_intror Hc)). tauto.
Qed.

(** From the surrogate root every job is reached. *)
Lemma root_reaches (n : handle) : Live n -> rtc (edge h0) root n.
Proof.
  intros [->|Hn]; [constructor|].
  destruct (below_a_root g Hwf Hacyc n Hn) as (r & j & Hr & Hp).
  eapply rtc_nsteps_2. apply (from_root_S g Hwf). eauto.
Qed.

(** Everything the properties of [simplify] rest on: with enough fuel
    the labelling loop gives [h1], the elimination loop gives [h2]
    from it, and run once more gives [h3] from [h2]. *)
Lemma simplify_run :
  exists k h1 h2 h3,
    (forall fuel, k <= fuel ->
       assign_levels fuel g = Ok (h1, root) /\
       eliminate fuel root h1 = Ok h2 /\
       simplify fuel g = Ok {| objs := h2; dag := dag g |} /\
       eliminate fuel root h2 = Ok h3) /\
    lvl_only h0 h1 /\
    lvl h1 root = 0%Z /\
    (forall q, q ∈ nodes g ->
       exists L, longest_path g q L /\ lvl h1 q = (Z.of_nat L + 1)%Z) /\
    wf_heap Live root h1 /\ wf_heap Live root h2 /\
    shrunk Live h1 h2 /\
    (forall m, Live m -> settled h2 m) /\
    (forall p c, c ∈ chs h3 p <-> c ∈ chs h2 p) /\
    (forall c p, p ∈ pars h3 c <-> p ∈ pars h2 c) /\
    (forall n, Live n -> sn (plink h1) n).
Proof.
  destruct (assign_levels_spec g Hwf Hacyc Hmodest) as (k1 & h1 & E1 & Ho & Hr0 & Hlv).
  assert (Hwf1 : wf_heap Live root h1).
  { apply with_root_wf; [done|]. intros c Hc. unfold far.
    destruct (Hlv c) as (L & HL & EL); [by destruct Hc|].
    rewrite (root_longest c L Hc HL) in EL. rewrite EL, Hr0. lia. }
  assert (Hacc_c : forall n, Live n -> sn (edge h1) n).
  { intros n Hn. eapply sn_subrel; [|by apply (acc_children g Hwf Hacyc)].
    intros a b. unfold edge. by rewrite (lvl_only_chs _ _ a Ho). }
  assert (Hacc_p : forall n, Live n -> sn (plink h1) n).
  { intros n Hn. eapply sn_subrel; [|by apply acc_plink].
    intros a b. unfold plink. by rewrite (lvl_only_pars _ _ a Ho). }
  assert (Hroot : Live root) by (by left).
  assert (Hin1 : within h1 h1) by done.
  destruct (eliminate_spec h1 Live root Hacc_c Hacc_p h1 Hwf1 Hin1 Hroot)
    as (k2 & h2 & E2 & Hwf2 & Hsh & Hset).
  assert (Hin2 : within h1 h2) by (by eapply within_shrunk).
  assert (Hset' : forall m, Live m -> settled h2 m).
  { intros m Hm. apply Hset.
    eapply (shrunk_rtc Live); [exact Hsh|].
    eapply rtc_subrel; [|by apply root_reaches].
    intros a b. unfold edge. by rewrite (lvl_only_chs _ _ a Ho). }
  destruct (eliminate_settled h1 Live root Hacc_c Hacc_p h2 Hwf2 Hin2 Hroot Hset')
    as (k3 & h3 & E3 & _ & _ & Hchs3 & Hpars3).
  exists (k1 `max` (k2 `max` k3)), h1, h2, h3. split_and!; try done.
  intros fuel Hf.
  assert (Ea : assign_levels fuel g = Ok (h1, root)) by (apply E1; lia).
  assert (Ee : eliminate fuel root h1 = Ok h2) by (apply E2; lia).
  split_and!; [done..| |apply E3; lia].
  unfold simplify. rewrite Ea. simpl. by rewrite Ee.
Qed.

(** *** The graph [simplify] returns *)

Section Output.

Variables h1 h2 : heap.
Hypothesis Ho : lvl_only h0 h1.
Hypothesis Hlv : forall q, q ∈ nodes g ->
  exists L, longest_path g q L /\ lvl h1 q = (Z.of_nat L + 1)%Z.
Hypothesis Hwf2 : wf_heap Live root h2.
Hypothesis Hsh : shrunk Live h1 h2.

Abbreviation g2 := {| objs := h2; dag := dag g |}.

Lemma out_chs (n : handle) : n ∈ nodes g -> chs h2 n ⊆ chs (objs g) n.
Proof.
  intros Hn c Hc. apply (sh_chs _ _ _ Hsh) in Hc.
  rewrite (lvl_only_chs _ _ n Ho) in Hc. unfold chs in *.
  by rewrite (fld_with_root g Hwf) in Hc.
Qed.

Lemma out_pars (n : handle) : n ∈ nodes g -> pars h2 n ⊆ pars (objs g) n.
Proof.
  intros Hn c Hc. apply (sh_pars _ _ _ Hsh) in Hc.
  rewrite (lvl_only_pars _ _ n Ho) in Hc. unfold pars in *.
  by rewrite (fld_with_root g Hwf) in Hc.
Qed.

Lemma out_lvl (q : handle) : lvl h2 q = lvl h1 q.
Proof. apply adj_only_lvl, Hsh. Qed.

Lemma out_wf : wf_graph g2.
Proof.
  constructor; simpl; try apply Hwf.
  - intros n Hn. apply (wh_alloc _ _ _ Hwf2). by right.
  - intros n c Hn Hc. eapply (wf_closed_c _ Hwf); [exact Hn|]. by apply out_chs.
  - intros n p Hn Hp. eapply (wf_closed_p _ Hwf); [exact Hn|]. by apply out_pars.
  - by apply wf_heap_consistent.
  - intros n Hn. apply (wh_nodup_c _ _ _ Hwf2). by right.
  - intros n Hn. apply (wh_nodup_p _ _ _ Hwf2). by right.
Qed.

Lemma out_nsteps (x y : handle) (j : nat) :
  x ∈ nodes g -> nsteps (edge h2) j x y -> nsteps (edge (objs g)) j x y.
Proof.
  intros Hx. induction 1 as [|k x y z Hxy _ IH]; [constructor|].
  apply out_chs in Hxy; [|done].
  econstructor; [exact Hxy|]. apply IH. by eapply (wf_closed_c _ Hwf).
Qed.

Lemma in_nsteps (x y : handle) (j : nat) :
  x ∈ nodes g -> nsteps (edge (objs g)) j x y ->
  exists j', j <= j' /\ nsteps (edge h2) j' x y.
Proof.
  intros Hx Hp. apply (shrunk_nsteps Live h1); [done|].
  eapply nsteps_edge_ext; [|by apply (nsteps_with_root g Hwf)].
  intros q. by apply lvl_only_chs.
Qed.

Lemma out_acyclic : acyclic g2.
Proof.
  intros n Hn Ht. simpl in *. apply tc_nsteps in Ht as (j & Hj & Hp).
  apply (Hacyc n Hn). apply tc_nsteps. exists j. split; [done|].
  by apply out_nsteps.
Qed.

Lemma out_root (r : handle) : is_root g2 r <-> is_root g r.
Proof.
  unfold is_root. simpl. split; intros [Hr Hp]; (split; [done|]).
  - destruct (pars (objs g) r) as [|p ps] eqn:E; [done|].
    assert (Hpr : p ∈ pars (objs g) r) by (rewrite E; left).
    assert (Hpn : p ∈ nodes g) by (by eapply (wf_closed_p _ Hwf)).
    apply (wf_consistent _ Hwf p r Hpn Hr) in Hpr.
    destruct (in_nsteps p r 1 Hpn (nsteps_once p r Hpr)) as (j & Hj & Hpath).
    destruct j as [|j]; [lia|].
    apply nsteps_inv_r in Hpath as (y & Hy & Hyr).
    assert (Hyn : y ∈ nodes g).
    { eapply (nsteps_node g Hwf); [exact Hpn|]. by eapply out_nsteps. }
    apply (wf_consistent _ out_wf y r Hyn Hr) in Hyr. simpl in Hyr.
    rewrite Hp in Hyr. by apply elem_of_nil in Hyr.
  - destruct (pars h2 r) as [|p ps] eqn:E; [done|].
    assert (Hpr : p ∈ pars h2 r) by (rewrite E; left).
    apply out_pars in Hpr; [|done]. rewrite Hp in Hpr. by apply elem_of_nil in Hpr.
Qed.

(** Longest paths have the same length in the graph returned. *)
Lemma out_longest (q : handle) (L : nat) :
  q ∈ nodes g -> longest_path g q L -> longest_path g2 q L.
Proof.
  intros Hq [(r & Hr & Hp) Hmax].
  destruct (in_nsteps r q L (proj1 Hr) Hp) as (L' & HL' & Hp').
  assert (L' <= L).
  { apply (Hmax r); [done|]. apply out_nsteps; [by destruct Hr|done]. }
  assert (L' = L) as -> by lia.
  split.
  - exists r. split; [by apply out_root|done].
  - intros r' j Hr' Hj. apply out_root in Hr'.
    apply (Hmax r'); [done|]. apply out_nsteps; [by destruct Hr'|done].
Qed.

Lemma out_modest : modest_levels g2.
Proof.
  intros q Hq. simpl in Hq. destruct (Hlv q Hq) as (L & HL & EL).
  destruct (out_longest q L Hq HL) as [(r & Hr & Hp) _].
  exists r, L. split_and!; [done..|]. simpl. rewrite out_lvl, EL. lia.
Qed.

End Output.

End Simplify.

(** ** [simplify] applied to what [simplify] has returned *)

Lemma longest_path_unique (g : graph) (q : handle) (L L' : nat) :
  longest_path g q L -> longest_path g q L' -> L = L'.
Proof.
  intros [(r & Hr & Hp) Hmax] [(r' & Hr' & Hp') Hmax'].
  specialize (Hmax r' L' Hr' Hp'). specialize (Hmax' r L Hr Hp). lia.
Qed.

Section Rerun.

Variable g : graph.
Hypothesis Hwf : wf_graph g.
Hypothesis Hacyc : acyclic g.
Hypothesis Hmodest : modest_levels g.

(** The elimination loop run again on the heap [h2] that [simplify]
    has left gives a heap [h3] with the same edges; and a second call
    of [simplify], on the graph the first has returned, returns a
    graph with the same mapping, the same levels and the same edges
    among its jobs. *)
Lemma simplify_rerun :
  exists k h1 h2 h3 h2',
    (forall fuel, k <= fuel ->
       assign_levels fuel g = Ok (h1, length (objs g)) /\
       eliminate fuel (length (objs g)) h1 = Ok h2 /\
       simplify fuel g = Ok {| objs := h2; dag := dag g |} /\
       eliminate fuel (length (objs g)) h2 = Ok h3 /\
       simplify fuel {| objs := h2; dag := dag g |}
       = Ok {| objs := h2'; dag := dag g |}) /\
    (forall p c, c ∈ chs h3 p <-> c ∈ chs h2 p) /\
    (forall c p, p ∈ pars h3 c <-> p ∈ pars h2 c) /\
    (forall q, q ∈ nodes g -> lvl h2' q = lvl h2 q) /\
    (forall p c, p ∈ nodes g -> (c ∈ chs h2' p <-> c ∈ chs h2 p)) /\
    (forall c p, c ∈ nodes g -> (p ∈ pars h2' c <-> p ∈ pars h2 c)).
Proof.
  destruct (simplify_run g Hwf Hacyc Hmodest)
    as (k & h1 & h2 & h3 & E & Ho & _ & Hlv & _ & Hwf2 & Hsh & Hset & Hc3 & Hp3 & _).
  set (g2 := {| objs := h2; dag := dag g |}).
  assert (Hwfg2 : wf_graph g2) by (by apply (out_wf g Hwf h1 h2)).
  assert (Hacyc2 : acyclic g2) by (by apply (out_acyclic g Hwf Hacyc h1 h2)).
  assert (Hmod2 : modest_levels g2) by (by apply (out_modest g Hwf h1 h2)).
  destruct (simplify_run g2 Hwfg2 Hacyc2 Hmod2)
    as (k' & h1' & h2' & h3' & E' & Ho' & _ & Hlv' & _ & Hwf2' & Hsh' & _).
  simpl in *.
  assert (Hfld : forall (A : Type) (f : Job -> A) d q, q ∈ nodes g ->
            fld f d (with_root g2) q = fld f d h2 q).
  { intros A f d q Hq. by apply (fld_with_root g2 Hwfg2). }
  assert (Hlvl : forall q, q ∈ nodes g -> lvl h1' q = lvl h2 q).
  { intros q Hq. destruct (Hlv' q Hq) as (L' & HL' & ->).
    destruct (Hlv q Hq) as (L & HL & EL).
    rewrite (out_lvl g h1 h2 Hsh), EL.
    apply (out_longest g Hwf h1 h2 Ho Hwf2 Hsh q L Hq) in HL.
    by rewrite (longest_path_unique g2 q L L' HL HL'). }
  assert (Hchs1 : forall q, q ∈ nodes g -> chs h1' q = chs h2 q).
  { intros q Hq. rewrite (lvl_only_chs _ _ q Ho'). by apply Hfld. }
  assert (Hpars1 : forall q, pars h1' q ⊆ pars h2 q).
  { intros q. rewrite (lvl_only_pars _ _ q Ho'). unfold pars, fld, with_root.
    destruct (decide (q < length h2)) as [Hq|Hq].
    - by rewrite lookup_app_l.
    - destruct (decide (q = length h2)) as [->|Hne].
      + rewrite list_lookup_middle by done. simpl. apply list_subseteq_nil.
      + rewrite lookup_ge_None_2; [apply list_subseteq_nil|].
        rewrite length_app. simpl. lia. }
  assert (Hchs : forall p c, p ∈ nodes g -> (c ∈ chs h2' p <-> c ∈ chs h2 p)).
  { intros p c Hp. rewrite <- (Hchs1 p Hp). split; [apply Hsh'|]. intros Hc.
    destruct (decide (c ∈ chs h2' p)) as [|Hout]; [done|].
    destruct (sh_why _ _ _ Hsh' p c Hc Hout) as (_ & Hf & Ha).
    rewrite (Hchs1 p Hp) in Hc.
    assert (Hcn : c ∈ nodes g) by (by eapply (wf_closed_c _ Hwfg2)).
    destruct (Hset p (or_intror Hp) c Hc).
    - unfold far in *. by rewrite <- !Hlvl.
    - by eapply alt_mono. }
  exists (k `max` k'), h1, h2, h3, h2'. split_and!; [|done|done| | |].
  - intros fuel Hf. destruct (E fuel) as (? & ? & ? & ?); [lia|].
    destruct (E' fuel) as (_ & _ & ? & _); [lia|]. done.
  - intros q Hq. rewrite (adj_only_lvl h1' h2') by apply Hsh'. by apply Hlvl.
  - done.
  - intros c p Hc. split.
    + intros Hp. by apply Hpars1, (sh_pars _ _ _ Hsh').
    + intros Hp. destruct (decide (p ∈ pars h2' c)) as [|Hout]; [done|].
      assert (Hpn : p ∈ nodes g) by (by eapply (wf_closed_p _ Hwfg2)).
      assert (Hp1 : p ∈ pars h1' c).
      { rewrite (lvl_only_pars _ _ c Ho'). unfold pars. by rewrite Hfld. }
      destruct (sh_why_p _ _ _ Hsh' c p Hp1 Hout) as [Hcp Hncp].
      rewrite (Hchs1 p Hpn) in Hcp. by apply (Hchs p c Hpn) in Hcp.
Qed.

End Rerun.

(** ** What [simplify] leaves alone, on any graph *)

(** [h'] is [h] but for levels and adjacency: identifiers and names
    are those of [h]. *)
Definition same_ids (h h' : heap) : Prop :=
  (fun j => erase_level (erase_adj j)) <$> h' =
  (fun j => erase_level (erase_adj j)) <$> h.

Lemma same_ids_refl (h : heap) : same_ids h h.
Proof. done. Qed.

Lemma same_ids_trans (h1 h2 h3 : heap) :
  same_ids h1 h2 -> same_ids h2 h3 -> same_ids h1 h3.
Proof. unfold same_ids. congruence. Qed.

Lemma lvl_only_same_ids (h h' : heap) : lvl_only h h' -> same_ids h h'.
Proof.
  unfold lvl_only, same_ids. intros H.
  assert (E : forall l : heap,
    (fun j => erase_level (erase_adj j)) <$> l = erase_adj <$> (erase_level <$> l)).
  { intros l. rewrite <- list_fmap_compose. by apply list_fmap_ext. }
  by rewrite !E, H.
Qed.

Lemma adj_only_same_ids (h h' : heap) : adj_only h h' -> same_ids h h'.
Proof.
  unfold adj_only, same_ids. intros H.
  assert (E : forall l : heap,
    (fun j => erase_level (erase_adj j)) <$> l = erase_level <$> (erase_adj <$> l)).
  { intros l. rewrite <- list_fmap_compose. by apply list_fmap_ext. }
  by rewrite !E, H.
Qed.

Lemma same_ids_length (h h' : heap) : same_ids h h' -> length h' = length h.
Proof.
  intros H.
  by rewrite <- (length_fmap (fun j => erase_level (erase_adj j)) h'), H, length_fmap.
Qed.

Lemma same_ids_fld {A : Type} (f : Job -> A) (d : A) (h h' : heap) q :
  (forall j, f (erase_level (erase_adj j)) = f j) ->
  same_ids h h' -> fld f d h' q = fld f d h q.
Proof.
  intros Hf H. assert (E := f_equal (fun l => l !! q) H). simpl in E.
  rewrite !list_lookup_fmap in E. unfold fld.
  destruct (h' !! q) as [j'|], (h !! q) as [j|]; simpl in *; try done.
  assert (E' : erase_level (erase_adj j') = erase_level (erase_adj j)) by congruence.
  by rewrite <- (Hf j'), E', Hf.
Qed.

(** The surrogate root [r] is in no [parents] list. *)
Definition no_parent (r : handle) (h : heap) : Prop :=
  forall q, r ∉ pars h q.

Lemma parents_remove_inv (h h' : heap) (c x : handle) :
  parents_remove h c x = Ok h' ->
  x ∈ pars h c /\ adj_only h h' /\ forall q, pars h' q ⊆ pars h q.
Proof.
  unfold parents_remove. intros H.
  apply bind_Ok in H as (cj & Ed & H). apply bind_Ok in H as (ps & Er & H).
  injection H as <-. apply deref_Ok in Ed.
  assert (Ep : pars h c = parents cj) by (by apply fld_lookup).
  apply py_remove_Ok in Er as (Hx & _ & Hsub).
  assert (Hc : c < length h) by (by eapply lookup_lt_Some).
  split_and!.
  - by rewrite Ep.
  - by apply adj_only_set_parents.
  - intros q. unfold pars in *. rewrite fld_insert by done.
    destruct (decide (q = c)) as [->|]; [|done]. simpl. rewrite Ep.
    by apply sublist_subseteq.
Qed.

Lemma children_remove_inv (h h' : heap) (p x : handle) :
  children_remove h p x = Ok h' ->
  adj_only h h' /\ forall q, pars h' q = pars h q.
Proof.
  unfold children_remove. intros H.
  apply bind_Ok in H as (pj & Ed & H). apply bind_Ok in H as (cs & Er & H).
  injection H as <-. apply deref_Ok in Ed.
  assert (Ep : pars h p = parents pj) by (by apply fld_lookup).
  assert (Hp : p < length h) by (by eapply lookup_lt_Some).
  split.
  - by apply adj_only_set_children.
  - intros q. unfold pars in *. rewrite fld_insert by done.
    destruct (decide (q = p)) as [->|]; [|done]. simpl. by rewrite Ep.
Qed.

Lemma parents_append_inv (h h' : heap) (c x : handle) :
  parents_append h c x = Ok h' ->
  adj_only h h' /\ forall q y, y ∈ pars h' q -> y ∈ pars h q \/ y = x.
Proof.
  unfold parents_append. intros H.
  apply bind_Ok in H as (cj & Ed & H).
  injection H as <-. apply deref_Ok in Ed.
  assert (Ep : pars h c = parents cj) by (by apply fld_lookup).
  assert (Hc : c < length h) by (by eapply lookup_lt_Some).
  split.
  - by apply adj_only_set_parents.
  - intros q y. unfold pars in *. rewrite fld_insert by done.
    destruct (decide (q = c)) as [->|]; [|by left]. simpl. rewrite Ep.
    intros [?|?%list_elem_of_singleton]%elem_of_app; [by left|by right].
Qed.

(** A pass of the body of the elimination loop changes adjacency
    only, and puts in a [parents] list only what it has just taken
    out of it. *)
Lemma examine_frame (F : nat) (n c : handle) (fifo : list handle) (h : heap) st :
  examine F n (fifo, h) c = Ok st ->
  adj_only h st.2 /\ forall r, no_parent r h -> no_parent r st.2.
Proof.
  unfold examine. intros H.
  apply bind_Ok in H as (cj & _ & H). apply bind_Ok in H as (nj & _ & H).
  destruct (decide (level cj - level nj > 1)%Z) as [_|_].
  2:{ injection H as <-. by split. }
  apply bind_Ok in H as (h1 & E1 & H). apply bind_Ok in H as (r & _ & H).
  apply parents_remove_inv in E1 as (Hn & Hadj1 & Hsub1).
  destruct r.
  - apply bind_Ok in H as (h2 & E2 & H). injection H as <-. simpl.
    apply children_remove_inv in E2 as (Hadj2 & Hp2). split.
    + by eapply adj_only_trans.
    + intros r Hr q. rewrite Hp2. intros Hin. by apply (Hr q), Hsub1.
  - apply bind_Ok in H as (h2 & E2 & H). injection H as <-. simpl.
    apply parents_append_inv in E2 as (Hadj2 & Hp2). split.
    + by eapply adj_only_trans.
    + intros r Hr q Hin. apply Hp2 in Hin as [Hin| ->].
      * by apply (Hr q), Hsub1.
      * by apply (Hr c).
Qed.

Lemma examine_all_frame (F : nat) (n : handle) (l : list handle) :
  forall st st', for_each (examine F n) l st = Ok st' ->
  adj_only st.2 st'.2 /\ forall r, no_parent r st.2 -> no_parent r st'.2.
Proof.
  induction l as [|c l IH]; intros st st' H; simpl in H.
  - injection H as <-. by split.
  - apply bind_Ok in H as (st1 & E1 & H). destruct st as [fifo h].
    apply examine_frame in E1 as [Ha1 Hr1].
    apply IH in H as [Ha2 Hr2]. split.
    + by eapply adj_only_trans.
    + intros r Hr. by apply Hr2, Hr1.
Qed.

Lemma eliminate_loop_frame (F fuel : nat) :
  forall fifo h h', eliminate_loop F fuel fifo h = Ok h' ->
  adj_only h h' /\ forall r, no_parent r h -> no_parent r h'.
Proof.
  induction fuel as [|fuel IH]; intros fifo h h' H; simpl in H; [done|].
  destruct (pop fifo) as [[fifo' n]|].
  2:{ injection H as <-. by split. }
  apply bind_Ok in H as (nj & _ & H). apply bind_Ok in H as (st & E & H).
  apply examine_all_frame in E as [Ha1 Hr1]. simpl in *.
  apply IH in H as [Ha2 Hr2]. split.
  - by eapply adj_only_trans.
  - intros r Hr. by apply Hr2, Hr1.
Qed.

Lemma relax_all_frame (n : handle) (l : list handle) :
  forall st st', for_each (relax n) l st = Ok st' -> lvl_only st.2 st'.2.
Proof.
  induction l as [|c l IH]; intros st st' H; simpl in H.
  - by injection H as <-.
  - apply bind_Ok in H as (st1 & E1 & H). destruct st as [fifo h].
    unfold relax in E1.
    apply bind_Ok in E1 as (cj & Ed & E1). apply bind_Ok in E1 as (nj & _ & E1).
    injection E1 as <-. apply deref_Ok in Ed.
    apply IH in H. simpl in *.
    eapply lvl_only_trans; [|exact H]. by apply lvl_only_insert.
Qed.

Lemma level_loop_frame (fuel : nat) :
  forall fifo h h', level_loop fuel fifo h = Ok h' -> lvl_only h h'.
Proof.
  induction fuel as [|fuel IH]; intros fifo h h' H; simpl in H; [done|].
  destruct (pop fifo) as [[fifo' n]|].
  2:{ by injection H as <-. }
  apply bind_Ok in H as (nj & _ & H). apply bind_Ok in H as (st & E & H).
  apply relax_all_frame in E. apply IH in H.
  by eapply lvl_only_trans.
Qed.

(** No reference dangles: the handles in the mapping and in the
    [parents] lists name objects of the heap. *)
Definition heap_closed (g : graph) : Prop :=
  Forall (fun n => n < length (objs g)) (nodes g) /\
  Forall (fun j => Forall (fun p => p < length (objs g)) (parents j)) (objs g).

#[global] Instance heap_closed_dec g : Decision (heap_closed g).
Proof. unfold heap_closed. apply _. Defined.

Lemma heap_closed_pars (g : graph) (q p : handle) :
  heap_closed g -> p ∈ pars (objs g) q -> p < length (objs g).
Proof.
  intros [_ H] Hp. unfold pars, fld in Hp.
  destruct (objs g !! q) as [j|] eqn:E; [|by apply elem_of_nil in Hp].
  rewrite Forall_lookup in H. specialize (H q j E). simpl in Hp.
  rewrite Forall_forall in H. by apply H.
Qed.

(** What a returning call of [simplify] has changed. *)
Lemma simplify_frame (fuel : nat) (g g' : graph) :
  heap_closed g -> simplify fuel g = Ok g' ->
  dag g' = dag g /\
  length (objs g') = S (length (objs g)) /\
  same_ids (objs g) (take (length (objs g)) (objs g')) /\
  ident (objs g') (length (objs g)) = "root" /\
  (length (objs g) ∉ nodes g') /\
  (forall q, length (objs g) ∉ pars (objs g') q).
Proof.
  intros Hcl H.
  assert (Hn : forall n, n ∈ nodes g -> n < length (objs g))
    by (destruct Hcl as [Hn _]; by rewrite Forall_forall in Hn).
  assert (Hp := fun q p => heap_closed_pars g q p Hcl).
  unfold simplify in H.
  apply bind_Ok in H as ([h1 r] & Ea & H). apply bind_Ok in H as (h2 & Ee & H).
  injection H as <-. simpl in *.
  unfold assign_levels in Ea.
  apply bind_Ok in Ea as (roots & _ & Ea). apply bind_Ok in Ea as (hr & Er & Ea).
  apply bind_Ok in Ea as (h1' & El & Ea). injection Ea as <- <-.
  rewrite surrogate_root_spec in Er. injection Er as <-. simpl in *.
  apply level_loop_frame in El. apply eliminate_loop_frame in Ee as [Ha Hr].
  set (hs := objs g ++ [root_job roots]) in *.
  assert (Hs : same_ids hs h2).
  { eapply same_ids_trans; [by apply lvl_only_same_ids|by apply adj_only_same_ids]. }
  assert (Hlen : length h2 = S (length (objs g))).
  { rewrite (same_ids_length _ _ Hs). subst hs. rewrite length_app. simpl. lia. }
  split_and!; [done..| | | |].
  - unfold same_ids in *. rewrite fmap_take, Hs. subst hs.
    rewrite fmap_app, take_app_length'; [done|by rewrite length_fmap].
  - unfold ident. rewrite (same_ids_fld job_id _ hs h2) by done. subst hs.
    rewrite (fld_lookup _ _ _ _ (root_job roots)); [done|].
    by rewrite list_lookup_middle.
  - intros Hin%Hn. lia.
  - apply Hr. intros q Hin. rewrite (lvl_only_pars _ _ q El) in Hin.
    subst hs. unfold pars, fld in Hin.
    destruct (decide (q < length (objs g))) as [Hq|Hq].
    + rewrite lookup_app_l in Hin by done. apply Hp in Hin. lia.
    + destruct (decide (q = length (objs g))) as [->|Hne].
      * rewrite list_lookup_middle in Hin by done. by apply elem_of_nil in Hin.
      * rewrite lookup_ge_None_2 in Hin; [by apply elem_of_nil in Hin|].
        rewrite length_app. simpl. lia.
Qed.

(** ** The colours [emit_dot] gives *)

(** The names met so far, in the order they were first met. *)
Definition seen_step (seen : list string) (n : string) : list string :=
  if decide (n ∈ seen) then seen else seen ++ [n].

Definition first_seen (names : list string) : list string :=
  fold_left seen_step names [].

(** The index of the first [n] in [l]. *)
Fixpoint position (n : string) (l : list string) : nat :=
  match l with
  | [] => 0
  | x :: l' => if decide (x = n) then 0 else S (position n l')
  end.

(** [l] with its elements numbered from [k] on. *)
Fixpoint numbered (k : nat) (l : list string) : list (string * nat) :=
  match l with
  | [] => []
  | n :: l' => (n, k) :: numbered (S k) l'
  end.

Definition names_of (h : heap) (d : dict) : list string :=
  (fun kv => nm h kv.2) <$> d.

(** The names of the jobs of the graph, each once, in the order in
    which the loop over [dag] first meets them. *)
Definition distinct_names (g : graph) : list string :=
  first_seen (names_of (objs g) (dag g)).

(** The statement written for an entry of [dag]. *)
Definition stmt_of (use_xforms : bool) (h : heap) (seen : list string)
    (kv : string * handle) : string :=
  node_stmt (replace_dash (ident h kv.2))
            (default EmptyString (COLORS !! position (nm h kv.2) seen))
            (if use_xforms then nm h kv.2 else replace_dash (ident h kv.2)).

Lemma position_app (n : string) (l l' : list string) :
  n ∈ l -> position n (l ++ l') = position n l.
Proof.
  induction l as [|x l IH]; intros Hn; [by apply elem_of_nil in Hn|].
  simpl. destruct (decide (x = n)); [done|].
  apply elem_of_cons in Hn as [->|Hn]; [done|]. by rewrite IH.
Qed.

Lemma position_lt (n : string) (l : list string) :
  n ∈ l -> position n l < length l.
Proof.
  induction l as [|x l IH]; intros Hn; [by apply elem_of_nil in Hn|].
  simpl. destruct (decide (x = n)); [lia|].
  apply elem_of_cons in Hn as [->|Hn]; [done|]. specialize (IH Hn). lia.
Qed.

Lemma position_lookup (n : string) (l : list string) :
  n ∈ l -> l !! position n l = Some n.
Proof.
  induction l as [|x l IH]; intros Hn; [by apply elem_of_nil in Hn|].
  simpl. destruct (decide (x = n)) as [->|Hne]; [done|].
  apply elem_of_cons in Hn as [->|Hn]; [done|]. by apply IH.
Qed.

Lemma position_snoc (n : string) (l : list string) :
  n ∉ l -> position n (l ++ [n]) = length l.
Proof.
  induction l as [|x l IH]; intros Hn; simpl.
  - by rewrite decide_True.
  - apply not_elem_of_cons in Hn as [Hne Hn].
    rewrite decide_False by done. by rewrite IH.
Qed.

Lemma numbered_lookup (k : nat) (l : list string) (n : string) :
  dict_lookup (numbered k l) n =
  if decide (n ∈ l) then Some (k + position n l) else None.
Proof.
  revert k. induction l as [|x l IH]; intros k; simpl; [done|].
  destruct (decide (x = n)) as [->|Hne].
  - rewrite decide_True by left. f_equal. lia.
  - rewrite IH. destruct (decide (n ∈ l)).
    + rewrite decide_True by by right. f_equal. lia.
    + rewrite decide_False; [done|]. intros [?|?]%elem_of_cons; congruence.
Qed.

Lemma numbered_set (k : nat) (l : list string) (n : string) :
  n ∉ l -> dict_set (numbered k l) n (k + length l) = numbered k (l ++ [n]).
Proof.
  revert k. induction l as [|x l IH]; intros k Hn; simpl.
  - by rewrite Nat.add_0_r.
  - apply not_elem_of_cons in Hn as [Hne Hn].
    rewrite decide_False by done. f_equal.
    rewrite <- IH by done. f_equal. lia.
Qed.

Lemma seen_step_elem (seen : list string) (n m : string) :
  m ∈ seen_step seen n <-> m ∈ seen \/ m = n.
Proof.
  unfold seen_step. destruct (decide (n ∈ seen)).
  - split; [by left|]. by intros [?| ->].
  - rewrite elem_of_app, list_elem_of_singleton. done.
Qed.

Lemma seen_step_NoDup (seen : list string) (n : string) :
  NoDup seen -> NoDup (seen_step seen n).
Proof.
  unfold seen_step. intros H. destruct (decide (n ∈ seen)); [done|].
  apply NoDup_app. split_and!; [done| |apply NoDup_singleton].
  by intros x Hx ->%list_elem_of_singleton.
Qed.

Lemma seen_fold_spec (ns seen : list string) :
  NoDup seen ->
  NoDup (fold_left seen_step ns seen) /\
  (exists l, fold_left seen_step ns seen = seen ++ l) /\
  (forall m, m ∈ fold_left seen_step ns seen <-> m ∈ seen \/ m ∈ ns).
Proof.
  revert seen. induction ns as [|n ns IH]; intros seen Hnd; simpl.
  - split_and!; [done|exists []; by rewrite app_nil_r|].
    intros m. split; [by left|]. by intros [?|?%elem_of_nil].
  - destruct (IH (seen_step seen n) (seen_step_NoDup _ _ Hnd)) as (H1 & [l H2] & H3).
    split_and!; [done| |].
    + rewrite H2. unfold seen_step. destruct (decide (n ∈ seen)); [by exists l|].
      exists ([n] ++ l). by rewrite app_assoc.
    + intros m. rewrite H3, seen_step_elem, elem_of_cons. tauto.
Qed.

Lemma first_seen_snoc (ns : list string) (n : string) :
  first_seen (ns ++ [n]) = seen_step (first_seen ns) n.
Proof. unfold first_seen. by rewrite fold_left_app. Qed.

Lemma first_seen_NoDup (ns : list string) : NoDup (first_seen ns).
Proof. apply seen_fold_spec, NoDup_nil_2. Qed.

Lemma first_seen_elem (ns : list string) (m : string) :
  m ∈ first_seen ns <-> m ∈ ns.
Proof.
  destruct (seen_fold_spec ns [] (NoDup_nil_2)) as (_ & _ & H).
  unfold first_seen. rewrite H. split; [by intros [?%elem_of_nil|?]|by right].
Qed.

(** What was seen after a prefix stays where it is. *)
Lemma first_seen_app (ns ns' : list string) :
  exists l, first_seen (ns ++ ns') = first_seen ns ++ l.
Proof.
  unfold first_seen. rewrite fold_left_app.
  apply seen_fold_spec, first_seen_NoDup.
Qed.

Section EmitDot.

Variable g : graph.
Hypothesis Hwf : wf_graph g.
Variable ux : bool.

(** The state of the first loop once the entries [seen_d] of [dag]
    are done. *)
Definition emitted (seen_d : dict) (st : emitter) : Prop :=
  (forall q, e_objs st !! q =
     (fun j => if decide (q ∈ seen_d.*2)
               then set_id j (replace_dash (job_id j)) else j) <$> objs g !! q) /\
  xforms st = numbered 0 (first_seen (names_of (objs g) seen_d)) /\
  next_color st = length (first_seen (names_of (objs g) seen_d)) /\
  out st = header ::
    (stmt_of ux (objs g) (first_seen (names_of (objs g) seen_d)) <$> seen_d).

Lemma stmt_of_seen_step (seen_d : dict) (n : string) :
  stmt_of ux (objs g) (seen_step (first_seen (names_of (objs g) seen_d)) n)
    <$> seen_d =
  stmt_of ux (objs g) (first_seen (names_of (objs g) seen_d)) <$> seen_d.
Proof.
  apply list_fmap_ext. intros i kv Hkv. unfold stmt_of. do 3 f_equal.
  assert (Hin : nm (objs g) kv.2 ∈ first_seen (names_of (objs g) seen_d)).
  { apply first_seen_elem. unfold names_of. apply list_elem_of_fmap.
    exists kv. split; [done|]. by eapply list_elem_of_lookup_2. }
  unfold seen_step. destruct (decide (n ∈ _)); [done|].
  by rewrite position_app.
Qed.

(** The first loop over the entries [rest] of [dag], which may stop
    short of its end [tail]. *)
Lemma emit_nodes_prefix (rest tail : dict) :
  forall seen_d st, dag g = seen_d ++ rest ++ tail -> emitted seen_d st ->
  length (first_seen (names_of (objs g) (seen_d ++ rest))) <= 20 ->
  exists st',
    for_each (emit_node (dag g) ux) rest.*1 st = Ok st' /\
    emitted (seen_d ++ rest) st'.
Proof.
  induction rest as [|[k v] rest IH]; intros seen_d st Hd Hst Hlen.
  - exists st. by rewrite app_nil_r.
  - destruct Hst as (Hh & Hx & Hn & Ho).
    assert (Hin : (k, v) ∈ dag g).
    { rewrite Hd. apply elem_of_app. right. simpl. left. }
    assert (Hv : v ∈ nodes g) by (apply nodes_elem; eauto).
    assert (Hnew : v ∉ seen_d.*2).
    { pose proof (wf_handles _ Hwf) as Hnd. unfold nodes in Hnd.
      rewrite Hd, fmap_app in Hnd. apply NoDup_app in Hnd as (_ & Hnd & _).
      intros Hv'. apply (Hnd v Hv'). simpl. left. }
    destruct (lookup_lt_is_Some_2 (objs g) v (wf_alloc _ Hwf v Hv)) as [j Ej].
    assert (Ej' : e_objs st !! v = Some j).
    { rewrite Hh, Ej. simpl. by rewrite decide_False. }
    set (n := job_name j).
    assert (En : nm (objs g) v = n) by (by apply fld_lookup).
    assert (Ei : ident (objs g) v = job_id j) by (by apply fld_lookup).
    set (seen := first_seen (names_of (objs g) seen_d)) in *.
    set (seen' := seen_step seen n).
    assert (Eseen' : first_seen (names_of (objs g) (seen_d ++ [(k, v)])) = seen').
    { unfold names_of. rewrite fmap_app. simpl. rewrite first_seen_snoc.
      by rewrite En. }
    assert (Hn' : n ∈ seen') by (apply seen_step_elem; by right).
    assert (Hbound : position n seen' < 20).
    { apply position_lt in Hn'.
      destruct (first_seen_app (names_of (objs g) (seen_d ++ [(k, v)]))
                  (names_of (objs g) rest)) as [l El].
      replace (seen_d ++ (k, v) :: rest) with ((seen_d ++ [(k, v)]) ++ rest) in Hlen
        by (by rewrite <- app_assoc).
      unfold names_of in Hlen at 1. rewrite fmap_app in Hlen.
      fold (names_of (objs g) (seen_d ++ [(k, v)])) in Hlen.
      fold (names_of (objs g) rest) in Hlen.
      rewrite El, Eseen', length_app in Hlen. lia. }
    destruct (lookup_lt_is_Some_2 COLORS (position n seen') Hbound) as [c Ec].
    assert (Estep : emit_node (dag g) ux st k = Ok
      {| e_objs := <[v := set_id j (replace_dash (job_id j))]> (e_objs st);
         xforms := numbered 0 seen';
         next_color := length seen';
         out := out st ++ [stmt_of ux (objs g) seen' (k, v)] |}).
    { unfold emit_node. rewrite (dict_get_wf g Hwf k v Hin). simpl.
      unfold deref. rewrite Ej'. simpl. fold n.
      rewrite Hx, Hn, numbered_lookup. subst seen'. unfold seen_step.
      unfold seen_step in Ec.
      destruct (decide (n ∈ seen)) as [Hs|Hs]; simpl.
      - unfold dict_get. rewrite numbered_lookup, decide_True by done. simpl.
        rewrite Ec. simpl. unfold stmt_of. simpl. rewrite En, Ei, Ec. done.
      - assert (Eset : dict_set (numbered 0 seen) n (length seen)
                       = numbered 0 (seen ++ [n]))
          by exact (numbered_set 0 seen n Hs).
        rewrite !Eset.
        unfold dict_get. rewrite numbered_lookup.
        rewrite decide_True by (apply elem_of_app; right; left). simpl.
        rewrite Ec. simpl. unfold stmt_of. simpl. rewrite En, Ei, Ec.
        rewrite length_app. simpl. by rewrite Nat.add_1_r. }
    destruct (IH (seen_d ++ [(k, v)])
      {| e_objs := <[v := set_id j (replace_dash (job_id j))]> (e_objs st);
         xforms := numbered 0 seen';
         next_color := length seen';
         out := out st ++ [stmt_of ux (objs g) seen' (k, v)] |})
      as (st' & E & Hst'); [by rewrite <- app_assoc| |by rewrite <- app_assoc|].
    { unfold emitted. rewrite Eseen'. split_and!; simpl; [|done..|].
      - intros q. destruct (decide (q = v)) as [->|Hne].
        + rewrite list_lookup_insert_eq by (by eapply lookup_lt_Some).
          rewrite Ej. simpl. rewrite decide_True; [done|].
          rewrite fmap_app. apply elem_of_app. right. left.
        + rewrite list_lookup_insert_ne by done. rewrite Hh.
          destruct (objs g !! q); simpl; [|done]. f_equal.
          rewrite fmap_app. simpl.
          destruct (decide (q ∈ seen_d.*2)).
          * rewrite decide_True; [done|]. apply elem_of_app. by left.
          * rewrite decide_False; [done|].
            intros [?|?%list_elem_of_singleton]%elem_of_app; done.
      - rewrite Ho, fmap_app. simpl. f_equal. f_equal.
        symmetry. apply stmt_of_seen_step. }
    exists st'. change (((k, v) :: rest).*1) with (k :: rest.*1).
    cbn [for_each]. rewrite Estep. cbn [bind]. rewrite E. split; [done|].
    by rewrite <- app_assoc in Hst'.
Qed.

Lemma emit_nodes_spec (rest : dict) :
  forall seen_d st, dag g = seen_d ++ rest -> emitted seen_d st ->
  length (distinct_names g) <= 20 ->
  exists st',
    for_each (emit_node (dag g) ux) rest.*1 st = Ok st' /\
    emitted (seen_d ++ rest) st'.
Proof.
  intros seen_d st Hd Hst Hlen. apply (emit_nodes_prefix rest []); [|done|].
  - by rewrite app_nil_r.
  - unfold distinct_names in Hlen. by rewrite Hd in Hlen.
Qed.

Lemma emit_edges_spec (h : heap) :
  length h = length (objs g) ->
  (forall q, chs h q = chs (objs g) q) ->
  forall ks o, ks ⊆ dict_keys (dag g) ->
  exists o', for_each (emit_edges (dag g) h) ks o = Ok o'.
Proof.
  intros Hlen Hchs. induction ks as [|k ks IH]; intros o Hks; [by exists o|].
  destruct (dict_get_elem (dag g) k) as (v & Eg & Hin); [apply Hks; left|].
  assert (Hv : v ∈ nodes g) by (apply nodes_elem; eauto).
  destruct (deref_lt h v) as (j & Ed & El);
    [rewrite Hlen; by apply (wf_alloc _ Hwf)|].
  assert (Ec : children j = chs (objs g) v).
  { rewrite <- Hchs. symmetry. by apply fld_lookup. }
  assert (Hinner : forall cs o1, (forall c, c ∈ cs -> c < length h) ->
    exists o2, for_each (fun o c => cj <- deref h c ;;
                           Ok (o ++ [edge_stmt (job_id j) (job_id cj)])) cs o1
               = Ok o2).
  { induction cs as [|c cs IHc]; intros o1 Hcs; [by exists o1|].
    destruct (deref_lt h c) as (cj & Ecj & _); [apply Hcs; left|].
    simpl. rewrite Ecj. simpl. apply IHc. intros c' Hc'. apply Hcs. by right. }
  destruct (Hinner (children j) o) as (o1 & E1).
  { intros c Hc. rewrite Ec in Hc. rewrite Hlen.
    apply (wf_alloc _ Hwf). by eapply (wf_closed_c _ Hwf). }
  destruct (IH o1) as (o' & E'); [intros x Hx; apply Hks; by right|].
  exists o'. simpl. unfold emit_edges at 1. rewrite Eg. simpl. rewrite Ed. simpl.
  by rewrite E1.
Qed.

(** [emit_dot] on a well-formed graph with at most 20 distinct names:
    it returns, and after the header it has written one statement for
    each entry of [dag], in order, whose colour is the palette entry
    at the rank of the job's name among the distinct names. *)
Lemma emit_dot_spec :
  length (distinct_names g) <= 20 ->
  exists h' rest,
    emit_dot ux g = Ok (h', header ::
      (stmt_of ux (objs g) (distinct_names g) <$> dag g) ++ rest).
Proof.
  intros Hlen. unfold emit_dot.
  destruct (emit_nodes_spec (dag g) []
    {| e_objs := objs g; xforms := []; next_color := 0; out := [header] |})
    as (st & E & Hh & _ & _ & Ho); [done| |done|].
  { unfold emitted. simpl. split_and!; try done. intros q.
    destruct (objs g !! q); by simpl. }
  unfold dict_keys. rewrite E. cbn [bind]. simpl in Hh, Ho.
  destruct (emit_edges_spec (e_objs st)) with (ks := (dag g).*1)
    (o := out st ++ [nl]) as (o & Eo); [| |done|].
  { destruct (Nat.lt_trichotomy (length (e_objs st)) (length (objs g)))
      as [H|[H|H]]; [|done|].
    - apply lookup_lt_is_Some_2 in H as [j Hj].
      specialize (Hh (length (e_objs st))). rewrite Hj in Hh. simpl in Hh.
      apply lookup_lt_Some in Hh. lia.
    - apply lookup_lt_is_Some_2 in H as [j Hj].
      specialize (Hh (length (objs g))). rewrite Hj in Hh.
      rewrite lookup_ge_None_2 in Hh by lia. done. }
  { intros q. unfold chs, fld. rewrite Hh. destruct (objs g !! q); [|done].
    simpl. by destruct (decide (q ∈ (dag g).*2)). }
  rewrite Eo. simpl.
  assert (Hpre : exists r, o = (out st ++ [nl]) ++ r).
  { clear -Eo. revert Eo. generalize (out st ++ [nl]) as o0.
    generalize ((dag g).*1) as ks.
    induction ks as [|k ks IH]; intros o0 H; simpl in H.
    - injection H as <-. exists []. by rewrite app_nil_r.
    - apply bind_Ok in H as (o1 & E1 & H).
      apply IH in H as [r ->].
      assert (exists r1, o1 = o0 ++ r1) as [r1 ->].
      { clear -E1. unfold emit_edges in E1.
        apply bind_Ok in E1 as (jh & _ & E1). apply bind_Ok in E1 as (j & _ & E1).
        revert o0 E1. induction (children j) as [|c cs IHc]; intros o0 H; simpl in H.
        - injection H as <-. exists []. by rewrite app_nil_r.
        - apply bind_Ok in H as (o2 & E2 & H). apply bind_Ok in E2 as (cj & _ & E2).
          injection E2 as <-. apply IHc in H as [r1 ->].
          eexists. by rewrite <- app_assoc. }
      eexists. by rewrite <- app_assoc. }
  destruct Hpre as [r ->]. rewrite Ho. eexists _, _.
  f_equal. f_equal. simpl. f_equal. rewrite <- !app_assoc. reflexivity.
Qed.

End EmitDot.

(** ** The three stages together *)

(** What the filter returns is fit for [simplify]. *)
Lemma remove_xforms_admissible (g : graph) (xs : list string) :
  wf_graph g -> acyclic g -> fresh_levels g ->
  exists g',
    remove_xforms g xs = Ok g' /\
    wf_graph g' /\ acyclic g' /\ fresh_levels g' /\
    length (distinct_names g') <= length (distinct_names g).
Proof.
  intros Hwf Hacyc Hfresh.
  destruct (remove_xforms_spec g xs Hwf)
    as (g' & E & Hwf' & _ & Hnm & Hlvl & Hsub & Hdag).
  assert (Hnodes : forall n, n ∈ nodes g' -> n ∈ nodes g).
  { intros n. unfold nodes. rewrite Hdag.
    intros ([k v] & -> & [_ Hin]%list_elem_of_filter)%list_elem_of_fmap.
    apply list_elem_of_fmap. by exists (k, v). }
  exists g'. split_and!; [done..| | |].
  - intros n Hn Ht. apply (Hacyc n (Hnodes n Hn)).
    assert (H : forall x y, tc (edge (objs g')) x y -> x ∈ nodes g' ->
                tc (edge (objs g)) x y); [|by apply H].
    clear n Hn Ht. induction 1 as [x y H|x y z H _ IH]; intros Hx.
    + apply tc_once. by apply Hsub.
    + eapply tc_l; [by apply Hsub|]. apply IH.
      by eapply (wf_closed_c _ Hwf').
  - intros n Hn. rewrite Hlvl. by apply Hfresh, Hnodes.
  - apply submseteq_length, NoDup_submseteq; [apply first_seen_NoDup|].
    intros n. unfold distinct_names. rewrite !first_seen_elem. unfold names_of.
    rewrite Hdag.
    intros ([k v] & -> & [_ Hin]%list_elem_of_filter)%list_elem_of_fmap.
    apply list_elem_of_fmap. exists (k, v). by rewrite Hnm.
Qed.

(** What [simplify] returns is fit for [emit_dot]. *)
Lemma simplify_admissible (g : graph) :
  wf_graph g -> acyclic g -> fresh_levels g ->
  exists k g',
    (forall fuel, k <= fuel -> simplify fuel g = Ok g') /\
    wf_graph g' /\ distinct_names g' = distinct_names g.
Proof.
  intros Hwf Hacyc Hfresh.
  destruct (simplify_run g Hwf Hacyc (fresh_modest g Hwf Hacyc Hfresh))
    as (k & h1 & h2 & h3 & E & Ho & _ & Hlv & _ & Hwf2 & Hsh & _).
  exists k, {| objs := h2; dag := dag g |}. split_and!.
  - intros fuel Hf. by destruct (E fuel Hf) as (_ & _ & ? & _).
  - by apply (out_wf g Hwf h1 h2).
  - unfold distinct_names, names_of. simpl. f_equal.
    apply list_fmap_ext. intros i [key v] Hin. simpl.
    rewrite (adj_only_nm h1 h2) by apply Hsh. rewrite (lvl_only_nm _ _ v Ho).
    apply (fld_with_root g Hwf). apply nodes_elem. exists key.
    by eapply list_elem_of_lookup_2.
Qed.

(** On a well-formed acyclic graph with fresh levels and at most 20
    distinct names [main] writes its output, whatever the options. *)
Lemma main_returns (o : options) (g : graph) :
  wf_graph g -> acyclic g -> fresh_levels g ->
  length (distinct_names g) <= 20 ->
  exists k res, forall fuel, k <= fuel -> main fuel o g = Ok res.
Proof.
  intros Hwf Hacyc Hfresh Hlen.
  destruct (remove_xforms_admissible g (opt_remove o) Hwf Hacyc Hfresh)
    as (g1 & E1 & Hwf1 & Hacyc1 & Hfresh1 & Hlen1).
  destruct (opt_simplify o) eqn:Eo.
  - destruct (simplify_admissible g1 Hwf1 Hacyc1 Hfresh1) as (k & g2 & E2 & Hwf2 & Hn2).
    destruct (emit_dot_spec g2 Hwf2 (opt_xforms o)) as (h' & rest & E3);
      [rewrite Hn2; lia|].
    exists k. eexists. intros fuel Hf. unfold main.
    rewrite E1. simpl. rewrite Eo, (E2 fuel Hf). simpl. exact E3.
  - destruct (emit_dot_spec g1 Hwf1 (opt_xforms o)) as (h' & rest & E3); [lia|].
    exists 0. eexists. intros fuel _. unfold main.
    rewrite E1. simpl. rewrite Eo. simpl. exact E3.
Qed.

(** ** A decidable sufficient condition for well-formedness *)

(** Everything [wf_graph], [acyclic] and [fresh_levels] ask for, in a
    form that can be computed; acyclicity is witnessed by a ranking
    that grows along every edge. *)
Definition graph_ok (rank : handle -> nat) (g : graph) : Prop :=
  NoDup (dict_keys (dag g)) /\ NoDup (nodes g) /\
  Forall (fun n =>
    n < length (objs g) /\
    Forall (fun c => c ∈ nodes g /\ n ∈ pars (objs g) c /\ rank n < rank c)
           (chs (objs g) n) /\
    Forall (fun p => p ∈ nodes g /\ n ∈ chs (objs g) p) (pars (objs g) n) /\
    NoDup (chs (objs g) n) /\ NoDup (pars (objs g) n) /\
    lvl (objs g) n = 0%Z) (nodes g).

#[global] Instance graph_ok_dec rank g : Decision (graph_ok rank g).
Proof. unfold graph_ok. apply _. Defined.

Lemma graph_ok_sound (rank : handle -> nat) (g : graph) :
  graph_ok rank g -> wf_graph g /\ acyclic g /\ fresh_levels g.
Proof.
  intros (Hk & Hh & Hall). rewrite Forall_forall in Hall.
  assert (Hwf : wf_graph g).
  { constructor; try done.
    - intros n Hn. by apply Hall.
    - intros n c Hn Hc. destruct (Hall n Hn) as (_ & H & _).
      rewrite Forall_forall in H. by apply H.
    - intros n p' Hn Hp. destruct (Hall n Hn) as (_ & _ & H & _).
      rewrite Forall_forall in H. by apply H.
    - intros p' c Hp Hc. split.
      + intros Hpc. destruct (Hall p' Hp) as (_ & H & _).
        rewrite Forall_forall in H. by apply H.
      + intros Hcp. destruct (Hall c Hc) as (_ & _ & H & _).
        rewrite Forall_forall in H. by apply H.
    - intros n Hn. by apply Hall.
    - intros n Hn. by apply Hall. }
  split_and!; [done| |].
  - intros n Hn Ht.
    assert (H : forall x y, tc (edge (objs g)) x y -> x ∈ nodes g -> rank x < rank y).
    { clear n Hn Ht. induction 1 as [x y Hxy|x y z Hxy _ IH]; intros Hx.
      - destruct (Hall x Hx) as (_ & H & _). rewrite Forall_forall in H.
        by apply H.
      - destruct (Hall x Hx) as (_ & H & _). rewrite Forall_forall in H.
        destruct (H y Hxy) as (Hy & _ & Hlt). specialize (IH Hy). lia. }
    specialize (H n n Ht Hn). lia.
  - intros n Hn. by apply Hall.
Qed.

(** ** Sample graphs *)

Definition add_edge (h : heap) (p c : handle) : heap :=
  match h !! p, h !! c with
  | Some pj, Some cj =>
      <[c := set_parents cj (parents cj ++ [p])]>
        (<[p := set_children pj (children pj ++ [c])]> h)
  | _, _ => h
  end.

(** The chain A -> B -> C. *)
Definition chain_objs : heap :=
  add_edge (add_edge [new_Job "A" "A"; new_Job "B" "B"; new_Job "C" "C"] 0 1) 1 2.

(** The diamond A -> B, A -> C, B -> D, C -> D with the shortcut A -> D. *)
Definition diamond : graph :=
  {| objs := add_edge (add_edge (add_edge (add_edge (add_edge
       [new_Job "A" "A"; new_Job "B" "B"; new_Job "C" "C"; new_Job "D" "D"]
       0 1) 0 2) 1 3) 2 3) 0 3;
     dag := [("A", 0); ("B", 1); ("C", 2); ("D", 3)] |}.

Lemma diamond_ok : wf_graph diamond /\ acyclic diamond /\ fresh_levels diamond.
Proof.
  apply (graph_ok_sound id).
  apply (bool_decide_unpack _ (dec := graph_ok_dec id diamond)). by vm_compute.
Qed.

(** A single job. *)
Definition single : graph :=
  {| objs := [new_Job "A" "A"]; dag := [("A", 0)] |}.

(** Twenty-one jobs without edges, named a, b, ... u. *)
Definition letters : list string :=
  (fun i => String (Ascii.ascii_of_nat (97 + i)) EmptyString) <$> seq 0 21.

Definition many_names : graph :=
  {| objs := (fun n => new_Job n n) <$> letters;
     dag := imap (fun i n => (n, i)) letters |}.

(** Two jobs whose identifiers differ by a dash only. *)
Definition dashes : graph :=
  {| objs := [new_Job "a-b" "a-b"; new_Job "a_b" "a_b"];
     dag := [("a-b", 0); ("a_b", 1)] |}.

(** Two roots A and B, with A -> C, B -> D and D -> C: the edge A -> C
    spans two levels and nothing doubles it. *)
Definition kite : graph :=
  {| objs := add_edge (add_edge (add_edge
       [new_Job "A" "A"; new_Job "B" "B"; new_Job "C" "C"; new_Job "D" "D"]
       0 2) 1 3) 3 2;
     dag := [("A", 0); ("B", 1); ("C", 2); ("D", 3)] |}.

(** The diamond: the job D ends at level 3, the shortcut A -> D is
    removed and the four other edges stay. *)
Example diamond_simplified :
  exists h,
    simplify 20 diamond = Ok {| objs := h; dag := dag diamond |} /\
    lvl h <$> [0; 1; 2; 3] = [1; 2; 2; 3]%Z /\
    chs h <$> [0; 1; 2; 3] = [[1; 2]; [3]; [3]; []] /\
    pars h <$> [0; 1; 2; 3] = [[]; [0]; [0]; [1; 2]].
Proof. eexists. split; [vm_compute; reflexivity|]. by vm_compute. Qed.

(** The kite: the edge A -> C is taken out of [C.parents], found
    necessary and put back, at the end of the list. *)
Example kite_simplified :
  pars (objs kite) 2 = [0; 3] /\
  exists h,
    simplify 20 kite = Ok {| objs := h; dag := dag kite |} /\
    lvl h <$> [0; 1; 2; 3] = [1; 1; 3; 2]%Z /\
    chs h <$> [0; 1; 2; 3] = [[2]; [3]; []; [2]] /\
    pars h <$> [0; 1; 2; 3] = [[]; []; [3; 0]; [1]].
Proof.
  split; [reflexivity|]. eexists. split; [vm_compute; reflexivity|]. by vm_compute.
Qed.

(** ** The properties of the filter and of the simplifier *)

(** C5.  On a well-formed graph [remove_xforms] returns; the mapping
    keeps exactly the jobs whose name is not listed; and no job that
    remains has a removed job among its parents or its children. *)
Theorem remove_xforms_no_reference (g : graph) (xs : list string) :
  wf_graph g ->
  exists g',
    remove_xforms g xs = Ok g' /\
    dag g' = filter (fun kv => nm (objs g) kv.2 ∉ xs) (dag g) /\
    forall x, x ∈ nodes g -> x ∉ nodes g' ->
      forall q, q ∈ nodes g' ->
        (x ∉ pars (objs g') q) /\ (x ∉ chs (objs g') q).
Proof.
  intros Hwf.
  destruct (remove_xforms_spec g xs Hwf) as (g' & E & Hwf' & _ & _ & _ & _ & Hdag).
  exists g'. split_and!; [done..|].
  intros x Hx Hgone q Hq. split; intros Hin; apply Hgone.
  - by eapply (wf_closed_p _ Hwf').
  - by eapply (wf_closed_c _ Hwf').
Qed.

Lemma remove_xforms_no_reference_witness :
  exists g',
    remove_xforms diamond ["B"; "C"] = Ok g' /\
    dag g' = filter (fun kv => nm (objs diamond) kv.2 ∉ ["B"; "C"]) (dag diamond) /\
    forall x, x ∈ nodes diamond -> x ∉ nodes g' ->
      forall q, q ∈ nodes g' ->
        (x ∉ pars (objs g') q) /\ (x ∉ chs (objs g') q).
Proof.
  apply (remove_xforms_no_reference diamond ["B"; "C"]).
  apply (graph_ok_sound id).
  apply (bool_decide_unpack _ (dec := graph_ok_dec id diamond)). by vm_compute.
Defined.

(** C1.  On a well-formed acyclic graph with fresh levels, with
    enough fuel [simplify] returns, and reachability along
    child-direction edges, by any path or by a path of at least one
    edge, is the same after its elimination loop ([h2]) as before it
    ([h1]), which in turn is that of the input graph. *)
Theorem elimination_preserves_reachability (g : graph) :
  wf_graph g -> acyclic g -> fresh_levels g ->
  exists k h1 h2,
    (forall fuel, k <= fuel ->
       assign_levels fuel g = Ok (h1, length (objs g)) /\
       eliminate fuel (length (objs g)) h1 = Ok h2 /\
       simplify fuel g = Ok {| objs := h2; dag := dag g |}) /\
    (forall a b, rtc (edge h2) a b <-> rtc (edge h1) a b) /\
    (forall a b, tc (edge h2) a b <-> tc (edge h1) a b) /\
    (forall a b, a ∈ nodes g ->
       (rtc (edge h1) a b <-> rtc (edge (objs g)) a b)).
Proof.
  intros Hwf Hacyc Hfresh.
  destruct (simplify_run g Hwf Hacyc (fresh_modest g Hwf Hacyc Hfresh))
    as (k & h1 & h2 & h3 & E & Ho & _ & _ & _ & _ & Hsh & _).
  exists k, h1, h2. split_and!.
  - intros fuel Hf. destruct (E fuel Hf) as (? & ? & ? & _). done.
  - intros a b. split.
    + by apply (rtc_edge_shrunk (live g)).
    + by apply (shrunk_rtc (live g)).
  - intros a b. split.
    + apply tc_subrel. intros x y. apply (sh_chs _ _ _ Hsh).
    + intros (j & Hj & Hp)%tc_nsteps.
      destruct (shrunk_nsteps (live g) h1 h2 j a b Hsh Hp) as (j' & Hj' & Hp').
      apply tc_nsteps. exists j'. split; [lia|done].
  - intros a b Ha. rewrite !rtc_nsteps. split; intros [j Hj]; exists j.
    + apply (nsteps_with_root g Hwf); [done|].
      eapply nsteps_edge_ext; [|exact Hj]. intros q. symmetry.
      by apply lvl_only_chs.
    + eapply nsteps_edge_ext; [|by apply (nsteps_with_root g Hwf)].
      intros q. by apply lvl_only_chs.
Qed.

Lemma elimination_preserves_reachability_witness :
  exists k h1 h2,
    (forall fuel, k <= fuel ->
       assign_levels fuel diamond = Ok (h1, length (objs diamond)) /\
       eliminate fuel (length (objs diamond)) h1 = Ok h2 /\
       simplify fuel diamond = Ok {| objs := h2; dag := dag diamond |}) /\
    (forall a b, rtc (edge h2) a b <-> rtc (edge h1) a b) /\
    (forall a b, tc (edge h2) a b <-> tc (edge h1) a b) /\
    (forall a b, a ∈ nodes diamond ->
       (rtc (edge h1) a b <-> rtc (edge (objs diamond)) a b)).
Proof.
  assert (H : graph_ok id diamond)
    by (apply (bool_decide_unpack _ (dec := graph_ok_dec id diamond)); by vm_compute).
  apply graph_ok_sound in H as (H1 & H2 & H3).
  exact (elimination_preserves_reachability diamond H1 H2 H3).
Defined.

(** C2, as the code has it.  On a well-formed acyclic graph with
    fresh levels, with enough fuel the labelling loop of [simplify]
    returns, and the level of every job is one more than the length of
    a longest path to it from a zero in-degree job: the surrogate root
    is at level 0 and the zero in-degree jobs are at level 1. *)
Theorem levels_are_longest_paths_plus_one (g : graph) :
  wf_graph g -> acyclic g -> fresh_levels g ->
  exists k h1,
    (forall fuel, k <= fuel ->
       assign_levels fuel g = Ok (h1, length (objs g))) /\
    lvl h1 (length (objs g)) = 0%Z /\
    (forall q, q ∈ nodes g ->
       exists L, longest_path g q L /\ lvl h1 q = (Z.of_nat L + 1)%Z) /\
    (forall r, is_root g r -> lvl h1 r = 1%Z).
Proof.
  intros Hwf Hacyc Hfresh.
  destruct (simplify_run g Hwf Hacyc (fresh_modest g Hwf Hacyc Hfresh))
    as (k & h1 & h2 & h3 & E & Ho & Hr0 & Hlv & _).
  exists k, h1. split_and!; try done.
  - intros fuel Hf. by destruct (E fuel Hf) as (? & _).
  - intros r Hr. destruct (Hlv r) as (L & HL & EL); [by destruct Hr|].
    by rewrite (root_longest g Hwf r L Hr HL) in EL.
Qed.

Lemma levels_are_longest_paths_plus_one_witness :
  exists k h1,
    (forall fuel, k <= fuel ->
       assign_levels fuel diamond = Ok (h1, length (objs diamond))) /\
    lvl h1 (length (objs diamond)) = 0%Z /\
    (forall q, q ∈ nodes diamond ->
       exists L, longest_path diamond q L /\ lvl h1 q = (Z.of_nat L + 1)%Z) /\
    (forall r, is_root diamond r -> lvl h1 r = 1%Z).
Proof.
  assert (H : graph_ok id diamond)
    by (apply (bool_decide_unpack _ (dec := graph_ok_dec id diamond)); by vm_compute).
  apply graph_ok_sound in H as (H1 & H2 & H3).
  exact (levels_are_longest_paths_plus_one diamond H1 H2 H3).
Defined.

(** C2 as stated fails: in the graph of a single job, that job is a
    zero in-degree job, the longest path to it has length 0, and after
    the labelling loop its level is 1, not 0. *)
Lemma root_level_is_not_zero :
  exists h1 r,
    assign_levels 3 single = Ok (h1, r) /\
    is_root single 0 /\ longest_path single 0 0 /\
    lvl h1 0 = 1%Z /\ lvl h1 0 <> 0%Z.
Proof.
  eexists _, _. split; [vm_compute; reflexivity|].
  assert (Hr : is_root single 0) by (split; [left|reflexivity]).
  split_and!; [done| |done..].
  split.
  - exists 0. split; [done|constructor].
  - intros r j _ Hj. destruct j as [|j]; [done|].
    apply nsteps_inv_r in Hj as (y & _ & Hy).
    unfold edge in Hy. destruct y as [|[|y]]; vm_compute in Hy;
      by apply elem_of_nil in Hy.
Qed.

(** C3.  On a well-formed acyclic graph with fresh levels the
    labelling loop of [simplify] returns, with the edges of the graph
    it was given, and every edge from a job [p] to a job [c] of that
    graph has [c.level >= p.level + 1] after it.  The elimination loop
    changes no level and leaves only edges of the graph, so that the
    inequality holds for every edge of the graph, and with it for
    every edge that is left, in the graph [simplify] returns. *)
Theorem levels_increase_along_edges (g : graph) :
  wf_graph g -> acyclic g -> fresh_levels g ->
  exists k h1 h2,
    (forall fuel, k <= fuel ->
       assign_levels fuel g = Ok (h1, length (objs g)) /\
       simplify fuel g = Ok {| objs := h2; dag := dag g |}) /\
    (forall p, p ∈ nodes g -> chs h1 p = chs (objs g) p) /\
    (forall p c, p ∈ nodes g -> c ∈ chs (objs g) p ->
       (lvl h1 c >= lvl h1 p + 1)%Z) /\
    (forall p c, p ∈ nodes g -> c ∈ chs h1 p ->
       (lvl h1 c >= lvl h1 p + 1)%Z) /\
    (forall q, lvl h2 q = lvl h1 q) /\
    (forall p, p ∈ nodes g -> chs h2 p ⊆ chs (objs g) p) /\
    (forall p c, p ∈ nodes g -> c ∈ chs (objs g) p ->
       (lvl h2 c >= lvl h2 p + 1)%Z) /\
    (forall p c, p ∈ nodes g -> c ∈ chs h2 p ->
       (lvl h2 c >= lvl h2 p + 1)%Z).
Proof.
  intros Hwf Hacyc Hfresh.
  destruct (simplify_run g Hwf Hacyc (fresh_modest g Hwf Hacyc Hfresh))
    as (k & h1 & h2 & h3 & E & Ho & Hr0 & Hlv & _ & Hwf2 & Hsh & _).
  assert (Hc1 : forall p, p ∈ nodes g -> chs h1 p = chs (objs g) p).
  { intros p Hp. rewrite (lvl_only_chs _ _ p Ho). unfold chs.
    by rewrite (fld_with_root g Hwf). }
  assert (H0 : forall p c, p ∈ nodes g -> c ∈ chs (objs g) p ->
            (lvl h1 c >= lvl h1 p + 1)%Z).
  { intros p c Hp Hc.
    assert (Hcn : c ∈ nodes g) by (by eapply (wf_closed_c _ Hwf)).
    destruct (Hlv p Hp) as (Lp & [(r & Hr & Hpath) _] & ->).
    destruct (Hlv c Hcn) as (Lc & [_ Hmax] & ->).
    assert (S Lp <= Lc); [|lia].
    apply (Hmax r); [done|]. by eapply nsteps_r. }
  assert (Hl2 : forall q, lvl h2 q = lvl h1 q)
    by (intros q; apply adj_only_lvl, Hsh).
  assert (Hc2 : forall p, p ∈ nodes g -> chs h2 p ⊆ chs (objs g) p)
    by (intros p Hp; by apply (out_chs g Hwf h1 h2)).
  exists k, h1, h2. split_and!; [|done|done| |done|done| |].
  - intros fuel Hf. by destruct (E fuel Hf) as (? & _ & ? & _).
  - intros p c Hp Hc. rewrite Hc1 in Hc by done. by apply H0.
  - intros p c Hp Hc. rewrite !Hl2. by apply H0.
  - intros p c Hp Hc. rewrite !Hl2. apply H0; [done|]. by apply Hc2.
Qed.

Lemma levels_increase_along_edges_witness :
  exists k h1 h2,
    (forall fuel, k <= fuel ->
       assign_levels fuel diamond = Ok (h1, length (objs diamond)) /\
       simplify fuel diamond = Ok {| objs := h2; dag := dag diamond |}) /\
    (forall p, p ∈ nodes diamond -> chs h1 p = chs (objs diamond) p) /\
    (forall p c, p ∈ nodes diamond -> c ∈ chs (objs diamond) p ->
       (lvl h1 c >= lvl h1 p + 1)%Z) /\
    (forall p c, p ∈ nodes diamond -> c ∈ chs h1 p ->
       (lvl h1 c >= lvl h1 p + 1)%Z) /\
    (forall q, lvl h2 q = lvl h1 q) /\
    (forall p, p ∈ nodes diamond -> chs h2 p ⊆ chs (objs diamond) p) /\
    (forall p c, p ∈ nodes diamond -> c ∈ chs (objs diamond) p ->
       (lvl h2 c >= lvl h2 p + 1)%Z) /\
    (forall p c, p ∈ nodes diamond -> c ∈ chs h2 p ->
       (lvl h2 c >= lvl h2 p + 1)%Z).
Proof.
  assert (H : graph_ok id diamond)
    by (apply (bool_decide_unpack _ (dec := graph_ok_dec id diamond)); by vm_compute).
  apply graph_ok_sound in H as (H1 & H2 & H3).
  exact (levels_increase_along_edges diamond H1 H2 H3).
Defined.

(** C4.  On a well-formed acyclic graph with fresh levels, the
    elimination loop run a second time on the heap [simplify] has
    produced ([h2]) returns a heap ([h3]) with the same edges: every
    [children] and every [parents] list holds the same handles.  So
    does a second call of [simplify] on the graph the first call has
    returned ([h2']), for the jobs of the mapping. *)
Theorem elimination_idempotent (g : graph) :
  wf_graph g -> acyclic g -> fresh_levels g ->
  exists k h1 h2 h3 h2',
    (forall fuel, k <= fuel ->
       assign_levels fuel g = Ok (h1, length (objs g)) /\
       eliminate fuel (length (objs g)) h1 = Ok h2 /\
       simplify fuel g = Ok {| objs := h2; dag := dag g |} /\
       eliminate fuel (length (objs g)) h2 = Ok h3 /\
       simplify fuel {| objs := h2; dag := dag g |}
       = Ok {| objs := h2'; dag := dag g |}) /\
    (forall p c, c ∈ chs h3 p <-> c ∈ chs h2 p) /\
    (forall c p, p ∈ pars h3 c <-> p ∈ pars h2 c) /\
    (forall p c, p ∈ nodes g -> (c ∈ chs h2' p <-> c ∈ chs h2 p)) /\
    (forall c p, c ∈ nodes g -> (p ∈ pars h2' c <-> p ∈ pars h2 c)).
Proof.
  intros Hwf Hacyc Hfresh.
  destruct (simplify_rerun g Hwf Hacyc (fresh_modest g Hwf Hacyc Hfresh))
    as (k & h1 & h2 & h3 & h2' & E & Hc & Hp & _ & Hc' & Hp').
  by exists k, h1, h2, h3, h2'.
Qed.

Lemma elimination_idempotent_witness :
  exists k h1 h2 h3 h2',
    (forall fuel, k <= fuel ->
       assign_levels fuel diamond = Ok (h1, length (objs diamond)) /\
       eliminate fuel (length (objs diamond)) h1 = Ok h2 /\
       simplify fuel diamond = Ok {| objs := h2; dag := dag diamond |} /\
       eliminate fuel (length (objs diamond)) h2 = Ok h3 /\
       simplify fuel {| objs := h2; dag := dag diamond |}
       = Ok {| objs := h2'; dag := dag diamond |}) /\
    (forall p c, c ∈ chs h3 p <-> c ∈ chs h2 p) /\
    (forall c p, p ∈ pars h3 c <-> p ∈ pars h2 c) /\
    (forall p c, p ∈ nodes diamond -> (c ∈ chs h2' p <-> c ∈ chs h2 p)) /\
    (forall c p, c ∈ nodes diamond -> (p ∈ pars h2' c <-> p ∈ pars h2 c)).
Proof.
  assert (H : graph_ok id diamond)
    by (apply (bool_decide_unpack _ (dec := graph_ok_dec id diamond)); by vm_compute).
  apply graph_ok_sound in H as (H1 & H2 & H3).
  exact (elimination_idempotent diamond H1 H2 H3).
Defined.

(** C7.  Bidirectional consistency among the jobs of the mapping is
    kept by [remove_xforms], by the labelling loop and by the
    elimination loop of [simplify]; and each pass of the body of the
    elimination loop, a removal on both sides or a deletion followed by
    the restoration, gives back a consistent heap. *)
Theorem adjacency_consistency_preserved (g : graph) (xs : list string) :
  wf_graph g ->
  (exists g', remove_xforms g xs = Ok g' /\ consistent g') /\
  (acyclic g -> fresh_levels g ->
   exists k h1 h2,
     (forall fuel, k <= fuel ->
        assign_levels fuel g = Ok (h1, length (objs g)) /\
        eliminate fuel (length (objs g)) h1 = Ok h2 /\
        simplify fuel g = Ok {| objs := h2; dag := dag g |}) /\
     consistent {| objs := h1; dag := dag g |} /\
     consistent {| objs := h2; dag := dag g |} /\
     (forall h n c fifo,
        wf_heap (live g) (length (objs g)) h -> within h1 h ->
        live g n -> c ∈ chs h n ->
        exists K h',
          (forall F, K <= F -> examine F n (fifo, h) c = Ok (fifo ++ [c], h')) /\
          wf_heap (live g) (length (objs g)) h' /\
          consistent {| objs := h'; dag := dag g |})).
Proof.
  intros Hwf. split.
  - destruct (remove_xforms_spec g xs Hwf) as (g' & E & Hwf' & _).
    exists g'. split; [done|]. apply Hwf'.
  - intros Hacyc Hfresh.
    destruct (simplify_run g Hwf Hacyc (fresh_modest g Hwf Hacyc Hfresh))
      as (k & h1 & h2 & h3 & E & _ & _ & _ & Hwf1 & Hwf2 & _ & _ & _ & _ & Hsn).
    exists k, h1, h2. split_and!.
    + intros fuel Hf. destruct (E fuel Hf) as (? & ? & ? & _). done.
    + by apply wf_heap_consistent.
    + by apply wf_heap_consistent.
    + intros h n c fifo Hh Hin Hn Hc.
      destruct (examine_spec h1 (live g) (length (objs g)) Hsn n c fifo h Hh Hin Hn Hc)
        as (K & h' & rm & EK & Hadj & Hfr & Hchs & Hpars & Hnd & Hrm & _).
      destruct (step_keeps (live g) (length (objs g)) h h' n c rm) as [Hh' _];
        try done.
      { by eapply wh_closed_c. }
      exists K, h'. split_and!; [done..|]. by apply wf_heap_consistent.
Qed.

Lemma adjacency_consistency_preserved_witness :
  (exists g', remove_xforms diamond ["B"] = Ok g' /\ consistent g') /\
  (exists k h1 h2,
     (forall fuel, k <= fuel ->
        assign_levels fuel diamond = Ok (h1, length (objs diamond)) /\
        eliminate fuel (length (objs diamond)) h1 = Ok h2 /\
        simplify fuel diamond = Ok {| objs := h2; dag := dag diamond |}) /\
     consistent {| objs := h1; dag := dag diamond |} /\
     consistent {| objs := h2; dag := dag diamond |} /\
     (forall h n c fifo,
        wf_heap (live diamond) (length (objs diamond)) h -> within h1 h ->
        live diamond n -> c ∈ chs h n ->
        exists K h',
          (forall F, K <= F -> examine F n (fifo, h) c = Ok (fifo ++ [c], h')) /\
          wf_heap (live diamond) (length (objs diamond)) h' /\
          consistent {| objs := h'; dag := dag diamond |})).
Proof.
  assert (H : graph_ok id diamond)
    by (apply (bool_decide_unpack _ (dec := graph_ok_dec id diamond)); by vm_compute).
  apply graph_ok_sound in H as (H1 & H2 & H3).
  destruct (adjacency_consistency_preserved diamond ["B"] H1) as [Ha Hb].
  split; [exact Ha|exact (Hb H2 H3)].
Defined.

(** C10.  Whenever [simplify] returns, the mapping is the one it was
    given, the heap has one more object, the surrogate root, which is
    not in the mapping and in no [parents] list, and the jobs that
    were there have kept their identifiers and names: only levels and
    adjacency have changed.  On a well-formed acyclic graph with fresh
    levels [simplify] does return, given enough fuel. *)
Theorem simplify_keeps_mapping (g : graph) :
  heap_closed g ->
  (forall fuel g', simplify fuel g = Ok g' ->
     dag g' = dag g /\
     length (objs g') = S (length (objs g)) /\
     (forall q, q < length (objs g) ->
        ident (objs g') q = ident (objs g) q /\ nm (objs g') q = nm (objs g) q) /\
     ident (objs g') (length (objs g)) = "root" /\
     (length (objs g) ∉ nodes g') /\
     (forall q, length (objs g) ∉ pars (objs g') q)) /\
  (wf_graph g -> acyclic g -> fresh_levels g ->
   exists k g', forall fuel, k <= fuel -> simplify fuel g = Ok g').
Proof.
  intros Hcl. split.
  - intros fuel g' H.
    destruct (simplify_frame fuel g g' Hcl H) as (Hd & Hlen & Hs & Hr & Hrn & Hrp).
    split_and!; try done.
    intros q Hq.
    assert (E : forall (A : Type) (f : Job -> A) d,
      fld f d (take (length (objs g)) (objs g')) q = fld f d (objs g') q).
    { intros A f d. unfold fld. by rewrite lookup_take_lt. }
    unfold ident, nm. rewrite <- !E.
    split; by apply same_ids_fld.
  - intros Hwf Hacyc Hfresh.
    destruct (simplify_run g Hwf Hacyc (fresh_modest g Hwf Hacyc Hfresh)) as (k & h1 & h2 & h3 & E & _).
    exists k, {| objs := h2; dag := dag g |}. intros fuel Hf.
    by destruct (E fuel Hf) as (_ & _ & ? & _).
Qed.

Lemma simplify_keeps_mapping_witness :
  (exists g', simplify 100 diamond = Ok g' /\
     dag g' = dag diamond /\
     length (objs g') = S (length (objs diamond)) /\
     (forall q, q < length (objs diamond) ->
        ident (objs g') q = ident (objs diamond) q /\
        nm (objs g') q = nm (objs diamond) q) /\
     ident (objs g') (length (objs diamond)) = "root" /\
     (length (objs diamond) ∉ nodes g') /\
     (forall q, length (objs diamond) ∉ pars (objs g') q)) /\
  (exists k g', forall fuel, k <= fuel -> simplify fuel diamond = Ok g').
Proof.
  assert (Hc : heap_closed diamond)
    by (apply (bool_decide_unpack _ (dec := heap_closed_dec diamond)); by vm_compute).
  assert (H : graph_ok id diamond)
    by (apply (bool_decide_unpack _ (dec := graph_ok_dec id diamond)); by vm_compute).
  apply graph_ok_sound in H as (H1 & H2 & H3).
  destruct (simplify_keeps_mapping diamond Hc) as [Hf Ht].
  split; [|exact (Ht H1 H2 H3)].
  eexists. split; [vm_compute; reflexivity|].
  apply (Hf 100). vm_compute. reflexivity.
Defined.

(** Within the palette.  On a well-formed graph with at most 20
    distinct job names [emit_dot] returns; the statement of each job
    carries the palette entry at the rank of its name among the
    distinct names in the order in which they are first met, so that
    a name met for the first time gets the next unused entry, jobs of
    the same name share a colour, jobs of different names do not, and
    every palette lookup is in bounds. *)
Theorem emit_dot_palette (g : graph) (use_xforms : bool) :
  wf_graph g -> length (distinct_names g) <= 20 ->
  (exists h' rest,
     emit_dot use_xforms g = Ok (h', header ::
       (stmt_of use_xforms (objs g) (distinct_names g) <$> dag g) ++ rest)) /\
  NoDup (distinct_names g) /\
  (forall kv, kv ∈ dag g ->
     let k := position (nm (objs g) kv.2) (distinct_names g) in
     distinct_names g !! k = Some (nm (objs g) kv.2) /\
     is_Some (COLORS !! k)) /\
  (forall kv1 kv2, kv1 ∈ dag g -> kv2 ∈ dag g ->
     (nm (objs g) kv1.2 = nm (objs g) kv2.2 <->
      COLORS !! position (nm (objs g) kv1.2) (distinct_names g) =
      COLORS !! position (nm (objs g) kv2.2) (distinct_names g))).
Proof.
  intros Hwf Hlen.
  assert (Hin : forall kv, kv ∈ dag g -> nm (objs g) kv.2 ∈ distinct_names g).
  { intros kv Hkv. apply first_seen_elem. apply list_elem_of_fmap. by exists kv. }
  assert (Hlt : forall kv, kv ∈ dag g ->
            position (nm (objs g) kv.2) (distinct_names g) < length COLORS).
  { intros kv Hkv. apply Hin, position_lt in Hkv. simpl. lia. }
  split_and!.
  - by apply emit_dot_spec.
  - apply first_seen_NoDup.
  - intros kv Hkv k. split; [by apply position_lookup, Hin|].
    by apply lookup_lt_is_Some_2, Hlt.
  - intros kv1 kv2 H1 H2. split; [by intros ->|]. intros E.
    assert (Hnd : NoDup COLORS)
      by (apply (bool_decide_unpack _ (dec := NoDup_dec COLORS)); by vm_compute).
    destruct (lookup_lt_is_Some_2 _ _ (Hlt kv1 H1)) as [c Ec].
    assert (Ec2 := Ec). rewrite E in Ec2.
    assert (Ep := NoDup_lookup _ _ _ _ Hnd Ec Ec2).
    pose proof (position_lookup _ _ (Hin kv1 H1)) as P1.
    pose proof (position_lookup _ _ (Hin kv2 H2)) as P2.
    rewrite Ep in P1. congruence.
Qed.

Lemma emit_dot_palette_witness :
  (exists h' rest,
     emit_dot true diamond = Ok (h', header ::
       (stmt_of true (objs diamond) (distinct_names diamond) <$> dag diamond)
       ++ rest)) /\
  NoDup (distinct_names diamond) /\
  (forall kv, kv ∈ dag diamond ->
     let k := position (nm (objs diamond) kv.2) (distinct_names diamond) in
     distinct_names diamond !! k = Some (nm (objs diamond) kv.2) /\
     is_Some (COLORS !! k)) /\
  (forall kv1 kv2, kv1 ∈ dag diamond -> kv2 ∈ dag diamond ->
     (nm (objs diamond) kv1.2 = nm (objs diamond) kv2.2 <->
      COLORS !! position (nm (objs diamond) kv1.2) (distinct_names diamond) =
      COLORS !! position (nm (objs diamond) kv2.2) (distinct_names diamond))).
Proof.
  assert (H : graph_ok id diamond)
    by (apply (bool_decide_unpack _ (dec := graph_ok_dec id diamond)); by vm_compute).
  apply graph_ok_sound in H as (H1 & _).
  apply (emit_dot_palette diamond true H1). vm_compute. lia.
Defined.

(** Beyond the palette: with 21 distinct names the palette lookup of
    the last one is out of bounds and [emit_dot] raises [IndexError];
    and when identifiers are the labels, two jobs can share a label and
    not the colour, which goes by the name. *)
Lemma palette_does_not_wrap :
  wf_graph many_names /\
  length (distinct_names many_names) = 21 /\
  emit_dot true many_names = Raise IndexError /\
  exists h',
    emit_dot false dashes =
    Ok (h', [header;
             node_stmt "a_b" "#1b9e77" "a_b";
             node_stmt "a_b" "#d95f02" "a_b";
             nl; footer]).
Proof.
  split_and!.
  - apply (graph_ok_sound id).
    apply (bool_decide_unpack _ (dec := graph_ok_dec id many_names)). by vm_compute.
  - by vm_compute.
  - by vm_compute.
  - eexists. vm_compute. reflexivity.
Qed.

(** The sample graphs are what the DAG file reader builds. *)
Example chain_loaded :
  parse_dagfile (fun _ => Ok None)
    ["JOB A a.sub"; "JOB B b.sub"; "JOB C c.sub";
     "PARENT A CHILD B"; "PARENT B CHILD C"]
  = Ok {| objs := chain_objs; dag := [("A", 0); ("B", 1); ("C", 2)] |}.
Proof. reflexivity. Qed.

Example diamond_loaded :
  parse_dagfile (fun _ => Ok None)
    ["JOB A a.sub"; "JOB B b.sub"; "JOB C c.sub"; "JOB D d.sub";
     "PARENT A CHILD B"; "PARENT A CHILD C"; "PARENT B CHILD D";
     "PARENT C CHILD D"; "PARENT A CHILD D"]
  = Ok diamond.
Proof. reflexivity. Qed.

Lemma dict_set_keys {V : Type} (d : list (string * V)) (k : string) (v : V) :
  k ∈ d.*1 -> (dict_set d k v).*1 = d.*1.
Proof.
  induction d as [|[k' v'] d IH]; simpl; intros Hk.
  - by apply elem_of_nil in Hk.
  - destruct (decide (k' = k)) as [->|Hne]; [done|]. simpl. f_equal.
    apply IH. by apply elem_of_cons in Hk as [->|Hk].
Qed.


(** C8.  The palette does not wrap around.  A DAG file of 21 JOB lines
    with the identifiers a to u, none of them with a submit script,
    loads as the graph [many_names]: 21 jobs without edges, well
    formed, with 21 distinct names, one more than the palette has
    colours.  On that graph [emit_dot] raises [IndexError] at the last
    job, whatever the labels, and so does [main], simplifying or
    not. *)
Lemma palette_overflow :
  parse_dagfile (fun _ => Ok None)
    ((fun n => "JOB " +:+ n +:+ " " +:+ n +:+ ".sub") <$> letters)
  = Ok many_names /\
  wf_graph many_names /\ acyclic many_names /\ fresh_levels many_names /\
  length (distinct_names many_names) = 21 /\
  length COLORS = 20 /\
  emit_dot true many_names = Raise IndexError /\
  emit_dot false many_names = Raise IndexError /\
  main 100 {| opt_simplify := true; opt_xforms := true; opt_remove := [] |}
    many_names = Raise IndexError /\
  main 100 {| opt_simplify := false; opt_xforms := false; opt_remove := [] |}
    many_names = Raise IndexError.
Proof.
  assert (H : graph_ok id many_names)
    by (apply (bool_decide_unpack _ (dec := graph_ok_dec id many_names));
        by vm_compute).
  apply graph_ok_sound in H as (H1 & H2 & H3).
  split_and!; [|done..| | | | | |]; by vm_compute.
Qed.




(** C6.  The chain A -> B -> C filtered by the name B: whatever the
    iteration order of the dictionary, [remove_xforms] returns a graph
    whose jobs are exactly A and C, and neither has a parent or a
    child left: no edge A -> C is made up. *)
Theorem remove_xforms_chain (d : dict) :
  [("A", 0); ("B", 1); ("C", 2)] ≡ₚ d ->
  exists g',
    remove_xforms {| objs := chain_objs; dag := d |} ["B"] = Ok g' /\
    dict_keys (dag g') ≡ₚ ["A"; "C"] /\
    Forall (fun kv => ident (objs g') kv.2 = kv.1) (dag g') /\
    forall n, n ∈ nodes g' -> pars (objs g') n = [] /\ chs (objs g') n = [].
Proof.
  intros Hd. apply permutations_Permutation in Hd.
  vm_compute in Hd.
  repeat (apply elem_of_cons in Hd as [->|Hd]);
    try (by apply elem_of_nil in Hd);
    (eexists; split; [vm_compute; reflexivity|]; 
     split; [vm_compute; first [reflexivity|apply Permutation_swap]|];
     split; [repeat constructor|];
     intros n Hn; vm_compute in Hn;
     repeat (apply elem_of_cons in Hn as [->|Hn]);
     try (by apply elem_of_nil in Hn); by vm_compute).
Qed.

Lemma remove_xforms_chain_witness :
  exists g',
    remove_xforms {| objs := chain_objs;
                     dag := [("A", 0); ("B", 1); ("C", 2)] |} ["B"] = Ok g' /\
    dict_keys (dag g') ≡ₚ ["A"; "C"] /\
    Forall (fun kv => ident (objs g') kv.2 = kv.1) (dag g') /\
    forall n, n ∈ nodes g' -> pars (objs g') n = [] /\ chs (objs g') n = [].
Proof. apply remove_xforms_chain. reflexivity. Defined.


(** * Further properties of the code *)

(** ** A decidable sufficient condition for well-formedness alone *)

(** What [wf_graph] asks for, in a form that can be computed; the
    graph may have cycles. *)
Definition shape_ok (g : graph) : Prop :=
  NoDup (dict_keys (dag g)) /\ NoDup (nodes g) /\
  Forall (fun n =>
    n < length (objs g) /\
    Forall (fun c => c ∈ nodes g /\ n ∈ pars (objs g) c) (chs (objs g) n) /\
    Forall (fun p => p ∈ nodes g /\ n ∈ chs (objs g) p) (pars (objs g) n) /\
    NoDup (chs (objs g) n) /\ NoDup (pars (objs g) n)) (nodes g).

#[global] Instance shape_ok_dec g : Decision (shape_ok g).
Proof. unfold shape_ok. apply _. Defined.

Lemma shape_ok_sound (g : graph) : shape_ok g -> wf_graph g.
Proof.
  intros (Hk & Hh & Hall). rewrite Forall_forall in Hall.
  constructor; try done.
  - intros n Hn. by apply Hall.
  - intros n c Hn Hc. destruct (Hall n Hn) as (_ & H & _).
    rewrite Forall_forall in H. by apply H.
  - intros n p' Hn Hp. destruct (Hall n Hn) as (_ & _ & H & _).
    rewrite Forall_forall in H. by apply H.
  - intros p' c Hp Hc. split.
    + intros Hpc. destruct (Hall p' Hp) as (_ & H & _).
      rewrite Forall_forall in H. by apply H.
    + intros Hcp. destruct (Hall c Hc) as (_ & _ & H & _).
      rewrite Forall_forall in H. by apply H.
  - intros n Hn. by apply Hall.
  - intros n Hn. by apply Hall.
Qed.

(** A job A above the cycle B -> C -> B. *)
Definition lasso : graph :=
  {| objs := add_edge (add_edge (add_edge
       [new_Job "A" "A"; new_Job "B" "B"; new_Job "C" "C"] 0 1) 1 2) 2 1;
     dag := [("A", 0); ("B", 1); ("C", 2)] |}.

(** The cycle A -> B -> A: every job has a parent. *)
Definition ring : graph :=
  {| objs := add_edge (add_edge [new_Job "A" "A"; new_Job "B" "B"] 0 1) 1 0;
     dag := [("A", 0); ("B", 1)] |}.

(** ** Parent links and edges of a well-formed graph *)

Section Ancestry.

Variable g : graph.
Hypothesis Hwf : wf_graph g.

(** Along parent links one walks the edges backwards, within the
    mapping. *)
Lemma plink_tc_node (x y : handle) :
  x ∈ nodes g -> tc (plink (objs g)) x y ->
  tc (edge (objs g)) y x /\ y ∈ nodes g.
Proof.
  intros Hx Ht. induction Ht as [x y H|x y z H _ IH].
  - assert (Hy : y ∈ nodes g) by (by eapply (wf_closed_p _ Hwf)).
    split; [|done]. apply tc_once. by apply (wf_consistent _ Hwf y x).
  - assert (Hy : y ∈ nodes g) by (by eapply (wf_closed_p _ Hwf)).
    destruct (IH Hy) as [IH1 IH2]. split; [|done].
    eapply tc_r; [exact IH1|]. by apply (wf_consistent _ Hwf y x).
Qed.

Lemma edge_tc_node (x y : handle) :
  x ∈ nodes g -> tc (edge (objs g)) x y ->
  tc (plink (objs g)) y x /\ y ∈ nodes g.
Proof.
  intros Hx Ht. induction Ht as [x y H|x y z H _ IH].
  - assert (Hy : y ∈ nodes g) by (by eapply (wf_closed_c _ Hwf)).
    split; [|done]. apply tc_once. by apply (wf_consistent _ Hwf x y).
  - assert (Hy : y ∈ nodes g) by (by eapply (wf_closed_c _ Hwf)).
    destruct (IH Hy) as [IH1 IH2]. split; [|done].
    eapply tc_r; [exact IH1|]. by apply (wf_consistent _ Hwf x y).
Qed.

Hypothesis Hacyc : acyclic g.

Lemma sn_plink_node (a : handle) : a ∈ nodes g -> sn (plink (objs g)) a.
Proof.
  intros Ha. induction (acc_parents g Hwf Hacyc a) as [a _ IH].
  constructor. intros p Hp. unfold flip in Hp.
  apply IH; [by split|]. by eapply (wf_closed_p _ Hwf).
Qed.

End Ancestry.

(** X1.  On a well-formed acyclic graph [inv_reachable(a, b)] returns,
    whatever [b] is, and its answer is [True] exactly when [b] is
    reached from [a] by one or more parent links; so [a] itself is
    never found, and the answer is [True] exactly when there is a
    path of child-direction edges from [b] to [a] if [b] is a job of
    the mapping. *)
Theorem inv_reachable_decides_ancestry (g : graph) (a b : handle) :
  wf_graph g -> acyclic g -> a ∈ nodes g ->
  exists K r,
    (forall F, K <= F -> inv_reachable F (objs g) a b = Ok r) /\
    (r = true <-> tc (plink (objs g)) a b) /\
    (a = b -> r = false) /\
    (b ∈ nodes g -> (r = true <-> tc (edge (objs g)) b a)).
Proof.
  intros Hwf Hacyc Ha.
  destruct (inv_reachable_spec (objs g) b (fun n => n ∈ nodes g)
              (wf_alloc _ Hwf) (fun n p => wf_closed_p _ Hwf n p) a)
    as (K & r & Hr & E); [by apply sn_plink_node|done|].
  exists K, r. split_and!; [done..| |].
  - intros <-. destruct r; [|done]. destruct (Hacyc a Ha).
    apply (plink_tc_node g Hwf a a Ha). by apply Hr.
  - intros Hb. rewrite Hr. split.
    + intros Ht. by apply (plink_tc_node g Hwf a b).
    + intros Ht. by apply (edge_tc_node g Hwf b a).
Qed.

Lemma inv_reachable_decides_ancestry_witness :
  exists K r,
    (forall F, K <= F -> inv_reachable F (objs diamond) 3 0 = Ok r) /\
    (r = true <-> tc (plink (objs diamond)) 3 0) /\
    (3 = 0 -> r = false) /\
    (0 ∈ nodes diamond -> (r = true <-> tc (edge (objs diamond)) 0 3)).
Proof.
  assert (H : graph_ok id diamond)
    by (apply (bool_decide_unpack _ (dec := graph_ok_dec id diamond)); by vm_compute).
  apply graph_ok_sound in H as (H1 & H2 & H3).
  apply (inv_reachable_decides_ancestry diamond 3 0 H1 H2).
  by vm_compute; repeat constructor.
Defined.

(** ** [simplify] computes the transitive reduction *)

(** Levels that grow along every edge grow along every path. *)
Lemma level_path (g : graph) (p c : handle) (j : nat) :
  wf_graph g ->
  (forall x y, x ∈ nodes g -> y ∈ chs (objs g) x ->
     (lvl (objs g) y >= lvl (objs g) x + 1)%Z) ->
  p ∈ nodes g -> nsteps (edge (objs g)) j p c ->
  (lvl (objs g) c >= lvl (objs g) p + Z.of_nat j)%Z.
Proof.
  intros Hwf Hup Hp. induction 1 as [|k x y z Hxy _ IH]; [lia|].
  assert (Hy : y ∈ nodes g) by (by eapply (wf_closed_c _ Hwf)).
  specialize (IH Hy). specialize (Hup x y Hp Hxy). lia.
Qed.

(** In an acyclic graph a path to a parent of [c], walked backwards
    over parent links, never leaves [c]. *)
Lemma back_path (g : graph) (p c : handle) (n : nat) (x y : handle) :
  wf_graph g -> acyclic g ->
  x ∈ nodes g -> nsteps (edge (objs g)) n x y -> edge (objs g) y c ->
  rtc (fun a b => plink (objs g) a b /\ ~ (a = c /\ b = p)) y x.
Proof.
  intros Hwf Hacyc Hx Hp Hyc. induction Hp as [|k x x1 y Hxx1 Hp IH]; [constructor|].
  assert (Hx1 : x1 ∈ nodes g) by (by eapply (wf_closed_c _ Hwf)).
  eapply rtc_r; [by apply IH|]. split.
  - by apply (wf_consistent _ Hwf x x1).
  - intros [-> _]. apply (Hacyc c Hx1). apply tc_nsteps. exists (S k).
    split; [lia|]. by eapply nsteps_r.
Qed.

(** A path of two or more edges beside an edge is what [alt] says. *)
Lemma detour_alt (g : graph) (p c : handle) (j : nat) :
  wf_graph g -> acyclic g -> p ∈ nodes g ->
  nsteps (edge (objs g)) (S (S j)) p c -> alt (objs g) p c.
Proof.
  intros Hwf Hacyc Hp Hpath.
  apply nsteps_inv_r in Hpath as (q & Hpq & Hqc).
  assert (Hq : q ∈ nodes g) by (by eapply (nsteps_node g Hwf)).
  assert (Hc : c ∈ nodes g) by (by eapply (wf_closed_c _ Hwf)).
  assert (Hne : q <> p).
  { intros ->. apply (Hacyc p Hp). apply tc_nsteps. exists (S j). split; [lia|done]. }
  unfold alt. eapply tc_rtc_r.
  - apply tc_once. split; [by apply (wf_consistent _ Hwf q c)|]. by intros [_ ?].
  - by eapply back_path.
Qed.

(** What [alt] says is a path of two or more edges. *)
Lemma alt_detour (live : handle -> Prop) (root : handle) (h : heap)
    (p c : handle) :
  wf_heap live root h -> live c -> alt h p c ->
  exists j, 2 <= j /\ nsteps (edge h) j p c.
Proof.
  intros Hh Hc Ha. unfold alt in Ha.
  inversion Ha as [? ? [_ Hcut]|? q ? [Hcq _] Hqp]; subst; [by destruct Hcut|].
  assert (Hq : live q) by (by eapply (wh_closed_p _ _ _ Hh)).
  assert (Ht : tc (plink h) q p).
  { eapply tc_subrel; [|exact Hqp]. by intros a b [? _]. }
  apply (plink_tc_edge live root h q p Hh Hq) in Ht.
  apply tc_nsteps in Ht as (j & Hj & Hpath).
  exists (S j). split; [lia|]. eapply nsteps_r; [exact Hpath|].
  by apply (wh_cons _ _ _ Hh q c).
Qed.

(** X2.  On a well-formed acyclic graph with fresh levels, the edges
    [simplify] leaves are exactly the edges of the input that no path
    of two or more edges doubles, in the [children] lists and in the
    [parents] lists: the result is the transitive reduction. *)
Theorem simplify_transitive_reduction (g : graph) :
  wf_graph g -> acyclic g -> fresh_levels g ->
  exists k h2,
    (forall fuel, k <= fuel ->
       simplify fuel g = Ok {| objs := h2; dag := dag g |}) /\
    (forall p c, p ∈ nodes g ->
       (c ∈ chs h2 p <->
        c ∈ chs (objs g) p /\
        forall j, nsteps (edge (objs g)) j p c -> j = 1)) /\
    (forall c p, c ∈ nodes g ->
       (p ∈ pars h2 c <->
        p ∈ pars (objs g) c /\
        forall j, nsteps (edge (objs g)) j p c -> j = 1)).
Proof.
  intros Hwf Hacyc Hfresh.
  destruct (simplify_run g Hwf Hacyc (fresh_modest g Hwf Hacyc Hfresh))
    as (k & h1 & h2 & h3 & E & Ho & Hr0 & Hlv & Hwf1 & Hwf2 & Hsh & Hset & _).
  set (g2 := {| objs := h2; dag := dag g |}).
  assert (Hwfg2 : wf_graph g2) by (by apply (out_wf g Hwf h1 h2)).
  assert (Hacyc2 : acyclic g2) by (by apply (out_acyclic g Hwf Hacyc h1 h2)).
  assert (Hup : forall x y, x ∈ nodes g2 -> y ∈ chs (objs g2) x ->
            (lvl (objs g2) y >= lvl (objs g2) x + 1)%Z).
  { intros x y Hx Hy. simpl in *. rewrite !(adj_only_lvl h1 h2) by apply Hsh.
    apply (out_chs g Hwf h1 h2 Ho Hsh x Hx) in Hy.
    assert (Hyn : y ∈ nodes g) by (by eapply (wf_closed_c _ Hwf)).
    destruct (Hlv x Hx) as (Lp & [(r & Hr & Hpath) _] & ->).
    destruct (Hlv y Hyn) as (Lc & [_ Hmax] & ->).
    assert (S Lp <= Lc); [|lia].
    apply (Hmax r); [done|]. by eapply nsteps_r. }
  assert (Hone : forall p c j, p ∈ nodes g -> c ∈ chs (objs g) p ->
            nsteps (edge (objs g)) j p c -> 1 <= j).
  { intros p c j Hp Hc Hj. destruct j as [|j]; [|lia].
    inversion Hj; subst. destruct (Hacyc c Hp). by apply tc_once. }
  assert (Hchs : forall p c, p ∈ nodes g ->
            (c ∈ chs h2 p <->
             c ∈ chs (objs g) p /\
             forall j, nsteps (edge (objs g)) j p c -> j = 1)).
  { intros p c Hp. split.
    - intros Hc. assert (Hc0 : c ∈ chs (objs g) p) by (by eapply (out_chs g Hwf h1 h2)).
      split; [done|]. intros j Hj.
      pose proof (Hone p c j Hp Hc0 Hj) as H1.
      destruct (decide (j = 1)) as [|Hne]; [done|]. exfalso.
      destruct (in_nsteps g Hwf h1 h2 Ho Hsh p c j Hp Hj) as (j' & Hj' & Hpath).
      destruct j' as [|[|j']]; [lia..|].
      apply (Hset p (or_intror Hp) c Hc).
      + pose proof (level_path g2 p c _ Hwfg2 Hup Hp Hpath) as Hl.
        unfold far. simpl in Hl. lia.
      + by apply (detour_alt g2 p c j').
    - intros [Hc Hj].
      destruct (decide (c ∈ chs h2 p)) as [|Hout]; [done|]. exfalso.
      assert (Hc1 : c ∈ chs h1 p).
      { rewrite (lvl_only_chs _ _ p Ho). unfold chs.
        by rewrite (fld_with_root g Hwf). }
      assert (Hcn : c ∈ nodes g) by (by eapply (wf_closed_c _ Hwf)).
      destruct (sh_why _ _ _ Hsh p c Hc1 Hout) as (_ & _ & Ha).
      destruct (alt_detour (live g) (length (objs g)) h1 p c Hwf1 (or_intror Hcn) Ha)
        as (j & Hj2 & Hpath).
      assert (j = 1); [|lia]. apply Hj.
      apply (nsteps_with_root g Hwf); [done|].
      eapply nsteps_edge_ext; [|exact Hpath]. intros q. symmetry.
      by apply lvl_only_chs. }
  exists k, h2. split_and!; [|done|].
  - intros fuel Hf. by destruct (E fuel Hf) as (_ & _ & ? & _).
  - intros c p Hc. split.
    + intros Hp.
      assert (Hp0 : p ∈ pars (objs g) c) by (by eapply (out_pars g Hwf h1 h2)).
      assert (Hpn : p ∈ nodes g) by (by eapply (wf_closed_p _ Hwf)).
      split; [done|]. apply (Hchs p c Hpn).
      by apply (wf_consistent _ Hwfg2 p c).
    + intros [Hp Hj].
      assert (Hpn : p ∈ nodes g) by (by eapply (wf_closed_p _ Hwf)).
      apply (wf_consistent _ Hwfg2 p c Hpn Hc). simpl. apply (Hchs p c Hpn).
      split; [|done]. by apply (wf_consistent _ Hwf p c).
Qed.

Lemma simplify_transitive_reduction_witness :
  exists k h2,
    (forall fuel, k <= fuel ->
       simplify fuel diamond = Ok {| objs := h2; dag := dag diamond |}) /\
    (forall p c, p ∈ nodes diamond ->
       (c ∈ chs h2 p <->
        c ∈ chs (objs diamond) p /\
        forall j, nsteps (edge (objs diamond)) j p c -> j = 1)) /\
    (forall c p, c ∈ nodes diamond ->
       (p ∈ pars h2 c <->
        p ∈ pars (objs diamond) c /\
        forall j, nsteps (edge (objs diamond)) j p c -> j = 1)).
Proof.
  assert (H : graph_ok id diamond)
    by (apply (bool_decide_unpack _ (dec := graph_ok_dec id diamond)); by vm_compute).
  apply graph_ok_sound in H as (H1 & H2 & H3).
  exact (simplify_transitive_reduction diamond H1 H2 H3).
Defined.

(** X3.  On a well-formed acyclic graph with fresh levels [simplify]
    changes no in-degree or out-degree to or from zero: a job has no
    parent in the result exactly when it had none, and no child
    exactly when it had none. *)
Theorem simplify_keeps_sources_and_sinks (g : graph) :
  wf_graph g -> acyclic g -> fresh_levels g ->
  exists k h2,
    (forall fuel, k <= fuel ->
       simplify fuel g = Ok {| objs := h2; dag := dag g |}) /\
    forall n, n ∈ nodes g ->
      (pars h2 n = [] <-> pars (objs g) n = []) /\
      (chs h2 n = [] <-> chs (objs g) n = []).
Proof.
  intros Hwf Hacyc Hfresh.
  destruct (simplify_run g Hwf Hacyc (fresh_modest g Hwf Hacyc Hfresh))
    as (k & h1 & h2 & h3 & E & Ho & Hr0 & Hlv & Hwf1 & Hwf2 & Hsh & _).
  exists k, h2. split.
  - intros fuel Hf. by destruct (E fuel Hf) as (_ & _ & ? & _).
  - intros n Hn. split.
    + pose proof (out_root g Hwf h1 h2 Ho Hwf2 Hsh n) as Hr.
      unfold is_root in Hr. simpl in Hr. tauto.
    + split.
      * intros E2. destruct (chs (objs g) n) as [|c cs] eqn:E0; [done|].
        assert (Hc : edge (objs g) n c) by (unfold edge; rewrite E0; left).
        destruct (in_nsteps g Hwf h1 h2 Ho Hsh n c 1 Hn (nsteps_once n c Hc))
          as (j & Hj & Hpath).
        destruct j as [|j]; [lia|].
        inversion Hpath as [|? ? y ? Hy _]; subst. unfold edge in Hy.
        rewrite E2 in Hy. by apply elem_of_nil in Hy.
      * intros E0. destruct (chs h2 n) as [|c cs] eqn:E2; [done|].
        assert (Hc : c ∈ chs h2 n) by (rewrite E2; left).
        apply (out_chs g Hwf h1 h2 Ho Hsh n Hn) in Hc. rewrite E0 in Hc.
        by apply elem_of_nil in Hc.
Qed.

Lemma simplify_keeps_sources_and_sinks_witness :
  exists k h2,
    (forall fuel, k <= fuel ->
       simplify fuel diamond = Ok {| objs := h2; dag := dag diamond |}) /\
    forall n, n ∈ nodes diamond ->
      (pars h2 n = [] <-> pars (objs diamond) n = []) /\
      (chs h2 n = [] <-> chs (objs diamond) n = []).
Proof.
  assert (H : graph_ok id diamond)
    by (apply (bool_decide_unpack _ (dec := graph_ok_dec id diamond)); by vm_compute).
  apply graph_ok_sound in H as (H1 & H2 & H3).
  exact (simplify_keeps_sources_and_sinks diamond H1 H2 H3).
Defined.

(** ** [simplify] on graphs with cycles *)

Section Cycles.

Variable h0 : heap.
Variable live : handle -> Prop.
Hypothesis live_alloc : forall n, live n -> n < length h0.
Hypothesis live_closed : forall n c, live n -> c ∈ chs h0 n -> live c.

(** The inner loop of the labelling loop returns, also when [n] is
    its own child. *)
Lemma relax_runs (n : handle) (cs : list handle) :
  forall fifo h, lvl_only h0 h -> live n -> (forall c, c ∈ cs -> live c) ->
  exists h',
    for_each (relax n) cs (fifo, h) = Ok (fifo ++ cs, h') /\ lvl_only h0 h'.
Proof.
  induction cs as [|c cs IH]; intros fifo h Hh Hn Hcs.
  - exists h. by rewrite app_nil_r.
  - assert (Hlen := lvl_only_length _ _ Hh).
    destruct (deref_lt h c) as (cj & Ec & Elc);
      [rewrite Hlen; apply live_alloc, Hcs; left|].
    destruct (deref_lt h n) as (nj & En & Eln);
      [rewrite Hlen; by apply live_alloc|].
    simpl. rewrite Ec. simpl. rewrite En. simpl.
    set (h1 := <[c:=set_level cj (level cj `max` (level nj + 1))%Z]> h).
    assert (H1 : lvl_only h h1) by (by apply lvl_only_insert).
    destruct (IH (fifo ++ [c]) h1) as (h' & E & H');
      [by eapply lvl_only_trans|done|by intros; apply Hcs; right|].
    exists h'. rewrite E. split; [by rewrite <- app_assoc|done].
Qed.

(** From [x] a cycle is reached. *)
Definition doomed (x : handle) : Prop :=
  exists y, rtc (edge h0) x y /\ tc (edge h0) y y.

Lemma doomed_child (x : handle) :
  doomed x -> exists c, c ∈ chs h0 x /\ doomed c.
Proof.
  intros (y & Hxy & Hyy). inversion Hxy as [|? c ? Hxc Hcy]; subst.
  - inversion Hyy as [? ? H|? c ? H Hc]; subst.
    + exists y. split; [done|]. exists y. split; [constructor|done].
    + exists c. split; [done|]. exists y. split; [by apply tc_rtc|done].
  - exists c. split; [done|]. by exists y.
Qed.

(** With a job in the list from which a cycle is reached, the
    labelling loop does not come to an end. *)
Lemma level_loop_diverges (fuel : nat) :
  forall fifo h, lvl_only h0 h -> (forall x, x ∈ fifo -> live x) ->
  (exists x, x ∈ fifo /\ doomed x) ->
  level_loop fuel fifo h = OutOfFuel.
Proof.
  induction fuel as [|fuel IH]; intros fifo h Hh Hlive (x & Hx & Hd); [done|].
  destruct fifo as [|n fifo _] using rev_ind; [by apply elem_of_nil in Hx|].
  simpl. rewrite pop_snoc.
  assert (Hn : live n) by (apply Hlive, elem_of_app; right; left).
  assert (Hlen := lvl_only_length _ _ Hh).
  destruct (deref_lt h n) as (nj & En & Eln); [rewrite Hlen; by apply live_alloc|].
  rewrite En. simpl.
  assert (Ec : children nj = chs h0 n).
  { rewrite <- (lvl_only_chs _ _ n Hh). symmetry. by apply fld_lookup. }
  destruct (relax_runs n (children nj) fifo h Hh Hn) as (h' & E & Hh').
  { intros c Hc. rewrite Ec in Hc. by eapply live_closed. }
  rewrite E. simpl. apply IH; [done| |].
  - intros y [Hy|Hy]%elem_of_app.
    + apply Hlive, elem_of_app. by left.
    + rewrite Ec in Hy. by eapply live_closed.
  - apply elem_of_app in Hx as [Hx| ->%list_elem_of_singleton].
    + exists x. split; [apply elem_of_app; by left|done].
    + destruct (doomed_child n Hd) as (c & Hc & Hdc).
      exists c. split; [|done]. apply elem_of_app. right. by rewrite Ec.
Qed.

End Cycles.

(** X4.  On a well-formed graph in which a cycle is reached from a
    zero in-degree job, [simplify] does not return and raises nothing:
    whatever the fuel, the labelling loop is still running when it is
    used up. *)
Theorem simplify_loops_on_cycle (g : graph) (r y : handle) :
  wf_graph g -> is_root g r ->
  rtc (edge (objs g)) r y -> tc (edge (objs g)) y y ->
  forall fuel, simplify fuel g = OutOfFuel.
Proof.
  intros Hwf Hr Hry Hyy fuel.
  assert (Hrn : r ∈ nodes g) by (by destruct Hr).
  assert (Hyn : y ∈ nodes g).
  { apply rtc_nsteps in Hry as [j Hj]. by eapply (nsteps_node g Hwf). }
  unfold simplify, assign_levels.
  rewrite (find_roots_spec g Hwf). simpl.
  rewrite surrogate_root_spec. simpl.
  rewrite (level_loop_diverges (with_root g) (live g)
             (live_alloc0 g Hwf) (live_closed0 g Hwf) fuel); [done..| |].
  - intros x ->%list_elem_of_singleton. by left.
  - exists (length (objs g)). split; [left|]. exists y. split.
    + eapply rtc_l.
      * unfold edge, chs. rewrite (fld_root g). simpl. by apply real_roots_elem.
      * apply rtc_nsteps in Hry as [j Hj]. apply rtc_nsteps. exists j.
        by apply (nsteps_with_root g Hwf).
    + apply tc_nsteps in Hyy as (j & Hj & Hp). apply tc_nsteps. exists j.
      split; [done|]. by apply (nsteps_with_root g Hwf).
Qed.

Lemma simplify_loops_on_cycle_witness : simplify 1000 lasso = OutOfFuel.
Proof.
  apply (simplify_loops_on_cycle lasso 0 1).
  - apply shape_ok_sound.
    apply (bool_decide_unpack _ (dec := shape_ok_dec lasso)). by vm_compute.
  - split; [by vm_compute; left|reflexivity].
  - apply rtc_once. unfold edge. by vm_compute; left.
  - eapply tc_l; [|apply tc_once]; unfold edge; by vm_compute; left.
Defined.

(** X5.  On a well-formed graph without a zero in-degree job, such as
    the empty graph or a graph that is one cycle, [simplify] returns
    after one turn of each loop: the surrogate root is the only object
    added, and every job is left as it was, its level unset and its
    edges in place. *)
Theorem simplify_without_roots (g : graph) :
  wf_graph g ->
  (forall n, n ∈ nodes g -> pars (objs g) n <> []) ->
  forall fuel,
    simplify (S (S fuel)) g
    = Ok {| objs := objs g ++ [root_job []]; dag := dag g |}.
Proof.
  intros Hwf Hnone fuel.
  assert (E : real_roots g = []).
  { destruct (real_roots g) as [|n l] eqn:E; [done|].
    assert (Hn : n ∈ real_roots g) by (rewrite E; left).
    apply real_roots_elem in Hn as [Hn Hp]. by destruct (Hnone n Hn). }
  assert (Hl : (objs g ++ [root_job []]) !! length (objs g) = Some (root_job []))
    by (by rewrite list_lookup_middle).
  unfold simplify, assign_levels. rewrite (find_roots_spec g Hwf), E.
  cbn [bind]. rewrite surrogate_root_spec. cbn [bind fst snd level_loop pop].
  unfold deref. rewrite Hl. cbn [bind root_job children set_children for_each fst snd pop].
  unfold eliminate. cbn [eliminate_loop pop]. unfold deref. rewrite Hl.
  cbn [bind root_job children set_children for_each fst snd pop]. done.
Qed.

Lemma simplify_without_roots_witness :
  simplify 2 ring = Ok {| objs := objs ring ++ [root_job []]; dag := dag ring |}.
Proof.
  apply (simplify_without_roots ring).
  - apply shape_ok_sound.
    apply (bool_decide_unpack _ (dec := shape_ok_dec ring)). by vm_compute.
  - intros n Hn. vm_compute in Hn.
    repeat (apply elem_of_cons in Hn as [->|Hn]); try (by apply elem_of_nil in Hn);
      by vm_compute.
Defined.

(** ** What [remove_xforms] leaves of the graph *)

Lemma remove_xforms_loop_full (xs : list string) (ks : list string) :
  forall g, wf_graph g -> NoDup ks ->
  (forall k, k ∈ ks -> k ∈ dict_keys (dag g)) ->
  exists g',
    for_each (remove_xforms_body xs) ks g = Ok g' /\
    wf_graph g' /\
    (forall n, n ∈ nodes g' -> n ∈ nodes g) /\
    (forall q, ident (objs g') q = ident (objs g) q) /\
    (forall q, q ∈ nodes g' ->
       chs (objs g') q = filter (fun c => c ∈ nodes g') (chs (objs g) q)) /\
    (forall q, q ∈ nodes g' ->
       pars (objs g') q = filter (fun p => p ∈ nodes g') (pars (objs g) q)).
Proof.
  induction ks as [|k ks IH]; intros g Hwf Hnd Hks.
  - exists g. split_and!; try done.
    + intros q Hq. symmetry. apply filter_all, Forall_forall.
      intros c Hc. by eapply (wf_closed_c _ Hwf).
    + intros q Hq. symmetry. apply filter_all, Forall_forall.
      intros c Hc. by eapply (wf_closed_p _ Hwf).
  - apply NoDup_cons in Hnd as [Hk Hnd].
    destruct (remove_xforms_body_full xs g k Hwf) as
      (g1 & E1 & Hwf1 & _ & _ & _ & _ & Hdag1 & Hid1 & Hchs1 & Hpars1);
      [apply Hks; left|].
    assert (Hn1 : forall n, n ∈ nodes g1 -> n ∈ nodes g).
    { intros n. unfold nodes. rewrite Hdag1.
      intros ([k2 v] & -> & [_ Hin]%list_elem_of_filter)%list_elem_of_fmap.
      apply list_elem_of_fmap. by exists (k2, v). }
    destruct (IH g1 Hwf1 Hnd) as (g' & E & Hwf' & Hn & Hid & Hchs & Hpars).
    { intros k' Hk'. assert (Hin : k' ∈ dict_keys (dag g)) by (apply Hks; by right).
      unfold dict_keys in *. apply list_elem_of_fmap in Hin as ([k2 v] & -> & Hin).
      apply list_elem_of_fmap. exists (k2, v). split; [done|]. rewrite Hdag1.
      apply list_elem_of_filter. split; [|done]. simpl. intros [-> _]. done. }
    exists g'. simpl. rewrite E1. simpl. split_and!; try done.
    + intros n Hn'. by apply Hn1, Hn.
    + intros q. by rewrite Hid.
    + intros q Hq. rewrite Hchs, Hchs1 by auto. rewrite list_filter_filter.
      apply list_filter_iff. intros c. split; [tauto|]. intros Hc. split; auto.
    + intros q Hq. rewrite Hpars, Hpars1 by auto. rewrite list_filter_filter.
      apply list_filter_iff. intros c. split; [tauto|]. intros Hc. split; auto.
Qed.

(** [remove_xforms] on a well-formed graph, in full. *)
Lemma remove_xforms_full (g : graph) (xs : list string) :
  wf_graph g ->
  exists g',
    remove_xforms g xs = Ok g' /\
    wf_graph g' /\
    dag g' = filter (fun kv => nm (objs g) kv.2 ∉ xs) (dag g) /\
    forall q, q ∈ nodes g' ->
      chs (objs g') q = filter (fun c => c ∈ nodes g') (chs (objs g) q) /\
      pars (objs g') q = filter (fun p => p ∈ nodes g') (pars (objs g) q) /\
      ident (objs g') q = ident (objs g) q /\
      nm (objs g') q = nm (objs g) q /\
      lvl (objs g') q = lvl (objs g) q.
Proof.
  intros Hwf.
  destruct (remove_xforms_spec g xs Hwf) as (g' & E & Hwf' & _ & Hnm & Hlvl & _ & Hdag).
  exists g'. split_and!; [done..|]. revert E. unfold remove_xforms.
  destruct (decide (length xs = 0)) as [E0|E0].
  - intros [= <-] q Hq. split_and!; try done.
    + symmetry. apply filter_all, Forall_forall.
      intros c Hc. by eapply (wf_closed_c _ Hwf).
    + symmetry. apply filter_all, Forall_forall.
      intros c Hc. by eapply (wf_closed_p _ Hwf).
  - destruct (remove_xforms_loop_full xs (dict_keys (dag g)) g Hwf (wf_keys _ Hwf))
      as (g'' & E' & _ & _ & Hid & Hchs & Hpars); [done|].
    rewrite E'. intros [= <-] q Hq. split_and!; auto.
Qed.

(** X6.  On a well-formed graph [remove_xforms] returns the subgraph
    induced by the jobs whose name is not listed: each of them keeps
    its identifier, name and level, and its [children] and [parents]
    lists are the old ones without the removed jobs, in the old
    order, so that no edge between two jobs that stay is lost and
    none is added. *)
Theorem remove_xforms_induced_subgraph (g : graph) (xs : list string) :
  wf_graph g ->
  exists g',
    remove_xforms g xs = Ok g' /\
    dag g' = filter (fun kv => nm (objs g) kv.2 ∉ xs) (dag g) /\
    forall q, q ∈ nodes g' ->
      chs (objs g') q = filter (fun c => c ∈ nodes g') (chs (objs g) q) /\
      pars (objs g') q = filter (fun p => p ∈ nodes g') (pars (objs g) q) /\
      ident (objs g') q = ident (objs g) q /\
      nm (objs g') q = nm (objs g) q /\
      lvl (objs g') q = lvl (objs g) q.
Proof.
  intros Hwf.
  destruct (remove_xforms_full g xs Hwf) as (g' & E & _ & Hdag & H).
  exists g'. by split_and!.
Qed.

Lemma remove_xforms_induced_subgraph_witness :
  exists g',
    remove_xforms diamond ["B"] = Ok g' /\
    dag g' = filter (fun kv => nm (objs diamond) kv.2 ∉ ["B"]) (dag diamond) /\
    forall q, q ∈ nodes g' ->
      chs (objs g') q = filter (fun c => c ∈ nodes g') (chs (objs diamond) q) /\
      pars (objs g') q = filter (fun p => p ∈ nodes g') (pars (objs diamond) q) /\
      ident (objs g') q = ident (objs diamond) q /\
      nm (objs g') q = nm (objs diamond) q /\
      lvl (objs g') q = lvl (objs diamond) q.
Proof.
  apply (remove_xforms_induced_subgraph diamond ["B"]).
  apply (graph_ok_sound id).
  apply (bool_decide_unpack _ (dec := graph_ok_dec id diamond)). by vm_compute.
Defined.

(** Where no job has a listed name the loop changes nothing. *)
Lemma remove_xforms_loop_noop (xs : list string) (g : graph) (ks : list string) :
  wf_graph g ->
  (forall n, n ∈ nodes g -> nm (objs g) n ∉ xs) ->
  (forall k, k ∈ ks -> k ∈ dict_keys (dag g)) ->
  for_each (remove_xforms_body xs) ks g = Ok g.
Proof.
  intros Hwf Hno. induction ks as [|k ks IH]; intros Hks; [done|].
  destruct (dict_get_elem (dag g) k) as (jh & Eg & Hin); [apply Hks; left|].
  assert (Hjh : jh ∈ nodes g) by (apply nodes_elem; eauto).
  destruct (deref_lt (objs g) jh (wf_alloc _ Hwf jh Hjh)) as (job & Ed & El).
  simpl. unfold remove_xforms_body at 1. rewrite Eg. simpl. rewrite Ed. simpl.
  rewrite bool_decide_eq_false_2.
  - simpl. apply IH. intros k' Hk'. apply Hks. by right.
  - rewrite <- (fld_lookup job_name EmptyString _ _ _ El). by apply Hno.
Qed.

(** X7.  [remove_xforms] leaves a well-formed graph as it is, objects
    and mapping, when no job has a listed name. *)
Theorem remove_xforms_unlisted (g : graph) (xs : list string) :
  wf_graph g ->
  (forall n, n ∈ nodes g -> nm (objs g) n ∉ xs) ->
  remove_xforms g xs = Ok g.
Proof.
  intros Hwf Hno. unfold remove_xforms.
  destruct (decide (length xs = 0)); [done|].
  by apply remove_xforms_loop_noop.
Qed.

Lemma remove_xforms_unlisted_witness :
  remove_xforms diamond ["Z"; "Y"] = Ok diamond.
Proof.
  apply (remove_xforms_unlisted diamond ["Z"; "Y"]).
  - apply (graph_ok_sound id).
    apply (bool_decide_unpack _ (dec := graph_ok_dec id diamond)). by vm_compute.
  - apply Forall_forall.
    apply (bool_decide_unpack _
             (dec := Forall_dec (fun n => nm (objs diamond) n ∉ ["Z"; "Y"])
                       (nodes diamond))).
    by vm_compute.
Defined.

(** X8.  [remove_xforms] is idempotent on well-formed graphs: called
    a second time with the same names on the graph it has returned,
    it returns that graph unchanged. *)
Theorem remove_xforms_idempotent (g : graph) (xs : list string) :
  wf_graph g ->
  exists g', remove_xforms g xs = Ok g' /\ remove_xforms g' xs = Ok g'.
Proof.
  intros Hwf.
  destruct (remove_xforms_spec g xs Hwf) as (g' & E & Hwf' & _ & Hnm & _ & _ & Hdag).
  exists g'. split; [done|]. unfold remove_xforms.
  destruct (decide (length xs = 0)) as [E0|E0]; [done|].
  apply remove_xforms_loop_noop; [done| |done].
  intros m. unfold nodes. rewrite Hdag.
  intros ([k v] & -> & [Hv _]%list_elem_of_filter)%list_elem_of_fmap.
  simpl in *. by rewrite Hnm.
Qed.

Lemma remove_xforms_idempotent_witness :
  exists g', remove_xforms diamond ["B"] = Ok g' /\ remove_xforms g' ["B"] = Ok g'.
Proof.
  apply (remove_xforms_idempotent diamond ["B"]).
  apply (graph_ok_sound id).
  apply (bool_decide_unpack _ (dec := graph_ok_dec id diamond)). by vm_compute.
Defined.

(** X9.  Two calls of [remove_xforms] in a row keep the same jobs,
    in the same order, with the same [children] and [parents] lists,
    as one call with the two lists of names put together. *)
Theorem remove_xforms_twice (g : graph) (xs ys : list string) :
  wf_graph g ->
  exists g1 g2 g12,
    remove_xforms g xs = Ok g1 /\ remove_xforms g1 ys = Ok g2 /\
    remove_xforms g (xs ++ ys) = Ok g12 /\
    dag g2 = dag g12 /\
    forall q, q ∈ nodes g2 ->
      chs (objs g2) q = chs (objs g12) q /\ pars (objs g2) q = pars (objs g12) q.
Proof.
  intros Hwf.
  destruct (remove_xforms_full g xs Hwf) as (g1 & E1 & Hwf1 & Hdag1 & H1).
  assert (Hnm1 : forall q, q ∈ nodes g1 -> nm (objs g1) q = nm (objs g) q)
    by (intros q Hq; by destruct (H1 q Hq) as (_ & _ & _ & ? & _)).
  destruct (remove_xforms_full g1 ys Hwf1) as (g2 & E2 & _ & Hdag2 & H2).
  destruct (remove_xforms_full g (xs ++ ys) Hwf) as (g12 & E12 & _ & Hdag12 & H12).
  assert (Hdag : dag g2 = dag g12).
  { rewrite Hdag2, Hdag12, Hdag1, list_filter_filter.
    apply filter_iff_elem. intros [k v] Hin. simpl. rewrite not_elem_of_app.
    assert (Hv : nm (objs g) v ∉ xs -> nm (objs g1) v = nm (objs g) v).
    { intros Hx. apply Hnm1, nodes_elem. exists k. rewrite Hdag1.
      by apply list_elem_of_filter. }
    split.
    - intros [Hy Hx]. split; [done|]. by rewrite <- Hv.
    - intros [Hx Hy]. split; [|done]. by rewrite Hv. }
  assert (Hn21 : forall n, n ∈ nodes g2 -> n ∈ nodes g1).
  { intros n. unfold nodes. rewrite Hdag2.
    intros ([k v] & -> & [_ Hin]%list_elem_of_filter)%list_elem_of_fmap.
    apply list_elem_of_fmap. by exists (k, v). }
  exists g1, g2, g12. split_and!; [done..|].
  intros q Hq.
  assert (Hq12 : q ∈ nodes g12) by (unfold nodes; by rewrite <- Hdag).
  destruct (H2 q Hq) as (-> & -> & _). destruct (H1 q (Hn21 q Hq)) as (-> & -> & _).
  destruct (H12 q Hq12) as (-> & -> & _). rewrite !list_filter_filter.
  split; apply list_filter_iff; intros c; unfold nodes; rewrite <- Hdag;
    (split; [tauto|]); intros Hc; split; [done|by apply Hn21|done|by apply Hn21].
Qed.

Lemma remove_xforms_twice_witness :
  exists g1 g2 g12,
    remove_xforms diamond ["B"] = Ok g1 /\ remove_xforms g1 ["C"] = Ok g2 /\
    remove_xforms diamond (["B"] ++ ["C"]) = Ok g12 /\
    dag g2 = dag g12 /\
    forall q, q ∈ nodes g2 ->
      chs (objs g2) q = chs (objs g12) q /\ pars (objs g2) q = pars (objs g12) q.
Proof.
  apply (remove_xforms_twice diamond ["B"] ["C"]).
  apply (graph_ok_sound id).
  apply (bool_decide_unpack _ (dec := graph_ok_dec id diamond)). by vm_compute.
Defined.

(** ** Everything [emit_dot] writes *)

(** The edge statements of the second loop of [emit_dot], read from
    the heap [h] the first loop has left. *)
Definition edge_stmts (h : heap) (d : dict) : list string :=
  d ≫= fun kv => (fun c => edge_stmt (ident h kv.2) (ident h c)) <$> chs h kv.2.

(** The edge statements in terms of the graph [emit_dot] was given. *)
Definition edge_lines (g : graph) : list string :=
  dag g ≫= fun kv =>
    (fun c => edge_stmt (replace_dash (ident (objs g) kv.2))
                        (replace_dash (ident (objs g) c)))
    <$> chs (objs g) kv.2.

(** The heap [emit_dot] leaves: the identifiers of the jobs of the
    mapping have their dashes replaced. *)
Definition rewrite_ids (g : graph) : heap :=
  imap (fun q j => if decide (q ∈ nodes g)
                   then set_id j (replace_dash (job_id j)) else j) (objs g).

Lemma replace_dash_idemp (s : string) :
  replace_dash (replace_dash s) = replace_dash s.
Proof.
  induction s as [|a s IH]; [done|]. simpl. rewrite IH. f_equal.
  destruct (Ascii.eqb a (Ascii.ascii_of_nat 45)) eqn:E; [done|]. by rewrite E.
Qed.

(** The first name that has no colour left. *)
Lemma first_overflow (h : heap) (K : nat) (d : dict) :
  K < length (first_seen (names_of h d)) ->
  exists pre kv post,
    d = pre ++ kv :: post /\
    length (first_seen (names_of h pre)) = K /\
    nm h kv.2 ∉ first_seen (names_of h pre).
Proof.
  induction d as [|kv d IH] using rev_ind; intros Hlen; [simpl in Hlen; lia|].
  destruct (decide (K < length (first_seen (names_of h d)))) as [Hlt|Hge].
  - destruct (IH Hlt) as (pre & kv' & post & -> & Hk & Hn).
    exists pre, kv', (post ++ [kv]). split; [|done].
    by rewrite <- app_assoc.
  - exists d, kv, []. split; [done|].
    unfold names_of in Hlen. rewrite fmap_app in Hlen. simpl in Hlen.
    rewrite first_seen_snoc in Hlen. fold (names_of h d) in Hlen.
    unfold seen_step in Hlen.
    destruct (decide (nm h kv.2 ∈ first_seen (names_of h d))) as [Hin|Hin]; [lia|].
    rewrite length_app in Hlen. simpl in Hlen. split; [lia|done].
Qed.

Section EmitAll.

Variable g : graph.
Hypothesis Hwf : wf_graph g.
Variable ux : bool.

Lemma rewrite_ids_lookup (q : handle) :
  rewrite_ids g !! q =
  (fun j => if decide (q ∈ nodes g)
            then set_id j (replace_dash (job_id j)) else j) <$> objs g !! q.
Proof. unfold rewrite_ids. by rewrite list_lookup_imap. Qed.

Lemma rewrite_ids_length : length (rewrite_ids g) = length (objs g).
Proof. unfold rewrite_ids. by rewrite length_imap. Qed.

Lemma rewrite_ids_chs (q : handle) : chs (rewrite_ids g) q = chs (objs g) q.
Proof.
  unfold chs, fld. rewrite rewrite_ids_lookup. destruct (objs g !! q); [|done].
  simpl. by destruct (decide (q ∈ nodes g)).
Qed.

Lemma rewrite_ids_pars (q : handle) : pars (rewrite_ids g) q = pars (objs g) q.
Proof.
  unfold pars, fld. rewrite rewrite_ids_lookup. destruct (objs g !! q); [|done].
  simpl. by destruct (decide (q ∈ nodes g)).
Qed.

Lemma rewrite_ids_nm (q : handle) : nm (rewrite_ids g) q = nm (objs g) q.
Proof.
  unfold nm, fld. rewrite rewrite_ids_lookup. destruct (objs g !! q); [|done].
  simpl. by destruct (decide (q ∈ nodes g)).
Qed.

Lemma rewrite_ids_lvl (q : handle) : lvl (rewrite_ids g) q = lvl (objs g) q.
Proof.
  unfold lvl, fld. rewrite rewrite_ids_lookup. destruct (objs g !! q); [|done].
  simpl. by destruct (decide (q ∈ nodes g)).
Qed.

Lemma rewrite_ids_ident (q : handle) :
  q ∈ nodes g -> ident (rewrite_ids g) q = replace_dash (ident (objs g) q).
Proof.
  intros Hq. unfold ident, fld. rewrite rewrite_ids_lookup.
  destruct (lookup_lt_is_Some_2 (objs g) q (wf_alloc _ Hwf q Hq)) as [j ->].
  simpl. by rewrite decide_True.
Qed.

(** The heap after the first loop. *)
Lemma emitted_heap (st : emitter) :
  emitted g ux (dag g) st -> e_objs st = rewrite_ids g.
Proof.
  intros (Hh & _). apply list_eq. intros q. by rewrite Hh, rewrite_ids_lookup.
Qed.

(** The second loop writes the edge statements and nothing else. *)
Lemma emit_edges_out (h : heap) :
  length h = length (objs g) ->
  (forall q, chs h q = chs (objs g) q) ->
  forall d o, d ⊆ dag g ->
  for_each (emit_edges (dag g) h) d.*1 o = Ok (o ++ edge_stmts h d).
Proof.
  intros Hlen Hchs. induction d as [|[k v] d IH]; intros o Hd.
  - simpl. by rewrite app_nil_r.
  - assert (Hin : (k, v) ∈ dag g) by (apply Hd; left).
    assert (Hv : v ∈ nodes g) by (apply nodes_elem; eauto).
    destruct (deref_lt h v) as (j & Ed & El);
      [rewrite Hlen; by apply (wf_alloc _ Hwf)|].
    assert (Ec : children j = chs h v) by (symmetry; by apply fld_lookup).
    assert (Ei : job_id j = ident h v) by (symmetry; by apply fld_lookup).
    assert (Hinner : forall cs o1, (forall c, c ∈ cs -> c < length h) ->
      for_each (fun o c => cj <- deref h c ;;
                           Ok (o ++ [edge_stmt (job_id j) (job_id cj)])) cs o1
      = Ok (o1 ++ ((fun c => edge_stmt (ident h v) (ident h c)) <$> cs))).
    { induction cs as [|c cs IHc]; intros o1 Hcs; [simpl; by rewrite app_nil_r|].
      destruct (deref_lt h c) as (cj & Ecj & Elc); [apply Hcs; left|].
      simpl. rewrite Ecj. simpl. rewrite IHc by (intros c' Hc'; apply Hcs; by right).
      assert (Eic : job_id cj = ident h c) by (symmetry; by apply fld_lookup).
      rewrite <- app_assoc. simpl. by rewrite Ei, Eic. }
    change (((k, v) :: d).*1) with (k :: d.*1). cbn [for_each].
    unfold emit_edges at 1. rewrite (dict_get_wf g Hwf k v Hin). cbn [bind].
    rewrite Ed. cbn [bind]. rewrite Hinner.
    + cbn [bind]. rewrite IH by (intros x Hx; apply Hd; by right).
      unfold edge_stmts. rewrite bind_cons, <- app_assoc. simpl. by rewrite Ec.
    + intros c Hc. rewrite Ec, Hchs in Hc. rewrite Hlen.
      apply (wf_alloc _ Hwf). by eapply (wf_closed_c _ Hwf).
Qed.

Lemma edge_stmts_lines : edge_stmts (rewrite_ids g) (dag g) = edge_lines g.
Proof.
  unfold edge_stmts, edge_lines.
  assert (H : forall d : dict, d ⊆ dag g ->
    d ≫= (fun kv => (fun c => edge_stmt (ident (rewrite_ids g) kv.2)
                                         (ident (rewrite_ids g) c))
                    <$> chs (rewrite_ids g) kv.2)
    = d ≫= (fun kv => (fun c => edge_stmt (replace_dash (ident (objs g) kv.2))
                                           (replace_dash (ident (objs g) c)))
                      <$> chs (objs g) kv.2)); [|by apply H].
  induction d as [|[k v] d IH]; intros Hd; [done|].
  assert (Hv : v ∈ nodes g) by (apply nodes_elem; exists k; apply Hd; left).
  rewrite !bind_cons, IH by (intros x Hx; apply Hd; by right). f_equal.
  simpl. rewrite rewrite_ids_chs. apply list_fmap_ext. intros i c Hc.
  rewrite !rewrite_ids_ident; [done| |done].
  eapply (wf_closed_c _ Hwf); [exact Hv|]. by eapply list_elem_of_lookup_2.
Qed.

Lemma emitted_start :
  emitted g ux []
    {| e_objs := objs g; xforms := []; next_color := 0; out := [header] |}.
Proof.
  unfold emitted. simpl. split_and!; try done. intros q.
  destruct (objs g !! q); by simpl.
Qed.

End EmitAll.

(** [emit_dot] on a well-formed graph with at most 20 distinct names,
    with the edge statements as the second loop reads them from the
    heap the first loop has left. *)
Lemma emit_dot_raw (g : graph) (ux : bool) :
  wf_graph g -> length (distinct_names g) <= 20 ->
  emit_dot ux g
  = Ok (rewrite_ids g,
        header :: (stmt_of ux (objs g) (distinct_names g) <$> dag g)
          ++ nl :: edge_stmts (rewrite_ids g) (dag g) ++ [footer]).
Proof.
  intros Hwf Hlen. unfold emit_dot.
  destruct (emit_nodes_spec g Hwf ux (dag g) []
    {| e_objs := objs g; xforms := []; next_color := 0; out := [header] |})
    as (st & E & Hst); [done|apply emitted_start|done|].
  unfold dict_keys. rewrite E. cbn [bind]. simpl in Hst.
  rewrite (emitted_heap g ux st Hst).
  rewrite (emit_edges_out g Hwf (rewrite_ids g)); [|apply rewrite_ids_length| |done].
  - cbn [bind]. destruct Hst as (_ & _ & _ & ->).
    f_equal. f_equal. simpl. f_equal.
    unfold distinct_names. rewrite <- !app_assoc. reflexivity.
  - apply rewrite_ids_chs.
Qed.

(** X10.  On a well-formed graph with at most 20 distinct names
    [emit_dot] writes the header, a node statement for each job in the
    order of the mapping, an empty line, an edge statement for each
    entry of each [children] list, in the order of the mapping and of
    the list, with both ends named by their identifiers with dashes
    replaced, and the footer; and the heap it leaves differs from the
    one it was given in the identifiers of the jobs of the mapping
    only, which have their dashes replaced. *)
Theorem emit_dot_output (g : graph) (ux : bool) :
  wf_graph g -> length (distinct_names g) <= 20 ->
  emit_dot ux g
  = Ok (rewrite_ids g,
        header :: (stmt_of ux (objs g) (distinct_names g) <$> dag g)
          ++ nl :: edge_lines g ++ [footer]).
Proof.
  intros Hwf Hlen. rewrite (emit_dot_raw g ux Hwf Hlen).
  by rewrite (edge_stmts_lines g Hwf).
Qed.

Lemma emit_dot_output_witness :
  emit_dot true diamond
  = Ok (rewrite_ids diamond,
        header :: (stmt_of true (objs diamond) (distinct_names diamond)
                   <$> dag diamond)
          ++ nl :: edge_lines diamond ++ [footer]).
Proof.
  apply (emit_dot_output diamond true).
  - apply (graph_ok_sound id).
    apply (bool_decide_unpack _ (dec := graph_ok_dec id diamond)). by vm_compute.
  - vm_compute. lia.
Defined.

(** X11.  On a well-formed graph with more than 20 distinct names
    [emit_dot] raises [IndexError], at the job with the 21st name. *)
Theorem emit_dot_too_many_names (g : graph) (ux : bool) :
  wf_graph g -> 20 < length (distinct_names g) ->
  emit_dot ux g = Raise IndexError.
Proof.
  intros Hwf Hlen.
  destruct (first_overflow (objs g) 20 (dag g) Hlen)
    as (pre & [k v] & post & Hd & H20 & Hnew).
  destruct (emit_nodes_prefix g Hwf ux pre ((k, v) :: post) []
    {| e_objs := objs g; xforms := []; next_color := 0; out := [header] |})
    as (st & E & Hh & Hx & Hn & _); [done|apply emitted_start|simpl; lia|].
  simpl in Hh, Hx, Hn, Hnew.
  assert (Hin : (k, v) ∈ dag g) by (rewrite Hd; apply elem_of_app; right; left).
  assert (Hv : v ∈ nodes g) by (apply nodes_elem; eauto).
  assert (Hfresh : v ∉ pre.*2).
  { pose proof (wf_handles _ Hwf) as Hnd. unfold nodes in Hnd.
    rewrite Hd, fmap_app in Hnd. apply NoDup_app in Hnd as (_ & Hnd & _).
    intros Hv'. apply (Hnd v Hv'). simpl. left. }
  destruct (lookup_lt_is_Some_2 (objs g) v (wf_alloc _ Hwf v Hv)) as [j Ej].
  assert (Ej' : e_objs st !! v = Some j).
  { rewrite Hh, Ej. simpl. by rewrite decide_False. }
  assert (En : nm (objs g) v = job_name j) by (by apply fld_lookup).
  rewrite En in Hnew.
  assert (Estep : emit_node (dag g) ux st k = Raise IndexError).
  { unfold emit_node. rewrite (dict_get_wf g Hwf k v Hin). cbn [bind].
    unfold deref. rewrite Ej'. cbn [bind].
    change (job_name (set_id j (replace_dash (job_id j)))) with (job_name j).
    rewrite Hx, Hn, numbered_lookup, decide_False by done. cbn [fst snd].
    rewrite (numbered_set 0 _ _ Hnew : dict_set _ _ (length _) = _).
    unfold dict_get. rewrite numbered_lookup.
    rewrite decide_True by (apply elem_of_app; right; left). cbn [bind].
    rewrite position_snoc by done. rewrite H20. done. }
  unfold emit_dot, dict_keys. rewrite Hd at 2. rewrite fmap_app, for_each_app, E.
  cbn [bind]. change (((k, v) :: post).*1) with (k :: post.*1).
  cbn [for_each]. rewrite Estep. done.
Qed.

Lemma emit_dot_too_many_names_witness :
  emit_dot true many_names = Raise IndexError.
Proof.
  apply (emit_dot_too_many_names many_names true).
  - apply (graph_ok_sound id).
    apply (bool_decide_unpack _ (dec := graph_ok_dec id many_names)). by vm_compute.
  - vm_compute. lia.
Defined.

(** The graph [emit_dot] leaves is as good as the one it was given. *)
Lemma rewrite_ids_wf (g : graph) :
  wf_graph g -> wf_graph {| objs := rewrite_ids g; dag := dag g |}.
Proof.
  intros Hwf. constructor; simpl; try apply Hwf.
  - intros n Hn. rewrite rewrite_ids_length. by apply (wf_alloc _ Hwf).
  - intros n c Hn. rewrite rewrite_ids_chs. by apply (wf_closed_c _ Hwf).
  - intros n p' Hn. rewrite rewrite_ids_pars. by apply (wf_closed_p _ Hwf).
  - intros p' c Hp Hc. simpl. rewrite rewrite_ids_chs, rewrite_ids_pars.
    by apply (wf_consistent _ Hwf).
  - intros n Hn. rewrite rewrite_ids_chs. by apply (wf_nodup_c _ Hwf).
  - intros n Hn. rewrite rewrite_ids_pars. by apply (wf_nodup_p _ Hwf).
Qed.

(** X12.  [emit_dot] can be called again: on a well-formed graph with
    at most 20 distinct names, a second call on the graph the first
    has left writes the same lines and leaves the same heap. *)
Theorem emit_dot_again (g : graph) (ux : bool) :
  wf_graph g -> length (distinct_names g) <= 20 ->
  exists h' o,
    emit_dot ux g = Ok (h', o) /\
    emit_dot ux {| objs := h'; dag := dag g |} = Ok (h', o).
Proof.
  intros Hwf Hlen. set (g' := {| objs := rewrite_ids g; dag := dag g |}).
  assert (Hwf' : wf_graph g') by (by apply rewrite_ids_wf).
  assert (Hdn : distinct_names g' = distinct_names g).
  { unfold distinct_names, names_of. simpl. f_equal. apply list_fmap_ext.
    intros i kv _. by rewrite rewrite_ids_nm. }
  eexists _, _. split.
  { rewrite (emit_dot_raw g ux Hwf Hlen). by rewrite (edge_stmts_lines g Hwf). }
  fold g'. rewrite (emit_dot_raw g' ux Hwf') by (by rewrite Hdn).
  rewrite (edge_stmts_lines g' Hwf').
  f_equal. f_equal; [|f_equal; f_equal; [|f_equal; f_equal]].
  - apply list_eq. intros q. rewrite (rewrite_ids_lookup g'). simpl.
    rewrite !(rewrite_ids_lookup g). destruct (objs g !! q) as [j|]; [|done].
    simpl. f_equal. change (nodes g') with (nodes g).
    destruct (decide (q ∈ nodes g)); [|done].
    unfold set_id. simpl. by rewrite replace_dash_idemp.
  - rewrite Hdn. apply list_fmap_ext. intros i [k v] Hkv. unfold stmt_of. simpl.
    assert (Hv : v ∈ nodes g).
    { apply nodes_elem. exists k. by eapply list_elem_of_lookup_2. }
    rewrite rewrite_ids_nm, (rewrite_ids_ident g Hwf v Hv).
    by rewrite replace_dash_idemp.
  - unfold edge_lines. simpl.
    assert (H : forall d : dict, d ⊆ dag g ->
      d ≫= (fun kv => (fun c => edge_stmt (replace_dash (ident (rewrite_ids g) kv.2))
                                           (replace_dash (ident (rewrite_ids g) c)))
                      <$> chs (rewrite_ids g) kv.2)
      = d ≫= (fun kv => (fun c => edge_stmt (replace_dash (ident (objs g) kv.2))
                                             (replace_dash (ident (objs g) c)))
                        <$> chs (objs g) kv.2)); [|by apply H].
    induction d as [|[k v] d IH]; intros Hd; [done|].
    assert (Hv : v ∈ nodes g) by (apply nodes_elem; exists k; apply Hd; left).
    rewrite !bind_cons, IH by (intros x Hx; apply Hd; by right). f_equal.
    simpl. rewrite rewrite_ids_chs. apply list_fmap_ext. intros i c Hc.
    assert (Hcn : c ∈ nodes g).
    { eapply (wf_closed_c _ Hwf); [exact Hv|]. by eapply list_elem_of_lookup_2. }
    rewrite !(rewrite_ids_ident g Hwf) by done.
    by rewrite !replace_dash_idemp.
Qed.

Lemma emit_dot_again_witness :
  exists h' o,
    emit_dot false dashes = Ok (h', o) /\
    emit_dot false {| objs := h'; dag := dag dashes |} = Ok (h', o).
Proof.
  apply (emit_dot_again dashes false).
  - apply (graph_ok_sound id).
    apply (bool_decide_unpack _ (dec := graph_ok_dec id dashes)). by vm_compute.
  - vm_compute. lia.
Defined.

(** ** What the loaders establish *)

Lemma children_append_spec (h : heap) (p x : handle) :
  p < length h ->
  exists h',
    children_append h p x = Ok h' /\ adj_only h h' /\
    (forall q, pars h' q = pars h q) /\
    (forall q, chs h' q = if decide (q = p) then chs h p ++ [x] else chs h q).
Proof.
  intros Hp. destruct (deref_lt h p Hp) as (pj & Ed & El).
  assert (Ep : pars h p = parents pj) by (by apply fld_lookup).
  assert (Ec : chs h p = children pj) by (by apply fld_lookup).
  unfold children_append. rewrite Ed. simpl.
  eexists. split; [done|]. split_and!.
  - by apply adj_only_set_children.
  - intros q. unfold pars in *. rewrite fld_insert by done.
    destruct (decide (q = p)) as [->|]; [|done]. simpl. by rewrite Ep.
  - intros q. unfold chs in *. rewrite fld_insert by done.
    destruct (decide (q = p)) as [->|]; [|done]. simpl. by rewrite Ec.
Qed.

(** [h2] is [h] with the edge from [p] to [c] added at the end of
    both lists. *)
Definition linked (h h2 : heap) (p c : handle) : Prop :=
  adj_only h h2 /\
  (forall q, chs h2 q = if decide (q = p) then chs h q ++ [c] else chs h q) /\
  (forall q, pars h2 q = if decide (q = c) then pars h q ++ [p] else pars h q).

(** The two statements that add an edge, in the order of the DAG file
    reader and in that of the DAX handler. *)
Lemma link_dag (h : heap) (p c : handle) :
  p < length h -> c < length h ->
  exists h1 h2,
    children_append h p c = Ok h1 /\ parents_append h1 c p = Ok h2 /\
    linked h h2 p c.
Proof.
  intros Hp Hc.
  destruct (children_append_spec h p c Hp) as (h1 & E1 & Ha1 & Hp1 & Hc1).
  destruct (parents_append_spec h1 c p) as (h2 & E2 & Ha2 & _ & Hc2 & Hp2);
    [by rewrite (adj_only_length _ _ Ha1)|].
  exists h1, h2. unfold linked. split_and!; [done|done|by eapply adj_only_trans| |].
  - intros q. rewrite Hc2, Hc1. by destruct (decide (q = p)) as [->|].
  - intros q. rewrite Hp2, !Hp1. by destruct (decide (q = c)) as [->|].
Qed.

Lemma link_dax (h : heap) (p c : handle) :
  p < length h -> c < length h ->
  exists h1 h2,
    parents_append h c p = Ok h1 /\ children_append h1 p c = Ok h2 /\
    linked h h2 p c.
Proof.
  intros Hp Hc.
  destruct (parents_append_spec h c p Hc) as (h1 & E1 & Ha1 & _ & Hc1 & Hp1).
  destruct (children_append_spec h1 p c) as (h2 & E2 & Ha2 & Hp2 & Hc2);
    [by rewrite (adj_only_length _ _ Ha1)|].
  exists h1, h2. unfold linked. split_and!; [done|done|by eapply adj_only_trans| |].
  - intros q. rewrite Hc2, !Hc1. by destruct (decide (q = p)) as [->|].
  - intros q. rewrite Hp2, Hp1. by destruct (decide (q = c)) as [->|].
Qed.

(** What holds of the objects and the mapping at every point of a
    loader, whatever it has read: identifiers and objects of the
    mapping are unique, each identifier is bound to a job that has it
    as its [id], levels are unset, every entry of a list is an object,
    and [c] is in [p.children] as often as [p] is in [c.parents]. *)
Record loaded (g : graph) : Prop := {
  ld_keys : NoDup (dict_keys (dag g));
  ld_handles : NoDup (nodes g);
  ld_alloc : forall n, n ∈ nodes g -> n < length (objs g);
  ld_ident : forall k v, (k, v) ∈ dag g -> ident (objs g) v = k;
  ld_level : forall q, lvl (objs g) q = 0%Z;
  ld_closed_c : forall q c, c ∈ chs (objs g) q -> c < length (objs g);
  ld_closed_p : forall q p, p ∈ pars (objs g) q -> p < length (objs g);
  ld_count : forall p c,
    count_occ Nat.eq_dec (chs (objs g) p) c
    = count_occ Nat.eq_dec (pars (objs g) c) p
}.

Lemma fld_snoc {A : Type} (f : Job -> A) (d : A) (h : heap) (j : Job) q :
  fld f d (h ++ [j]) q =
  if decide (q = length h) then f j else fld f d h q.
Proof.
  unfold fld. destruct (decide (q = length h)) as [->|Hne].
  - by rewrite list_lookup_middle.
  - destruct (decide (q < length h)).
    + by rewrite lookup_app_l.
    + rewrite !lookup_ge_None_2; [done|lia|rewrite length_app; simpl; lia].
Qed.

Lemma dict_set_elem {V : Type} (d : list (string * V)) (i : string) (v : V) kv :
  kv ∈ dict_set d i v -> kv = (i, v) \/ kv ∈ d.
Proof.
  induction d as [|[k' v'] d IH]; simpl.
  - intros ->%list_elem_of_singleton. by left.
  - destruct (decide (k' = i)) as [->|Hne].
    + intros [->|H]%elem_of_cons; [by left|right; by right].
    + intros [->|H]%elem_of_cons; [right; left|].
      destruct (IH H) as [->|?]; [by left|right; by right].
Qed.

Lemma dict_set_fresh {V : Type} (d : list (string * V)) (i : string) (v : V) :
  i ∉ d.*1 -> dict_set d i v = d ++ [(i, v)].
Proof.
  induction d as [|[k' v'] d IH]; simpl; intros Hi; [done|].
  apply not_elem_of_cons in Hi as [Hne Hi].
  rewrite decide_False by done. by rewrite IH.
Qed.

Lemma dict_set_NoDup_keys {V : Type} (d : list (string * V)) (i : string) (v : V) :
  NoDup d.*1 -> NoDup (dict_set d i v).*1.
Proof.
  intros Hnd. destruct (decide (i ∈ d.*1)) as [Hi|Hi].
  - by rewrite dict_set_keys.
  - rewrite dict_set_fresh, fmap_app by done. simpl.
    apply NoDup_app. split_and!; [done| |apply NoDup_singleton].
    by intros x Hx ->%list_elem_of_singleton.
Qed.

Lemma dict_set_NoDup_values (d : dict) (i : string) (v : handle) :
  NoDup d.*2 -> v ∉ d.*2 -> NoDup (dict_set d i v).*2.
Proof.
  induction d as [|[k' v'] d IH]; simpl; intros Hnd Hv.
  - apply NoDup_singleton.
  - apply NoDup_cons in Hnd as [Hv' Hnd]. apply not_elem_of_cons in Hv as [Hne Hv].
    destruct (decide (k' = i)) as [->|Hki]; simpl.
    + by apply NoDup_cons.
    + apply NoDup_cons. split; [|by apply IH].
      intros ([k2 v2] & -> & Hin)%list_elem_of_fmap.
      apply dict_set_elem in Hin as [[= -> ->]|Hin]; [done|].
      apply Hv'. apply list_elem_of_fmap. by exists (k2, v2).
Qed.

Lemma dict_get_node (d : dict) (k : string) (v : handle) :
  dict_get d k = Ok v -> v ∈ d.*2.
Proof.
  unfold dict_get. induction d as [|[k' v'] d IH]; simpl; [done|].
  destruct (decide (k' = k)).
  - intros [= ->]. left.
  - intros H. right. by apply IH.
Qed.

(** A new job enters the mapping. *)
Lemma loaded_new_job (h : heap) (d : dict) (i n : string) :
  loaded {| objs := h; dag := d |} ->
  loaded {| objs := h ++ [new_Job i n]; dag := dict_set d i (length h) |}.
Proof.
  intros [Hk Hh Ha Hi Hl Hc Hp Hn]. simpl in *.
  assert (Hfresh : length h ∉ d.*2).
  { intros Hin. apply Ha in Hin. lia. }
  constructor; simpl.
  - by apply dict_set_NoDup_keys.
  - by apply dict_set_NoDup_values.
  - intros v ([k v'] & -> & Hin)%list_elem_of_fmap. rewrite length_app. simpl.
    apply dict_set_elem in Hin as [[= -> ->]|Hin]; [lia|].
    assert (v' < length h); [|lia]. apply Ha, list_elem_of_fmap. by exists (k, v').
  - intros k v Hin. unfold ident. rewrite fld_snoc.
    apply dict_set_elem in Hin as [[= -> ->]|Hin].
    + by rewrite decide_True.
    + rewrite decide_False; [by apply Hi|].
      intros ->. apply Hfresh, list_elem_of_fmap. by exists (k, length h).
  - intros q. unfold lvl. rewrite fld_snoc. destruct (decide (q = length h)); [done|].
    apply Hl.
  - intros q c. unfold chs. rewrite fld_snoc, length_app.
    destruct (decide (q = length h)); simpl; [by intros ?%elem_of_nil|].
    intros H%Hc. lia.
  - intros q c. unfold pars. rewrite fld_snoc, length_app.
    destruct (decide (q = length h)); simpl; [by intros ?%elem_of_nil|].
    intros H%Hp. lia.
  - intros p c. unfold chs, pars. rewrite !fld_snoc.
    destruct (decide (p = length h)) as [->|Hp'],
             (decide (c = length h)) as [->|Hc']; simpl.
    + done.
    + symmetry. apply count_occ_not_In. rewrite <- list_elem_of_In.
      intros H%Hp. lia.
    + apply count_occ_not_In. rewrite <- list_elem_of_In.
      intros H%Hc. lia.
    + apply Hn.
Qed.

(** An edge between two objects is added. *)
Lemma loaded_linked (h h2 : heap) (d : dict) (p c : handle) :
  p < length h -> c < length h -> linked h h2 p c ->
  loaded {| objs := h; dag := d |} -> loaded {| objs := h2; dag := d |}.
Proof.
  intros Hpl Hcl (Hadj & Hchs & Hpars) [Hk Hh Ha Hi Hl Hc Hp Hn]. simpl in *.
  assert (Hlen := adj_only_length _ _ Hadj).
  constructor; simpl; try done.
  - intros n Hn'. rewrite Hlen. by apply Ha.
  - intros k v Hin. rewrite (adj_only_ident h h2) by done. by apply Hi.
  - intros q. rewrite (adj_only_lvl h h2) by done. apply Hl.
  - intros q x. rewrite Hchs, Hlen. destruct (decide (q = p)); [|apply Hc].
    intros [H| ->%list_elem_of_singleton]%elem_of_app; [by eapply Hc|done].
  - intros q x. rewrite Hpars, Hlen. destruct (decide (q = c)); [|apply Hp].
    intros [H| ->%list_elem_of_singleton]%elem_of_app; [by eapply Hp|done].
  - intros p' c'. rewrite Hchs, Hpars.
    destruct (decide (p' = p)) as [->|Hp'], (decide (c' = c)) as [->|Hc'];
      rewrite ?count_occ_app; simpl; rewrite ?Hn;
      repeat match goal with
             | |- context [Nat.eq_dec ?a ?b] => destruct (Nat.eq_dec a b)
             end; subst; try done; lia.
Qed.

Lemma loaded_empty : loaded {| objs := []; dag := [] |}.
Proof.
  constructor; simpl; try done; try apply NoDup_nil_2.
  - by intros n ?%elem_of_nil.
  - by intros k v ?%elem_of_nil.
  - by intros q c ?%elem_of_nil.
  - by intros q c ?%elem_of_nil.
Qed.

(** A line of the DAG file keeps what the reader has established. *)
Lemma dag_line_loaded (xform_of : string -> result (option string))
    (h : heap) (d : dict) (line : string) (h' : heap) (d' : dict) :
  loaded {| objs := h; dag := d |} ->
  dag_line xform_of (h, d) line = Ok (h', d') ->
  loaded {| objs := h'; dag := d' |}.
Proof.
  intros Hl. unfold dag_line.
  destruct (String.prefix "JOB" (strip line)).
  - destruct (decide (length (split (strip line)) < 3)); [done|].
    destruct (split (strip line) !! 1) as [i|]; [|done].
    destruct (split (strip line) !! 2) as [sub|]; [|done].
    destruct (xform_of sub) as [name| |]; [|done..].
    simpl. intros [= <- <-]. by apply loaded_new_job.
  - destruct (String.prefix "PARENT" (strip line)); [|by intros [= <- <-]].
    destruct (decide (length (split (strip line)) < 4)); [done|].
    destruct (split (strip line) !! 1) as [pi|]; [|done].
    destruct (split (strip line) !! 3) as [ci|]; [|done].
    intros H. apply bind_Ok in H as (p & Ep & H). apply bind_Ok in H as (c & Ec & H).
    assert (Hp : p < length h).
    { apply (ld_alloc _ Hl). by eapply dict_get_node. }
    assert (Hc : c < length h).
    { apply (ld_alloc _ Hl). by eapply dict_get_node. }
    destruct (link_dag h p c Hp Hc) as (h1 & h2 & E1 & E2 & Hlink).
    rewrite E1 in H. simpl in H. rewrite E2 in H. simpl in H.
    injection H as <- <-. exact (loaded_linked h h2 d p c Hp Hc Hlink Hl).
Qed.

(** An event of the DAX parser keeps what the handler has
    established. *)
Lemma startElement_loaded (st st' : DAXHandler) (name : string)
    (attrs : list (string * string)) :
  loaded {| objs := dh_objs st; dag := dh_dag st |} ->
  startElement st name attrs = Ok st' ->
  loaded {| objs := dh_objs st'; dag := dh_dag st' |}.
Proof.
  intros Hl. unfold startElement.
  destruct (decide (name = "job")).
  { destruct (dict_lookup attrs "id") as [i|]; [|done].
    simpl. intros [= <-]. simpl. by apply loaded_new_job. }
  destruct (decide (name = "child")); [by intros [= <-]|].
  destruct (decide (name = "parent")); [|by intros [= <-]].
  destruct (lastchild st) as [[lc|]|]; [|done..].
  intros H. apply bind_Ok in H as (c & Ec & H). apply bind_Ok in H as (p & Ep & H).
  assert (Hc : c < length (dh_objs st)).
  { apply (ld_alloc _ Hl). by eapply dict_get_node. }
  assert (Hp : p < length (dh_objs st)).
  { apply (ld_alloc _ Hl). destruct (dict_lookup attrs "ref"); [|done].
    by eapply dict_get_node. }
  destruct (link_dax (dh_objs st) p c Hp Hc) as (h1 & h2 & E1 & E2 & Hlink).
  rewrite E1 in H. simpl in H. rewrite E2 in H. simpl in H.
  injection H as <-. simpl.
  exact (loaded_linked (dh_objs st) h2 (dh_dag st) p c Hp Hc Hlink Hl).
Qed.

(** Objects that are all in the mapping are the handles below the
    size of the heap. *)
Lemma all_mapped (g : graph) (q : handle) :
  loaded g -> length (dag g) = length (objs g) ->
  q < length (objs g) -> q ∈ nodes g.
Proof.
  intros Hl Hlen Hq.
  assert (Hsub : nodes g ⊆+ seq 0 (length (objs g))).
  { apply NoDup_submseteq; [apply Hl|]. intros n Hn%(ld_alloc _ Hl).
    apply elem_of_seq. lia. }
  apply submseteq_length_Permutation in Hsub.
  - rewrite Hsub. apply elem_of_seq. lia.
  - rewrite length_seq. unfold nodes. by rewrite length_fmap, Hlen.
Qed.

(** With every job declared once and every edge once, what the
    loaders establish is a well-formed graph with fresh levels. *)
Lemma loaded_wf (g : graph) :
  loaded g -> length (dag g) = length (objs g) ->
  (forall q, NoDup (chs (objs g) q)) ->
  wf_graph g /\ fresh_levels g.
Proof.
  intros Hl Hlen Hnd. split; [|intros n _; apply Hl].
  assert (Hcons : forall p c, c ∈ chs (objs g) p <-> p ∈ pars (objs g) c).
  { intros p c. rewrite !list_elem_of_In.
    rewrite !(count_occ_In Nat.eq_dec).
    by rewrite (ld_count _ Hl). }
  constructor; try apply Hl.
  - intros n c _ Hc. apply all_mapped; [done..|]. by eapply (ld_closed_c _ Hl).
  - intros n c _ Hc. apply all_mapped; [done..|]. by eapply (ld_closed_p _ Hl).
  - intros p c _ _. apply Hcons.
  - intros n _. apply Hnd.
  - intros n _. apply NoDup_ListNoDup, (NoDup_count_occ Nat.eq_dec). intros p.
    rewrite <- (ld_count _ Hl). by apply (NoDup_count_occ Nat.eq_dec), NoDup_ListNoDup.
Qed.

(** X13.  Whatever the lines of the file, a graph [parse_dagfile]
    returns has unique identifiers, each bound to an object of its
    own whose [id] it is; all levels are 0; every entry of a
    [children] or [parents] list is an object of the heap; and [c] is
    in [p.children] as many times as [p] is in [c.parents].  If
    moreover no identifier was declared twice (the mapping has as many
    entries as there are objects) and no [children] list holds an
    entry twice, the graph is well formed and its levels are fresh. *)
Theorem parse_dagfile_loaded (xform_of : string -> result (option string))
    (lines : list string) (g : graph) :
  parse_dagfile xform_of lines = Ok g ->
  loaded g /\
  (length (dag g) = length (objs g) ->
   (forall q, NoDup (chs (objs g) q)) ->
   wf_graph g /\ fresh_levels g).
Proof.
  intros H.
  assert (Hl : loaded g); [|split; [done|by apply loaded_wf]].
  unfold parse_dagfile in H. apply bind_Ok in H as ([h d] & E & [= <-]). simpl.
  revert E. generalize loaded_empty.
  generalize (@nil Job) as h0. generalize (@nil (string * handle)) as d0.
  induction lines as [|line lines IH]; intros d0 h0 Hl0 E; simpl in E.
  - by injection E as <- <-.
  - apply bind_Ok in E as ([h1 d1] & E1 & E).
    apply (IH d1 h1); [|done].
    exact (dag_line_loaded xform_of h0 d0 line h1 d1 Hl0 E1).
Qed.

Lemma parse_dagfile_loaded_witness :
  loaded diamond /\
  (length (dag diamond) = length (objs diamond) ->
   (forall q, NoDup (chs (objs diamond) q)) ->
   wf_graph diamond /\ fresh_levels diamond).
Proof.
  apply (parse_dagfile_loaded (fun _ => Ok None)
    ["JOB A a.sub"; "JOB B b.sub"; "JOB C c.sub"; "JOB D d.sub";
     "PARENT A CHILD B"; "PARENT A CHILD C"; "PARENT B CHILD D";
     "PARENT C CHILD D"; "PARENT A CHILD D"] diamond).
  reflexivity.
Defined.

(** X14.  Whatever the events of the parser, a graph [parse_daxfile]
    returns has the same properties: unique identifiers, each bound to
    an object of its own whose [id] it is, levels 0, every list entry
    an object of the heap, [c] in [p.children] as many times as [p] in
    [c.parents]; and it is well formed with fresh levels if no
    identifier was declared twice and no [children] list holds an
    entry twice. *)
Theorem parse_daxfile_loaded (events : list event) (g : graph) :
  parse_daxfile events = Ok g ->
  loaded g /\
  (length (dag g) = length (objs g) ->
   (forall q, NoDup (chs (objs g) q)) ->
   wf_graph g /\ fresh_levels g).
Proof.
  intros H.
  assert (Hl : loaded g); [|split; [done|by apply loaded_wf]].
  unfold parse_daxfile in H. apply bind_Ok in H as (st & E & [= <-]). simpl.
  revert E.
  assert (Hl0 : loaded {| objs := dh_objs {| dh_objs := []; dh_dag := [];
                                             lastchild := None |};
                          dag := dh_dag {| dh_objs := []; dh_dag := [];
                                           lastchild := None |} |})
    by apply loaded_empty.
  revert Hl0.
  generalize {| dh_objs := []; dh_dag := []; lastchild := None |} as st0.
  induction events as [|e events IH]; intros st0 Hl0 E; simpl in E.
  - by injection E as <-.
  - apply bind_Ok in E as (st1 & E1 & E). apply (IH st1); [|done].
    destruct e as [name attrs|name].
    + exact (startElement_loaded st0 st1 name attrs Hl0 E1).
    + injection E1 as <-. unfold endElement. by destruct (decide (name = "child")).
Qed.

Lemma parse_daxfile_loaded_witness :
  loaded {| objs := chain_objs; dag := [("A", 0); ("B", 1); ("C", 2)] |} /\
  (length (dag {| objs := chain_objs; dag := [("A", 0); ("B", 1); ("C", 2)] |})
   = length (objs {| objs := chain_objs;
                     dag := [("A", 0); ("B", 1); ("C", 2)] |}) ->
   (forall q, NoDup (chs (objs {| objs := chain_objs;
                                  dag := [("A", 0); ("B", 1); ("C", 2)] |}) q)) ->
   wf_graph {| objs := chain_objs; dag := [("A", 0); ("B", 1); ("C", 2)] |} /\
   fresh_levels {| objs := chain_objs; dag := [("A", 0); ("B", 1); ("C", 2)] |}).
Proof.
  apply (parse_daxfile_loaded
    [StartElement "job" [("id", "A"); ("name", "A")];
     StartElement "job" [("id", "B"); ("name", "B")];
     StartElement "job" [("id", "C"); ("name", "C")];
     StartElement "child" [("ref", "B")];
     StartElement "parent" [("ref", "A")];
     EndElement "child";
     StartElement "child" [("ref", "C")];
     StartElement "parent" [("ref", "B")];
     EndElement "child"]).
  reflexivity.
Defined.

(** ** Transformation names *)

(** The character [c] occurs in [s]. *)
Fixpoint has_char (c : Ascii.ascii) (s : string) : bool :=
  match s with
  | EmptyString => false
  | String a s' => Ascii.eqb a c || has_char c s'
  end.

Lemma split_on_free (sep : Ascii.ascii) (w : string) :
  has_char sep w = false -> split_on sep w = [w].
Proof.
  induction w as [|a w IH]; simpl; [done|].
  intros [Ha Hw]%orb_false_elim. rewrite Ha, IH by done. done.
Qed.

Lemma split_on_app (sep : Ascii.ascii) (w s : string) :
  has_char sep w = false ->
  split_on sep (w +:+ String sep s) = w :: split_on sep s.
Proof.
  induction w as [|a w IH]; simpl.
  - intros _. by rewrite Ascii.eqb_refl.
  - intros [Ha Hw]%orb_false_elim. rewrite Ha, IH by done. done.
Qed.

Lemma split_on_last (sep : Ascii.ascii) (d f : string) :
  has_char sep f = false ->
  exists pre, split_on sep (d +:+ String sep f) = pre ++ [f] /\ pre <> [].
Proof.
  intros Hf. induction d as [|a d (pre & E & Hne)]; simpl.
  - rewrite Ascii.eqb_refl, split_on_free by done. by exists [EmptyString].
  - rewrite E. destruct (Ascii.eqb a sep).
    + by exists (EmptyString :: pre).
    + destruct pre as [|w pre]; [done|]. by exists (String a w :: pre).
Qed.

Lemma string_app_assoc (s1 s2 s3 : string) :
  (s1 +:+ s2) +:+ s3 = s1 +:+ s2 +:+ s3.
Proof.
  induction s1 as [|a s1 IH]; [done|].
  change (String a ((s1 +:+ s2) +:+ s3) = String a (s1 +:+ s2 +:+ s3)).
  by rewrite IH.
Qed.

(** The name of a file in a directory is its [basename]. *)
Lemma basename_dir (pre f : string) :
  pre = EmptyString \/ (exists d, pre = d +:+ String slash EmptyString) ->
  has_char slash f = false -> basename (pre +:+ f) = f.
Proof.
  intros [->|[d ->]] Hf; unfold basename.
  - simpl. by rewrite split_on_free.
  - assert (E : (d +:+ String slash EmptyString) +:+ f = d +:+ String slash f).
    { by rewrite string_app_assoc. }
    rewrite E. destruct (split_on_last slash d f Hf) as (l & -> & _).
    by rewrite last_snoc.
Qed.

(** X15.  [xform_name] gives the name part of a transformation in
    each of the four formats of its description, namespace, name and
    version being free of colons: namespace::name:version,
    namespace::name, name:version and name. *)
Theorem xform_name_formats (ns name ver : string) :
  has_char colon ns = false -> has_char colon name = false ->
  has_char colon ver = false ->
  xform_name (ns +:+ "::" +:+ name +:+ ":" +:+ ver) = name /\
  xform_name (ns +:+ "::" +:+ name) = name /\
  xform_name (name +:+ ":" +:+ ver) = name /\
  xform_name name = name.
Proof.
  intros Hns Hname Hver. unfold xform_name.
  change ("::" +:+ name +:+ ":" +:+ ver)
    with (String colon (EmptyString +:+ String colon (name +:+ String colon ver))).
  change ("::" +:+ name)
    with (String colon (EmptyString +:+ String colon name)).
  change (":" +:+ ver) with (String colon ver).
  rewrite !split_on_app, !split_on_free by done. done.
Qed.

Lemma xform_name_formats_witness :
  xform_name ("pegasus" +:+ "::" +:+ "transfer" +:+ ":" +:+ "2.0") = "transfer" /\
  xform_name ("pegasus" +:+ "::" +:+ "transfer") = "transfer" /\
  xform_name ("transfer" +:+ ":" +:+ "2.0") = "transfer" /\
  xform_name "transfer" = "transfer".
Proof. apply (xform_name_formats "pegasus" "transfer" "2.0"); reflexivity. Defined.

Lemma prefix_app (p s : string) : String.prefix p (p +:+ s) = true.
Proof.
  induction p as [|a p IH]; [by destruct s|].
  change (String.prefix (String a p) (String a (p +:+ s)) = true).
  simpl. by destruct (Ascii.ascii_dec a a).
Qed.

(** X16.  For a submit script whose file name starts with one of
    [create_dir_], [stage_in_], [stage_out_], [stage_inter_],
    [stage_worker_], [register_] and [clean_up_], in whatever
    directory, [parse_xform_name] gives the fixed name that goes with
    the prefix, whatever the file holds. *)
Theorem parse_xform_name_special (pre rest : string) (lines : list string) :
  pre = EmptyString \/ (exists d, pre = d +:+ String slash EmptyString) ->
  has_char slash rest = false ->
  parse_xform_name (pre +:+ "create_dir_" +:+ rest) lines = Ok (Some "create_dir") /\
  parse_xform_name (pre +:+ "stage_in_" +:+ rest) lines = Ok (Some "stage_in") /\
  parse_xform_name (pre +:+ "stage_out_" +:+ rest) lines = Ok (Some "stage_out") /\
  parse_xform_name (pre +:+ "stage_inter_" +:+ rest) lines
    = Ok (Some "stage_inter") /\
  parse_xform_name (pre +:+ "stage_worker_" +:+ rest) lines
    = Ok (Some "stage_worker") /\
  parse_xform_name (pre +:+ "register_" +:+ rest) lines = Ok (Some "register") /\
  parse_xform_name (pre +:+ "clean_up_" +:+ rest) lines = Ok (Some "clean_up").
Proof.
  intros Hpre Hrest. unfold parse_xform_name.
  rewrite !(basename_dir pre) by (done || exact Hrest).
  split_and!; rewrite prefix_app; reflexivity.
Qed.

Lemma parse_xform_name_special_witness :
  parse_xform_name ("run/" +:+ "create_dir_" +:+ "0.sub") [] = Ok (Some "create_dir") /\
  parse_xform_name ("run/" +:+ "stage_in_" +:+ "0.sub") [] = Ok (Some "stage_in") /\
  parse_xform_name ("run/" +:+ "stage_out_" +:+ "0.sub") [] = Ok (Some "stage_out") /\
  parse_xform_name ("run/" +:+ "stage_inter_" +:+ "0.sub") []
    = Ok (Some "stage_inter") /\
  parse_xform_name ("run/" +:+ "stage_worker_" +:+ "0.sub") []
    = Ok (Some "stage_worker") /\
  parse_xform_name ("run/" +:+ "register_" +:+ "0.sub") [] = Ok (Some "register") /\
  parse_xform_name ("run/" +:+ "clean_up_" +:+ "0.sub") [] = Ok (Some "clean_up").
Proof.
  apply (parse_xform_name_special "run/" "0.sub" []).
  - right. by exists "run".
  - reflexivity.
Defined.

(** The prefixes [parse_xform_name] looks for in the file name. *)
Definition special_prefixes : list string :=
  ["create_dir_"; "stage_in_"; "stage_out_"; "stage_inter_"; "stage_worker_";
   "register_"; "clean_up_"].

Lemma parse_xform_name_plain (path : string) (lines : list string) :
  Forall (fun p => String.prefix p (basename path) = false) special_prefixes ->
  parse_xform_name path lines = scan_submit lines.
Proof.
  unfold special_prefixes. rewrite !Forall_cons.
  intros (H1 & H2 & H3 & H4 & H5 & H6 & H7 & _). unfold parse_xform_name.
  by rewrite H1, H2, H3, H4, H5, H6, H7.
Qed.

Lemma scan_submit_skip (before rest : list string) :
  Forall (fun l => contains "+pegasus_wf_xformation" l = false) before ->
  scan_submit (before ++ rest) = scan_submit rest.
Proof.
  induction 1 as [|l before Hl _ IH]; [done|]. simpl. by rewrite Hl.
Qed.

(** X17.  For a submit script whose file name has none of the special
    prefixes, the first line that contains [+pegasus_wf_xformation]
    decides, whatever comes after it: the result is [xform_name] of
    what stands between the first two double quotes of that line, and
    [IndexError] is raised if the line has no double quote.  With no
    such line the result is [None]. *)
Theorem parse_xform_name_scan (path : string) (before : list string)
    (line : string) (after : list string) :
  Forall (fun p => String.prefix p (basename path) = false) special_prefixes ->
  Forall (fun l => contains "+pegasus_wf_xformation" l = false) before ->
  contains "+pegasus_wf_xformation" line = true ->
  (forall a full b,
     line = a +:+ String quote (full +:+ String quote b) ->
     has_char quote a = false -> has_char quote full = false ->
     parse_xform_name path (before ++ line :: after)
     = Ok (Some (xform_name full))) /\
  (has_char quote line = false ->
   parse_xform_name path (before ++ line :: after) = Raise IndexError) /\
  parse_xform_name path before = Ok None.
Proof.
  intros Hplain Hbefore Hline.
  rewrite !parse_xform_name_plain by done.
  rewrite scan_submit_skip by done. simpl. rewrite Hline. split_and!.
  - intros a full b -> Ha Hfull. by rewrite !split_on_app.
  - intros Hq. by rewrite split_on_free.
  - rewrite <- (app_nil_r before). by rewrite scan_submit_skip.
Qed.

Lemma parse_xform_name_scan_witness :
  (forall a full b,
     "+pegasus_wf_xformation = " +:+
       String quote ("pegasus::transfer:2.0" +:+ String quote EmptyString)
     = a +:+ String quote (full +:+ String quote b) ->
     has_char quote a = false -> has_char quote full = false ->
     parse_xform_name "run/transfer_0.sub"
       (["universe = vanilla"] ++
        ("+pegasus_wf_xformation = " +:+
           String quote ("pegasus::transfer:2.0" +:+ String quote EmptyString))
        :: ["queue"])
     = Ok (Some (xform_name full))) /\
  (has_char quote
     ("+pegasus_wf_xformation = " +:+
        String quote ("pegasus::transfer:2.0" +:+ String quote EmptyString))
   = false ->
   parse_xform_name "run/transfer_0.sub"
     (["universe = vanilla"] ++
      ("+pegasus_wf_xformation = " +:+
         String quote ("pegasus::transfer:2.0" +:+ String quote EmptyString))
      :: ["queue"])
   = Raise IndexError) /\
  parse_xform_name "run/transfer_0.sub" ["universe = vanilla"] = Ok None.
Proof.
  apply (parse_xform_name_scan "run/transfer_0.sub" ["universe = vanilla"]
           ("+pegasus_wf_xformation = " +:+
              String quote ("pegasus::transfer:2.0" +:+ String quote EmptyString))
           ["queue"]).
  - unfold special_prefixes. repeat constructor.
  - repeat constructor.
  - reflexivity.
Defined.

(** ** Levels and parents *)

(** X18.  On a well-formed acyclic graph with fresh levels, in the
    graph [simplify] returns a job without parents is at level 1, and
    a job with parents is exactly one level below the highest of the
    parents it had; a parent at that level is still its parent. *)
Theorem simplify_levels_tight (g : graph) :
  wf_graph g -> acyclic g -> fresh_levels g ->
  exists k h2,
    (forall fuel, k <= fuel ->
       simplify fuel g = Ok {| objs := h2; dag := dag g |}) /\
    forall c, c ∈ nodes g ->
      (pars (objs g) c = [] -> lvl h2 c = 1%Z) /\
      (pars (objs g) c <> [] ->
       (forall p, p ∈ pars (objs g) c -> (lvl h2 p + 1 <= lvl h2 c)%Z) /\
       exists p, p ∈ pars h2 c /\ lvl h2 c = (lvl h2 p + 1)%Z).
Proof.
  intros Hwf Hacyc Hfresh.
  destruct (simplify_run g Hwf Hacyc (fresh_modest g Hwf Hacyc Hfresh))
    as (k & h1 & h2 & h3 & E & Ho & Hr0 & Hlv & Hwf1 & Hwf2 & Hsh & _).
  assert (Hl2 : forall q, lvl h2 q = lvl h1 q) by (intros; apply adj_only_lvl, Hsh).
  assert (Hwfg2 : wf_graph {| objs := h2; dag := dag g |})
    by (by apply (out_wf g Hwf h1 h2)).
  assert (Hup : forall p c, c ∈ nodes g -> p ∈ pars (objs g) c ->
            (lvl h1 p + 1 <= lvl h1 c)%Z).
  { intros p c Hc Hp.
    assert (Hpn : p ∈ nodes g) by (by eapply (wf_closed_p _ Hwf)).
    apply (wf_consistent _ Hwf p c Hpn Hc) in Hp.
    destruct (Hlv p Hpn) as (Lp & [(r & Hr & Hpath) _] & ->).
    destruct (Hlv c Hc) as (Lc & [_ Hmax] & ->).
    assert (S Lp <= Lc); [|lia].
    apply (Hmax r); [done|]. by eapply nsteps_r. }
  exists k, h2. split.
  { intros fuel Hf. by destruct (E fuel Hf) as (_ & _ & ? & _). }
  intros c Hc. split.
  - intros Hp. destruct (Hlv c Hc) as (L & HL & EL).
    rewrite (root_longest g Hwf c L (conj Hc Hp) HL) in EL. by rewrite Hl2.
  - intros Hp. split.
    { intros p Hin. rewrite !Hl2. by apply Hup. }
    destruct (pars (objs g) c) as [|p0 ps] eqn:Ep; [done|].
    assert (Hp0 : p0 ∈ pars (objs g) c) by (rewrite Ep; left).
    pose proof (Hup p0 c Hc Hp0) as Hle.
    assert (Hp0n : p0 ∈ nodes g) by (by eapply (wf_closed_p _ Hwf)).
    destruct (Hlv c Hc) as (Lc & [(r & Hr & Hpath) Hmax] & ELc).
    destruct (Hlv p0 Hp0n) as (Lp0 & _ & ELp0).
    destruct Lc as [|j]; [lia|].
    apply nsteps_inv_r in Hpath as (q & Hrq & Hqc).
    assert (Hqn : q ∈ nodes g) by (eapply (nsteps_node g Hwf); [apply Hr|done]).
    destruct (Hlv q Hqn) as (Lq & [_ Hmaxq] & ELq).
    pose proof (Hmaxq r j Hr Hrq) as Hge.
    assert (Hqp : q ∈ pars (objs g) c) by (by apply (wf_consistent _ Hwf q c)).
    pose proof (Hup q c Hc Hqp) as Hle'.
    assert (Ediff : lvl h1 c = (lvl h1 q + 1)%Z) by lia.
    exists q. split; [|by rewrite !Hl2].
    apply (wf_consistent _ Hwfg2 q c Hqn Hc). simpl.
    destruct (decide (c ∈ chs h2 q)) as [|Hout]; [done|]. exfalso.
    assert (Hc1 : c ∈ chs h1 q).
    { rewrite (lvl_only_chs _ _ q Ho). unfold chs.
      by rewrite (fld_with_root g Hwf). }
    destruct (sh_why _ _ _ Hsh q c Hc1 Hout) as (_ & Hfar & _).
    unfold far in Hfar. lia.
Qed.

Lemma simplify_levels_tight_witness :
  exists k h2,
    (forall fuel, k <= fuel ->
       simplify fuel diamond = Ok {| objs := h2; dag := dag diamond |}) /\
    forall c, c ∈ nodes diamond ->
      (pars (objs diamond) c = [] -> lvl h2 c = 1%Z) /\
      (pars (objs diamond) c <> [] ->
       (forall p, p ∈ pars (objs diamond) c -> (lvl h2 p + 1 <= lvl h2 c)%Z) /\
       exists p, p ∈ pars h2 c /\ lvl h2 c = (lvl h2 p + 1)%Z).
Proof.
  assert (H : graph_ok id diamond)
    by (apply (bool_decide_unpack _ (dec := graph_ok_dec id diamond)); by vm_compute).
  apply graph_ok_sound in H as (H1 & H2 & H3).
  exact (simplify_levels_tight diamond H1 H2 H3).
Defined.

(** ** The whole of [main] *)

(** X19.  On a well-formed acyclic graph with fresh levels and at
    most 20 distinct names, whatever the options, [main] returns and
    has drawn a graph [g2]: its jobs are the jobs of the input whose
    name is not among those to remove, in the order of the mapping,
    under the name and the identifier they had, and each of its
    edges is an edge of the input.  What is written is the header, a
    node statement for each job, an empty line, an edge statement for
    each edge and the footer. *)
Theorem main_output (o : options) (g : graph) :
  wf_graph g -> acyclic g -> fresh_levels g ->
  length (distinct_names g) <= 20 ->
  exists k g2,
    (forall fuel, k <= fuel ->
       main fuel o g
       = Ok (rewrite_ids g2,
             header :: (stmt_of (opt_xforms o) (objs g2) (distinct_names g2)
                        <$> dag g2)
               ++ nl :: edge_lines g2 ++ [footer])) /\
    dag g2 = filter (fun kv => nm (objs g) kv.2 ∉ opt_remove o) (dag g) /\
    forall q, q ∈ nodes g2 ->
      nm (objs g2) q = nm (objs g) q /\
      ident (objs g2) q = ident (objs g) q /\
      chs (objs g2) q ⊆ chs (objs g) q.
Proof.
  intros Hwf Hacyc Hfresh Hlen.
  destruct (remove_xforms_admissible g (opt_remove o) Hwf Hacyc Hfresh)
    as (g1 & E1 & Hwf1 & Hacyc1 & Hfresh1 & Hlen1).
  destruct (remove_xforms_full g (opt_remove o) Hwf)
    as (g1' & E1' & _ & Hdag1 & H1).
  assert (g1' = g1) as -> by congruence.
  assert (Hsub1 : forall q, q ∈ nodes g1 -> chs (objs g1) q ⊆ chs (objs g) q).
  { intros q Hq c. destruct (H1 q Hq) as (-> & _).
    by intros [_ ?]%list_elem_of_filter. }
  destruct (opt_simplify o) eqn:Eo.
  - destruct (simplify_run g1 Hwf1 Hacyc1 (fresh_modest g1 Hwf1 Hacyc1 Hfresh1))
      as (k & h1 & h2 & h3 & E & Ho & _ & Hlv & _ & Hwf2 & Hsh & _).
    set (g2 := {| objs := h2; dag := dag g1 |}).
    assert (Hwfg2 : wf_graph g2) by (by apply (out_wf g1 Hwf1 h1 h2)).
    assert (Hnm : forall q, q ∈ nodes g1 -> nm h2 q = nm (objs g1) q).
    { intros q Hq. rewrite (adj_only_nm h1 h2) by apply Hsh.
      rewrite (lvl_only_nm _ _ q Ho). by apply (fld_with_root g1 Hwf1). }
    assert (Hid : forall q, q ∈ nodes g1 -> ident h2 q = ident (objs g1) q).
    { intros q Hq. rewrite (adj_only_ident h1 h2) by apply Hsh.
      rewrite (lvl_only_ident _ _ q Ho). by apply (fld_with_root g1 Hwf1). }
    assert (Hdn : distinct_names g2 = distinct_names g1).
    { unfold distinct_names, names_of. simpl. f_equal.
      apply list_fmap_ext. intros i [key v] Hin. simpl. apply Hnm.
      apply nodes_elem. exists key. by eapply list_elem_of_lookup_2. }
    exists k, g2. split_and!; [|done|].
    + intros fuel Hf. destruct (E fuel Hf) as (_ & _ & Es & _).
      unfold main. rewrite E1. cbn [bind]. rewrite Eo, Es. cbn [bind].
      fold g2. rewrite (emit_dot_raw g2 (opt_xforms o) Hwfg2) by (rewrite Hdn; lia).
      by rewrite (edge_stmts_lines g2 Hwfg2).
    + intros q Hq. simpl in *. destruct (H1 q Hq) as (_ & _ & Hi & Hn & _).
      split_and!.
      * by rewrite Hnm, Hn.
      * by rewrite Hid, Hi.
      * etrans; [by apply (out_chs g1 Hwf1 h1 h2)|by apply Hsub1].
  - exists 0, g1. split_and!; [|done|].
    + intros fuel _. unfold main. rewrite E1. cbn [bind]. rewrite Eo. cbn [bind].
      rewrite (emit_dot_raw g1 (opt_xforms o) Hwf1) by lia.
      by rewrite (edge_stmts_lines g1 Hwf1).
    + intros q Hq. destruct (H1 q Hq) as (_ & _ & Hi & Hn & _).
      split_and!; [done..|by apply Hsub1].
Qed.

Lemma main_output_witness :
  exists k g2,
    (forall fuel, k <= fuel ->
       main fuel {| opt_simplify := true; opt_xforms := true;
                    opt_remove := ["B"] |} diamond
       = Ok (rewrite_ids g2,
             header :: (stmt_of true (objs g2) (distinct_names g2) <$> dag g2)
               ++ nl :: edge_lines g2 ++ [footer])) /\
    dag g2 = filter (fun kv => nm (objs diamond) kv.2 ∉ ["B"]) (dag diamond) /\
    forall q, q ∈ nodes g2 ->
      nm (objs g2) q = nm (objs diamond) q /\
      ident (objs g2) q = ident (objs diamond) q /\
      chs (objs g2) q ⊆ chs (objs diamond) q.
Proof.
  assert (H : graph_ok id diamond)
    by (apply (bool_decide_unpack _ (dec := graph_ok_dec id diamond)); by vm_compute).
  apply graph_ok_sound in H as (H1 & H2 & H3).
  apply (main_output {| opt_simplify := true; opt_xforms := true;
                        opt_remove := ["B"] |} diamond H1 H2 H3).
  vm_compute. lia.
Defined.

(** ** What the loaders refuse *)

Lemma dict_get_absent {V : Type} (d : list (string * V)) (k : string) :
  k ∉ d.*1 -> dict_get d k = Raise KeyError.
Proof.
  unfold dict_get. induction d as [|[k' v'] d IH]; simpl; intros Hk; [done|].
  apply not_elem_of_cons in Hk as [Hne Hk].
  rewrite decide_False by done. by apply IH.
Qed.

Lemma dict_get_present {V : Type} (d : list (string * V)) (k : string) :
  k ∈ d.*1 -> exists v, dict_get d k = Ok v.
Proof.
  unfold dict_get. induction d as [|[k' v'] d IH]; simpl; intros Hk.
  - by apply elem_of_nil in Hk.
  - destruct (decide (k' = k)); [by eexists|].
    apply IH. by apply elem_of_cons in Hk as [->|Hk].
Qed.

(** X20.  The DAG file reader stops at the first bad line, whatever
    follows it: a line that starts with JOB and has fewer than three
    words, or starts with PARENT and has fewer than four, raises the
    exception for an invalid line; a PARENT line whose second or
    fourth word is not the identifier of a job declared on an earlier
    line raises [KeyError], also when the job is declared later. *)
Theorem parse_dagfile_errors (xform_of : string -> result (option string))
    (pre : list string) (h : heap) (d : dict) (line : string)
    (post : list string) :
  for_each (dag_line xform_of) pre ([], []) = Ok (h, d) ->
  (String.prefix "JOB" (strip line) = true ->
   length (split (strip line)) < 3 ->
   parse_dagfile xform_of (pre ++ line :: post)
   = Raise (InvalidInput "Invalid line:")) /\
  (String.prefix "JOB" (strip line) = false ->
   String.prefix "PARENT" (strip line) = true ->
   (length (split (strip line)) < 4 ->
    parse_dagfile xform_of (pre ++ line :: post)
    = Raise (InvalidInput "Invalid line:")) /\
   (forall t0 pi t2 ci rest,
      split (strip line) = t0 :: pi :: t2 :: ci :: rest ->
      pi ∉ dict_keys d \/ ci ∉ dict_keys d ->
      parse_dagfile xform_of (pre ++ line :: post) = Raise KeyError)).
Proof.
  intros Epre.
  assert (Estep : forall e, dag_line xform_of (h, d) line = Raise e ->
            parse_dagfile xform_of (pre ++ line :: post) = Raise e).
  { intros e He. unfold parse_dagfile. rewrite for_each_app, Epre. cbn [bind for_each].
    by rewrite He. }
  split.
  - intros Hjob Hlen. apply Estep. unfold dag_line. rewrite Hjob.
    by rewrite decide_True.
  - intros Hjob Hpar. split.
    + intros Hlen. apply Estep. unfold dag_line. rewrite Hjob, Hpar.
      by rewrite decide_True.
    + intros t0 pi t2 ci rest Hsplit Hmiss. apply Estep. unfold dag_line.
      rewrite Hjob, Hpar, Hsplit.
      rewrite decide_False by (simpl; lia). simpl.
      destruct (decide (pi ∈ dict_keys d)) as [Hpi|Hpi].
      * destruct (dict_get_present d pi Hpi) as [p ->]. simpl.
        destruct Hmiss as [?|Hci]; [done|]. by rewrite dict_get_absent.
      * by rewrite dict_get_absent.
Qed.

Lemma parse_dagfile_errors_witness :
  (String.prefix "JOB" (strip "PARENT A CHILD B") = true ->
   length (split (strip "PARENT A CHILD B")) < 3 ->
   parse_dagfile (fun _ => Ok None)
     (["JOB A a.sub"] ++ "PARENT A CHILD B" :: ["JOB B b.sub"])
   = Raise (InvalidInput "Invalid line:")) /\
  (String.prefix "JOB" (strip "PARENT A CHILD B") = false ->
   String.prefix "PARENT" (strip "PARENT A CHILD B") = true ->
   (length (split (strip "PARENT A CHILD B")) < 4 ->
    parse_dagfile (fun _ => Ok None)
      (["JOB A a.sub"] ++ "PARENT A CHILD B" :: ["JOB B b.sub"])
    = Raise (InvalidInput "Invalid line:")) /\
   (forall t0 pi t2 ci rest,
      split (strip "PARENT A CHILD B") = t0 :: pi :: t2 :: ci :: rest ->
      pi ∉ dict_keys [("A", 0)] \/ ci ∉ dict_keys [("A", 0)] ->
      parse_dagfile (fun _ => Ok None)
        (["JOB A a.sub"] ++ "PARENT A CHILD B" :: ["JOB B b.sub"])
      = Raise KeyError)).
Proof.
  apply (parse_dagfile_errors (fun _ => Ok None) ["JOB A a.sub"]
           [new_Job "A" "A"] [("A", 0)] "PARENT A CHILD B" ["JOB B b.sub"]).
  reflexivity.
Defined.

(** X21.  The DAX handler stops at the first bad element, whatever
    follows it: a [job] without [id] raises the exception for the
    missing attribute; a [parent] met before any [child] raises
    [AttributeError], the handler having no [lastchild] yet; a
    [parent] met after the end of a [child], or inside a [child]
    without [ref], raises the exception for a parent outside a child;
    and a [parent] inside a [child] raises [KeyError] when the [ref]
    of either is not the identifier of a job declared earlier. *)
Theorem parse_daxfile_errors (pre : list event) (st : DAXHandler)
    (attrs : list (string * string)) (post : list event) :
  for_each (fun st e =>
              match e with
              | StartElement name attrs => startElement st name attrs
              | EndElement name => Ok (endElement st name)
              end)
    pre {| dh_objs := []; dh_dag := []; lastchild := None |} = Ok st ->
  (dict_lookup attrs "id" = None ->
   parse_daxfile (pre ++ StartElement "job" attrs :: post)
   = Raise (InvalidInput "Invalid DAX: attribute 'id' missing")) /\
  (lastchild st = None ->
   parse_daxfile (pre ++ StartElement "parent" attrs :: post)
   = Raise AttributeError) /\
  (lastchild st = Some None ->
   parse_daxfile (pre ++ StartElement "parent" attrs :: post)
   = Raise (InvalidInput "Invalid DAX: <parent> outside <child>")) /\
  (forall lc, lastchild st = Some (Some lc) ->
     lc ∉ dict_keys (dh_dag st) \/
     (forall pid, dict_lookup attrs "ref" = Some pid ->
                  pid ∉ dict_keys (dh_dag st)) ->
     parse_daxfile (pre ++ StartElement "parent" attrs :: post)
     = Raise KeyError).
Proof.
  intros Epre.
  assert (Estep : forall name e, startElement st name attrs = Raise e ->
            parse_daxfile (pre ++ StartElement name attrs :: post) = Raise e).
  { intros name e He. unfold parse_daxfile. rewrite for_each_app, Epre.
    cbn [bind for_each]. by rewrite He. }
  split_and!.
  - intros Hid. apply Estep. unfold startElement.
    rewrite decide_True by done. by rewrite Hid.
  - intros Hlc. apply Estep. unfold startElement.
    rewrite decide_False by done. rewrite decide_False by done.
    rewrite decide_True by done. by rewrite Hlc.
  - intros Hlc. apply Estep. unfold startElement.
    rewrite decide_False by done. rewrite decide_False by done.
    rewrite decide_True by done. by rewrite Hlc.
  - intros lc Hlc Hmiss. apply Estep. unfold startElement.
    rewrite decide_False by done. rewrite decide_False by done.
    rewrite decide_True by done. rewrite Hlc.
    destruct (decide (lc ∈ dict_keys (dh_dag st))) as [Hin|Hin].
    + destruct (dict_get_present (dh_dag st) lc Hin) as [c ->]. simpl.
      destruct Hmiss as [?|Hp]; [done|].
      destruct (dict_lookup attrs "ref") as [pid|]; [|done].
      by rewrite dict_get_absent by (by apply Hp).
    + by rewrite dict_get_absent.
Qed.

Lemma parse_daxfile_errors_witness :
  (dict_lookup [("ref", "B")] "id" = None ->
   parse_daxfile ([StartElement "job" [("id", "A")];
                   StartElement "child" [("ref", "A")]]
                  ++ StartElement "job" [("ref", "B")]
                  :: [StartElement "job" [("id", "B")]])
   = Raise (InvalidInput "Invalid DAX: attribute 'id' missing")) /\
  (lastchild {| dh_objs := [new_Job "A" "A"]; dh_dag := [("A", 0)];
                lastchild := Some (Some "A") |} = None ->
   parse_daxfile ([StartElement "job" [("id", "A")];
                   StartElement "child" [("ref", "A")]]
                  ++ StartElement "parent" [("ref", "B")]
                  :: [StartElement "job" [("id", "B")]])
   = Raise AttributeError) /\
  (lastchild {| dh_objs := [new_Job "A" "A"]; dh_dag := [("A", 0)];
                lastchild := Some (Some "A") |} = Some None ->
   parse_daxfile ([StartElement "job" [("id", "A")];
                   StartElement "child" [("ref", "A")]]
                  ++ StartElement "parent" [("ref", "B")]
                  :: [StartElement "job" [("id", "B")]])
   = Raise (InvalidInput "Invalid DAX: <parent> outside <child>")) /\
  (forall lc,
     lastchild {| dh_objs := [new_Job "A" "A"]; dh_dag := [("A", 0)];
                  lastchild := Some (Some "A") |} = Some (Some lc) ->
     lc ∉ dict_keys (dh_dag {| dh_objs := [new_Job "A" "A"];
                               dh_dag := [("A", 0)];
                               lastchild := Some (Some "A") |}) \/
     (forall pid, dict_lookup [("ref", "B")] "ref" = Some pid ->
                  pid ∉ dict_keys (dh_dag {| dh_objs := [new_Job "A" "A"];
                                             dh_dag := [("A", 0)];
                                             lastchild := Some (Some "A") |})) ->
     parse_daxfile ([StartElement "job" [("id", "A")];
                     StartElement "child" [("ref", "A")]]
                    ++ StartElement "parent" [("ref", "B")]
                    :: [StartElement "job" [("id", "B")]])
     = Raise KeyError).
Proof.
  apply (parse_daxfile_errors
           [StartElement "job" [("id", "A")]; StartElement "child" [("ref", "A")]]
           {| dh_objs := [new_Job "A" "A"]; dh_dag := [("A", 0)];
              lastchild := Some (Some "A") |}
           [("ref", "B")] [StartElement "job" [("id", "B")]]).
  reflexivity.
Defined.

(** ** [inv_reachable] on any heap *)

(** The answer of the loop is right for the pending nodes, whatever
    nodes [P] it has dealt with before, provided none of them has [b]
    as a parent and the parents of each are dealt with or pending. *)
Lemma inv_reachable_loop_sound (h : heap) (b : handle) (fuel : nat) :
  forall (fifo : list handle) (P : handle -> Prop) (r : bool),
  (forall x p, P x -> p ∈ pars h x -> p <> b /\ (P p \/ p ∈ fifo)) ->
  inv_reachable_loop fuel h b fifo = Ok r ->
  if r then exists x, x ∈ fifo /\ tc (plink h) x b
  else forall x, P x \/ x ∈ fifo -> ~ tc (plink h) x b.
Proof.
  induction fuel as [|fuel IH]; intros fifo P r HP E; [done|].
  simpl in E. destruct fifo as [|n fifo _] using rev_ind.
  - rewrite pop_nil in E. injection E as <-.
    intros x [Hx|Hx]; [|by apply elem_of_nil in Hx].
    intros Ht. induction Ht as [x y Hxy|x y z Hxy _ IHt].
    + by destruct (HP x y Hx Hxy).
    + destruct (HP x y Hx Hxy) as [_ [Hy|Hy]]; [by apply IHt|].
      by apply elem_of_nil in Hy.
  - rewrite pop_snoc in E. apply bind_Ok in E as (nj & En & E).
    assert (Ep : pars h n = parents nj).
    { apply fld_lookup. unfold deref in En. by destruct (h !! n); [injection En as ->|]. }
    rewrite scan_parents_spec, <- Ep in E.
    destruct (decide (b ∈ pars h n)) as [Hb|Hb].
    + injection E as <-. exists n. split; [apply elem_of_app; right; left|].
      by apply tc_once.
    + specialize (IH (fifo ++ pars h n) (fun x => P x \/ x = n) r).
      destruct r.
      * destruct IH as (x & Hx & Ht); [|done|].
        { intros x p [Hx| ->] Hp.
          - destruct (HP x p Hx Hp) as [Hne [Hpp|Hpf]]; (split; [done|]).
            + left. by left.
            + apply elem_of_app in Hpf as [Hpf| ->%list_elem_of_singleton].
              * right. apply elem_of_app. by left.
              * left. by right.
          - split; [by intros ->|]. right. apply elem_of_app. by right. }
        apply elem_of_app in Hx as [Hx|Hx].
        -- exists x. split; [apply elem_of_app; by left|done].
        -- exists n. split; [apply elem_of_app; right; left|]. by eapply tc_l.
      * intros x Hx. apply IH; [|done|].
        { intros y p [Hy| ->] Hp.
          - destruct (HP y p Hy Hp) as [Hne [Hpp|Hpf]]; (split; [done|]).
            + left. by left.
            + apply elem_of_app in Hpf as [Hpf| ->%list_elem_of_singleton].
              * right. apply elem_of_app. by left.
              * left. by right.
          - split; [by intros ->|]. right. apply elem_of_app. by right. }
        destruct Hx as [Hx|[Hx| ->%list_elem_of_singleton]%elem_of_app].
        -- left. by left.
        -- right. apply elem_of_app. by left.
        -- left. by right.
Qed.

(** X22.  On any heap, with or without cycles, whenever
    [inv_reachable(a, b)] returns its answer is right: it is [True]
    exactly when [b] is reached from [a] by one or more parent
    links. *)
Theorem inv_reachable_sound (h : heap) (a b : handle) (fuel : nat) (r : bool) :
  inv_reachable fuel h a b = Ok r ->
  (r = true <-> tc (plink h) a b).
Proof.
  intros E.
  pose proof (inv_reachable_loop_sound h b fuel [a] (fun _ => False) r) as H.
  destruct r.
  - destruct H as (x & ->%list_elem_of_singleton & Ht); [by intros x p []|done|].
    done.
  - split; [done|]. intros Ht. destruct (H (fun x p (F : False) => match F with end) E a);
      [right; left|done].
Qed.

Lemma inv_reachable_sound_witness :
  (true = true <-> tc (plink (objs lasso)) 2 0).
Proof. apply (inv_reachable_sound (objs lasso) 2 0 10 true). reflexivity. Defined.

(** ** The two loaders agree *)

(** X23.  An edge declared in a DAG file and the same edge declared
    in a DAX file have the same effect, whatever the state: a PARENT
    line whose second and fourth words are [pi] and [ci] leaves the
    objects and the mapping that a [child] element with [ref] [ci]
    followed by a [parent] element with [ref] [pi] leaves, list order
    included, and raises what they raise. *)
Theorem edge_loaders_agree (xform_of : string -> result (option string))
    (h : heap) (d : dict) (lc : option (option string))
    (line t0 pi t2 ci : string) (rest : list string) :
  String.prefix "JOB" (strip line) = false ->
  String.prefix "PARENT" (strip line) = true ->
  split (strip line) = t0 :: pi :: t2 :: ci :: rest ->
  dag_line xform_of (h, d) line
  = (st1 <- startElement {| dh_objs := h; dh_dag := d; lastchild := lc |}
              "child" [("ref", ci)] ;;
     st2 <- startElement st1 "parent" [("ref", pi)] ;;
     Ok (dh_objs st2, dh_dag st2)).
Proof.
  intros Hjob Hpar Hsplit. unfold dag_line. rewrite Hjob, Hpar, Hsplit.
  rewrite decide_False by (simpl; lia).
  cbn [lookup list_lookup]. unfold startElement at 1.
  rewrite decide_False by done. rewrite decide_True by done.
  cbn [bind]. unfold startElement.
  rewrite decide_False by done. rewrite decide_False by done.
  rewrite decide_True by done.
  cbn [lastchild dh_dag dh_objs dict_lookup]. rewrite !decide_True by done.
  unfold dict_get.
  destruct (dict_lookup d pi) as [p|] eqn:Ep, (dict_lookup d ci) as [c|] eqn:Ec;
    cbn [bind]; try done.
  unfold children_append, parents_append, deref.
  destruct (h !! p) as [pj|] eqn:Hp, (h !! c) as [cj|] eqn:Hc; cbn [bind];
    try done.
  - assert (Hpl : p < length h) by (by eapply lookup_lt_Some).
    assert (Hcl : c < length h) by (by eapply lookup_lt_Some).
    destruct (decide (p = c)) as [->|Hne].
    + assert (pj = cj) as -> by congruence.
      rewrite !list_lookup_insert_eq by done. cbn [bind].
      by rewrite !list_insert_insert_eq.
    + rewrite !list_lookup_insert_ne by done. rewrite Hp, Hc. cbn [bind].
      by rewrite list_insert_insert_ne.
  - destruct (decide (c = p)) as [->|Hne]; [congruence|].
    rewrite list_lookup_insert_ne by done. by rewrite Hc.
  - destruct (decide (p = c)) as [->|Hne]; [congruence|].
    rewrite list_lookup_insert_ne by done. by rewrite Hp.
Qed.

Lemma edge_loaders_agree_witness :
  dag_line (fun _ => Ok None) (objs single ++ [new_Job "B" "B"], [("A", 0); ("B", 1)])
    "PARENT A CHILD B"
  = (st1 <- startElement {| dh_objs := objs single ++ [new_Job "B" "B"];
                            dh_dag := [("A", 0); ("B", 1)];
                            lastchild := None |}
              "child" [("ref", "B")] ;;
     st2 <- startElement st1 "parent" [("ref", "A")] ;;
     Ok (dh_objs st2, dh_dag st2)).
Proof.
  apply (edge_loaders_agree (fun _ => Ok None) (objs single ++ [new_Job "B" "B"])
           [("A", 0); ("B", 1)] None "PARENT A CHILD B" "PARENT" "A" "CHILD" "B" []);
    reflexivity.
Defined.

(** ** Levels and the size of the graph *)

(** The jobs on a path of an acyclic graph are all different. *)
Lemma path_jobs (g : graph) (n : nat) (x y : handle) :
  wf_graph g -> acyclic g -> x ∈ nodes g -> nsteps (edge (objs g)) n x y ->
  exists l, length l = S n /\ NoDup l /\
    forall z, z ∈ l -> z ∈ nodes g /\ rtc (edge (objs g)) x z.
Proof.
  intros Hwf Hacyc Hx Hp. induction Hp as [x|n x x1 y Hxx1 _ IH].
  - exists [x]. split_and!; [done|apply NoDup_singleton|].
    by intros z ->%list_elem_of_singleton.
  - assert (Hx1 : x1 ∈ nodes g) by (by eapply (wf_closed_c _ Hwf)).
    destruct (IH Hx1) as (l & Hlen & Hnd & Hl).
    exists (x :: l). split_and!.
    + simpl. by rewrite Hlen.
    + apply NoDup_cons. split; [|done]. intros Hin.
      destruct (Hl x Hin) as [_ Hr]. apply (Hacyc x Hx).
      by eapply tc_rtc_r; [apply tc_once|].
    + intros z [->|Hz]%elem_of_cons; [done|].
      destruct (Hl z Hz) as [Hzn Hr]. split; [done|]. by eapply rtc_l.
Qed.

(** X24.  On a well-formed acyclic graph with fresh levels, the
    levels [simplify] gives the jobs lie between 1 and the number of
    jobs. *)
Theorem simplify_levels_bounded (g : graph) :
  wf_graph g -> acyclic g -> fresh_levels g ->
  exists k h2,
    (forall fuel, k <= fuel ->
       simplify fuel g = Ok {| objs := h2; dag := dag g |}) /\
    forall q, q ∈ nodes g ->
      (1 <= lvl h2 q <= Z.of_nat (length (dag g)))%Z.
Proof.
  intros Hwf Hacyc Hfresh.
  destruct (simplify_run g Hwf Hacyc (fresh_modest g Hwf Hacyc Hfresh))
    as (k & h1 & h2 & h3 & E & Ho & Hr0 & Hlv & Hwf1 & Hwf2 & Hsh & _).
  exists k, h2. split.
  { intros fuel Hf. by destruct (E fuel Hf) as (_ & _ & ? & _). }
  intros q Hq. rewrite (adj_only_lvl h1 h2) by apply Hsh.
  destruct (Hlv q Hq) as (L & [(r & [Hr _] & Hp) _] & ->).
  destruct (path_jobs g L r q Hwf Hacyc Hr Hp) as (l & Hlen & Hnd & Hl).
  assert (Hle : length l <= length (nodes g)).
  { apply submseteq_length, NoDup_submseteq; [done|]. intros z Hz. by apply Hl. }
  unfold nodes in Hle. rewrite length_fmap in Hle. lia.
Qed.

Lemma simplify_levels_bounded_witness :
  exists k h2,
    (forall fuel, k <= fuel ->
       simplify fuel diamond = Ok {| objs := h2; dag := dag diamond |}) /\
    forall q, q ∈ nodes diamond ->
      (1 <= lvl h2 q <= Z.of_nat (length (dag diamond)))%Z.
Proof.
  assert (H : graph_ok id diamond)
    by (apply (bool_decide_unpack _ (dec := graph_ok_dec id diamond)); by vm_compute).
  apply graph_ok_sound in H as (H1 & H2 & H3).
  exact (simplify_levels_bounded diamond H1 H2 H3).
Defined.

(** ** Submit scripts that cannot be read *)

(** X25.  The DAG file reader stops, with [IndexError], at a JOB line
    whose submit script is a file without a special name in which the
    first line that contains [+pegasus_wf_xformation] has no double
    quote, whatever follows the line: the job does not enter the
    mapping.  The DAG file is one named without a directory, or the
    script is named by an absolute path. *)
Theorem parse_dagfile_submit_error (files : submit_files)
    (pre : list string) (h : heap) (d : dict) (line t i sub : string)
    (rest post before : list string) (mline : string) (after : list string) :
  for_each (dag_line (lookup_submit files)) pre ([], []) = Ok (h, d) ->
  String.prefix "JOB" (strip line) = true ->
  split (strip line) = t :: i :: sub :: rest ->
  files sub = Some (before ++ mline :: after) ->
  Forall (fun p => String.prefix p (basename sub) = false) special_prefixes ->
  Forall (fun l => contains "+pegasus_wf_xformation" l = false) before ->
  contains "+pegasus_wf_xformation" mline = true ->
  has_char quote mline = false ->
  parse_dagfile (lookup_submit files) (pre ++ line :: post) = Raise IndexError.
Proof.
  intros Epre Hjob Hsplit Hfile Hplain Hbefore Hmark Hquote.
  unfold parse_dagfile. rewrite for_each_app, Epre. cbn [bind for_each].
  unfold dag_line at 1. rewrite Hjob, Hsplit.
  rewrite decide_False by (simpl; lia). cbn [lookup list_lookup].
  unfold lookup_submit. rewrite Hfile.
  rewrite parse_xform_name_plain, scan_submit_skip by done.
  simpl. rewrite Hmark. by rewrite split_on_free.
Qed.

Lemma parse_dagfile_submit_error_witness :
  parse_dagfile
    (lookup_submit (fun p => if decide (p = "a.sub")
                             then Some ([] ++ "+pegasus_wf_xformation = none" :: [])
                             else None))
    ([] ++ "JOB A a.sub" :: ["JOB B b.sub"])
  = Raise IndexError.
Proof.
  apply (parse_dagfile_submit_error
           (fun p => if decide (p = "a.sub")
                     then Some ([] ++ "+pegasus_wf_xformation = none" :: [])
                     else None)
           [] [] [] "JOB A a.sub" "JOB" "A" "a.sub" [] ["JOB B b.sub"]
           [] "+pegasus_wf_xformation = none" []).
  - reflexivity.
  - reflexivity.
  - reflexivity.
  - reflexivity.
  - unfold special_prefixes. repeat constructor.
  - constructor.
  - reflexivity.
  - reflexivity.
Defined.
